(** * The LSP client and workspace manager of [src/lib/typescript-operations.ts]

    A shallow embedding of [TypeScriptLSPClient] and
    [TypeScriptWorkspaceManager]: JavaScript strings are sequences of UTF-16
    code units, the wire is a sequence of bytes, the [Map]s of the source are
    finite maps, objects live in a store and are named by references, and the
    asynchronous parts (timers, data arriving on stdout, the exit of the
    subprocess) are events of a step function. *)

From Stdlib Require Import NArith ZArith Lia List Ascii String Bool Sorted.
From stdpp Require Import base decidable option list gmap strings.
Import ListNotations.
Local Open Scope N_scope.
#[local] Set Warnings "-register-all".

(** ** JavaScript strings *)

(** A JavaScript string is a sequence of UTF-16 code units. *)
Abbreviation jsstring := (list N).

Module JsString.

(** A string literal of the source (ASCII only). *)
Definition lit (s : string) : jsstring :=
(fun a => N_of_ascii a) <$> list_ascii_of_string s.

Fixpoint isPrefixOf (p s : jsstring) : bool :=
match p, s with
| [], _ => true
| a :: p', b :: s' => (a =? b) && isPrefixOf p' s'
| _ :: _, [] => false
end.

(** [String.prototype.startsWith]. *)
Definition startsWith (s search : jsstring) : bool := isPrefixOf search s.

(** [String.prototype.endsWith]: the last [search.length] code units of [s]
  are compared with [search]; a longer [search] never matches. *)
Definition endsWith (s search : jsstring) : bool :=
let len := length s in
let searchLength := length search in
if (len <? searchLength)%nat then false
else bool_decide (drop (len - searchLength) s = search).

(** [String.prototype.indexOf]: the least index at which [search] occurs. *)
Fixpoint indexOf (s search : jsstring) {struct s} : option nat :=
if isPrefixOf search s then Some 0%nat
else match s with
     | [] => None
     | _ :: s' => S <$> indexOf s' search
     end.

(** [String.prototype.includes]. *)
Definition includes (s search : jsstring) : bool :=
match indexOf s search with Some _ => true | None => false end.

(** [String.prototype.split] for a separator of one code unit. *)
Fixpoint split (sep : N) (s : jsstring) : list jsstring :=
match s with
| [] => [[]]
| c :: s' =>
    if c =? sep then [] :: split sep s'
    else match split sep s' with
         | [] => [[c]]
         | seg :: segs => (c :: seg) :: segs
         end
end.

(** [String.prototype.slice(start, end)] with [0 <= start <= end]. *)
Definition slice (s : jsstring) (start end_ : nat) : jsstring :=
take (end_ - start) (drop start s).

(** [String.prototype.slice(start)]. *)
Definition sliceFrom (s : jsstring) (start : nat) : jsstring := drop start s.

Definition isDigit (c : N) : bool := (48 <=? c) && (c <=? 57).

(** The decimal digits of a number, least significant first; [fuel] bounds
  the number of digits. *)
Fixpoint digitsRev (fuel : nat) (n : N) : jsstring :=
match fuel with
| O => []
| S fuel' =>
    if n <? 10 then [48 + n]
    else (48 + n mod 10) :: digitsRev fuel' (n / 10)
end.

(** [String(n)] for a non-negative integer, as a template literal
  [`${n}`] produces it. *)
Definition ofNumber (n : N) : jsstring :=
rev (digitsRev (S (N.to_nat (N.log2 n))) n).

(** [parseInt(s, 10)] on a string of decimal digits (what the group
  [(\d+)] of the header pattern captures).  The result is exact: the
  header of a buffer that fits in memory is far below [2^53]. *)
Definition parseInt (s : jsstring) : N :=
fold_left (fun acc c => acc * 10 + (c - 48)) s 0.

End JsString.
Import JsString.
#[global] Arguments lit : simpl never.

(** ** UTF-8, the encoding of the pipes *)

Module Utf8.

Definition isHighSurrogate (c : N) : bool := (0xD800 <=? c) && (c <=? 0xDBFF).
Definition isLowSurrogate (c : N) : bool := (0xDC00 <=? c) && (c <=? 0xDFFF).

(** The bytes of one code point. *)
Definition encodeCodePoint (cp : N) : list N :=
if cp <? 0x80 then [cp]
else if cp <? 0x800 then [0xC0 + cp / 64; 0x80 + cp mod 64]
else if cp <? 0x10000 then
  [0xE0 + cp / 4096; 0x80 + (cp / 64) mod 64; 0x80 + cp mod 64]
else
  [0xF0 + cp / 262144; 0x80 + (cp / 4096) mod 64;
   0x80 + (cp / 64) mod 64; 0x80 + cp mod 64].

(** What [stream.write(str)] puts on the pipe: a surrogate pair is one code
  point, a lone surrogate is replaced by U+FFFD. *)
Fixpoint encode (s : jsstring) : list N :=
match s with
| [] => []
| c :: s' =>
    if isHighSurrogate c then
      match s' with
      | d :: s'' =>
          if isLowSurrogate d then
            encodeCodePoint (0x10000 + (c - 0xD800) * 1024 + (d - 0xDC00))
              ++ encode s''
          else encodeCodePoint 0xFFFD ++ encode s'
      | [] => encodeCodePoint 0xFFFD
      end
    else if isLowSurrogate c then encodeCodePoint 0xFFFD ++ encode s'
    else encodeCodePoint c ++ encode s'
end.

(** [Buffer.byteLength(str)]: the number of bytes of the UTF-8 encoding. *)
Definition byteLength (s : jsstring) : nat := length (encode s).

(** The code units of a decoded code point. *)
Definition codeUnits (cp : N) : jsstring :=
if cp <? 0x10000 then [cp]
else [0xD800 + (cp - 0x10000) / 1024; 0xDC00 + (cp - 0x10000) mod 1024].

(** The state of the decoder inside a multi-byte sequence. *)
Record Pending := {
codePoint : N;
bytesNeeded : nat;
lowerBoundary : N;
upperBoundary : N;
}.

(** The first byte of a sequence. *)
Definition lead (b : N) : jsstring + Pending :=
if b <? 0x80 then inl [b]
else if (0xC2 <=? b) && (b <=? 0xDF) then
  inr {| codePoint := b - 0xC0; bytesNeeded := 1;
         lowerBoundary := 0x80; upperBoundary := 0xBF |}
else if (0xE0 <=? b) && (b <=? 0xEF) then
  inr {| codePoint := b - 0xE0; bytesNeeded := 2;
         lowerBoundary := if b =? 0xE0 then 0xA0 else 0x80;
         upperBoundary := if b =? 0xED then 0x9F else 0xBF |}
else if (0xF0 <=? b) && (b <=? 0xF4) then
  inr {| codePoint := b - 0xF0; bytesNeeded := 3;
         lowerBoundary := if b =? 0xF0 then 0x90 else 0x80;
         upperBoundary := if b =? 0xF4 then 0x8F else 0xBF |}
else inl [0xFFFD].

(** [buf.toString()]: each chunk is decoded on its own; an ill-formed or
  truncated sequence becomes U+FFFD. *)
Fixpoint decodeFrom (st : option Pending) (bytes : list N) : jsstring :=
match bytes with
| [] => match st with None => [] | Some _ => [0xFFFD] end
| b :: rest =>
    match st with
    | None =>
        match lead b with
        | inl out => out ++ decodeFrom None rest
        | inr p => decodeFrom (Some p) rest
        end
    | Some p =>
        if (lowerBoundary p <=? b) && (b <=? upperBoundary p) then
          let cp := codePoint p * 64 + (b - 0x80) in
          match bytesNeeded p with
          | 1%nat => codeUnits cp ++ decodeFrom None rest
          | n =>
              decodeFrom
                (Some {| codePoint := cp; bytesNeeded := pred n;
                         lowerBoundary := 0x80; upperBoundary := 0xBF |})
                rest
          end
        else
          0xFFFD ::
          match lead b with
          | inl out => out ++ decodeFrom None rest
          | inr q => decodeFrom (Some q) rest
          end
    end
end.

Definition decode (bytes : list N) : jsstring := decodeFrom None bytes.

End Utf8.

(** ** JSON values *)

(** A value that [JSON.parse] returns or [JSON.stringify] accepts.  Numbers
    are the integers (ids, versions, positions, pids); the properties of an
    object are kept in insertion order. *)
Inductive json :=
| JNull
| JBool (b : bool)
| JNum (n : Z)
| JStr (s : jsstring)
| JArr (xs : list json)
| JObj (props : list (jsstring * json)).

Module Json.

Definition hexDigit (d : N) : N := if d <? 10 then 48 + d else 87 + d.

(** The escape [\uXXXX] of a code unit. *)
Definition unicodeEscape (c : N) : jsstring :=
[92; 117; hexDigit (c / 4096); hexDigit ((c / 256) mod 16);
 hexDigit ((c / 16) mod 16); hexDigit (c mod 16)].

Definition escapeUnit (c : N) : jsstring :=
if c =? 8 then lit "\b"
else if c =? 9 then lit "\t"
else if c =? 10 then lit "\n"
else if c =? 12 then lit "\f"
else if c =? 13 then lit "\r"
else if c =? 34 then [92; 34]
else if c =? 92 then [92; 92]
else if c <? 32 then unicodeEscape c
else [c].

(** The body of a quoted string: control characters, the quote and the
  backslash are escaped, a lone surrogate is written as an escape, and
  every other code unit, ASCII or not, is copied. *)
Fixpoint quoteUnits (s : jsstring) : jsstring :=
match s with
| [] => []
| c :: s' =>
    if Utf8.isHighSurrogate c then
      match s' with
      | d :: s'' =>
          if Utf8.isLowSurrogate d then c :: d :: quoteUnits s''
          else unicodeEscape c ++ quoteUnits s'
      | [] => unicodeEscape c
      end
    else if Utf8.isLowSurrogate c then unicodeEscape c ++ quoteUnits s'
    else escapeUnit c ++ quoteUnits s'
end.

Definition quote (s : jsstring) : jsstring := [34] ++ quoteUnits s ++ [34].

Definition ofInteger (n : Z) : jsstring :=
match n with
| Z0 => lit "0"
| Zpos p => ofNumber (Npos p)
| Zneg p => lit "-" ++ ofNumber (Npos p)
end.

Fixpoint join (sep : jsstring) (parts : list jsstring) : jsstring :=
match parts with
| [] => []
| [p] => p
| p :: ps => p ++ sep ++ join sep ps
end.

(** [JSON.stringify(value)], without indentation. *)
Fixpoint JSON_stringify (v : json) : jsstring :=
match v with
| JNull => lit "null"
| JBool true => lit "true"
| JBool false => lit "false"
| JNum n => ofInteger n
| JStr s => quote s
| JArr xs => lit "[" ++ join (lit ",") (map JSON_stringify xs) ++ lit "]"
| JObj props =>
    lit "{"
    ++ join (lit ",")
         (map (fun kv => match kv with
                         | (k, x) => quote k ++ lit ":" ++ JSON_stringify x
                         end) props)
    ++ lit "}"
end.

(** [value[key]] on a parsed value; [None] is [undefined].  A key that
  occurs twice in the text keeps its last value. *)
Fixpoint lookupProp (key : jsstring) (props : list (jsstring * json)) : option json :=
match props with
| [] => None
| (k, x) :: rest =>
    match lookupProp key rest with
    | Some y => Some y
    | None => if bool_decide (k = key) then Some x else None
    end
end.

Definition prop (key : string) (v : json) : option json :=
match v with
| JObj props => lookupProp (lit key) props
| _ => None
end.

(** The truth value of an expression in a condition. *)
Definition truthy (v : option json) : bool :=
match v with
| None => false
| Some JNull => false
| Some (JBool b) => b
| Some (JNum n) => negb (n =? 0)%Z
| Some (JStr s) => match s with [] => false | _ => true end
| Some (JArr _) => true
| Some (JObj _) => true
end.

End Json.
Import Json.

(** ** The client object and the runtime around it *)

(** [new Error(...)]: with a message built by the client, or with whatever
    the server put in [error.message]. *)
Inductive JsError :=
| Error_ (message : jsstring)
| ErrorOf (message : option json).

(** How a promise is settled. *)
Inductive Outcome :=
| Resolved (value : option json)
| Rejected (reason : JsError).

(** The callbacks given to [setTimeout]: the one of [sendRequest] (lines
    475-480), which closes over the id, the [reject] of the request's promise
    and the method, and the one of [initialize] (line 200). *)
Inductive TimerCallback :=
| RequestTimeout (id : N) (p : nat) (method : jsstring)
| InitializeTimeout (p : nat).

Record Timer := {
  callback : TimerCallback;
  deadline : N;
  fired : bool;
}.

(** What the client does to the outside, in the order it does it. *)
Inductive Effect :=
| Write (pr : nat) (message : json)   (* process.stdin.write of the framed message *)
| Settle (p : nat) (o : Outcome) (time : N)   (* a call of resolve or reject *)
| Emit (event : json) (params : option json)
| Kill (pr : nat)
| Rm (dir : jsstring).

(** The fields of [TypeScriptLSPClient] (lines 121-128), then the part of the
    runtime the object interacts with: the time in milliseconds, the promises
    created so far (a promise is named by its number), the timers set so far
    (a timer is named by its position) and the effects, latest first.
    [pendingRequests] maps an id to the promise whose [resolve] and [reject]
    the entry holds. *)
Record TypeScriptLSPClient := {
  process : option nat;
  requestId : N;
  pendingRequests : gmap N nat;
  buffer : jsstring;
  initialized : bool;
  workspaceRoot : jsstring;
  tempDir : option jsstring;
  openDocuments : list jsstring;
  clock : N;
  promises : nat;
  timers : list Timer;
  effects : list Effect;
}.

Module Client.

Definition set_process v c :=
{| process := v; requestId := requestId c; pendingRequests := pendingRequests c;
   buffer := buffer c; initialized := initialized c; workspaceRoot := workspaceRoot c;
   tempDir := tempDir c; openDocuments := openDocuments c; clock := clock c;
   promises := promises c; timers := timers c; effects := effects c |}.
Definition set_requestId v c :=
{| process := process c; requestId := v; pendingRequests := pendingRequests c;
   buffer := buffer c; initialized := initialized c; workspaceRoot := workspaceRoot c;
   tempDir := tempDir c; openDocuments := openDocuments c; clock := clock c;
   promises := promises c; timers := timers c; effects := effects c |}.
Definition set_pendingRequests v c :=
{| process := process c; requestId := requestId c; pendingRequests := v;
   buffer := buffer c; initialized := initialized c; workspaceRoot := workspaceRoot c;
   tempDir := tempDir c; openDocuments := openDocuments c; clock := clock c;
   promises := promises c; timers := timers c; effects := effects c |}.
Definition set_buffer v c :=
{| process := process c; requestId := requestId c; pendingRequests := pendingRequests c;
   buffer := v; initialized := initialized c; workspaceRoot := workspaceRoot c;
   tempDir := tempDir c; openDocuments := openDocuments c; clock := clock c;
   promises := promises c; timers := timers c; effects := effects c |}.
Definition set_initialized v c :=
{| process := process c; requestId := requestId c; pendingRequests := pendingRequests c;
   buffer := buffer c; initialized := v; workspaceRoot := workspaceRoot c;
   tempDir := tempDir c; openDocuments := openDocuments c; clock := clock c;
   promises := promises c; timers := timers c; effects := effects c |}.
Definition set_tempDir v c :=
{| process := process c; requestId := requestId c; pendingRequests := pendingRequests c;
   buffer := buffer c; initialized := initialized c; workspaceRoot := workspaceRoot c;
   tempDir := v; openDocuments := openDocuments c; clock := clock c;
   promises := promises c; timers := timers c; effects := effects c |}.
Definition set_openDocuments v c :=
{| process := process c; requestId := requestId c; pendingRequests := pendingRequests c;
   buffer := buffer c; initialized := initialized c; workspaceRoot := workspaceRoot c;
   tempDir := tempDir c; openDocuments := v; clock := clock c;
   promises := promises c; timers := timers c; effects := effects c |}.
Definition set_clock v c :=
{| process := process c; requestId := requestId c; pendingRequests := pendingRequests c;
   buffer := buffer c; initialized := initialized c; workspaceRoot := workspaceRoot c;
   tempDir := tempDir c; openDocuments := openDocuments c; clock := v;
   promises := promises c; timers := timers c; effects := effects c |}.
Definition set_promises v c :=
{| process := process c; requestId := requestId c; pendingRequests := pendingRequests c;
   buffer := buffer c; initialized := initialized c; workspaceRoot := workspaceRoot c;
   tempDir := tempDir c; openDocuments := openDocuments c; clock := clock c;
   promises := v; timers := timers c; effects := effects c |}.
Definition set_timers v c :=
{| process := process c; requestId := requestId c; pendingRequests := pendingRequests c;
   buffer := buffer c; initialized := initialized c; workspaceRoot := workspaceRoot c;
   tempDir := tempDir c; openDocuments := openDocuments c; clock := clock c;
   promises := promises c; timers := v; effects := effects c |}.
Definition set_effects v c :=
{| process := process c; requestId := requestId c; pendingRequests := pendingRequests c;
   buffer := buffer c; initialized := initialized c; workspaceRoot := workspaceRoot c;
   tempDir := tempDir c; openDocuments := openDocuments c; clock := clock c;
   promises := promises c; timers := timers c; effects := v |}.

(** Record an effect. *)
Definition perform (e : Effect) (c : TypeScriptLSPClient) : TypeScriptLSPClient :=
set_effects (e :: effects c) c.

(** [new Promise(...)]: the number of the new promise. *)
Definition newPromise (c : TypeScriptLSPClient) : nat * TypeScriptLSPClient :=
(promises c, set_promises (S (promises c)) c).

(** [setTimeout(callback, delay)]. *)
Definition setTimeout (cb : TimerCallback) (delay : N) (c : TypeScriptLSPClient)
: TypeScriptLSPClient :=
set_timers
  (timers c ++ [{| callback := cb; deadline := clock c + delay; fired := false |}]) c.

(** The constructor (lines 130-134): the workspace root is the key up to
  its first ['#'] (code unit 35). *)
Definition new (workspaceRoot : jsstring) : TypeScriptLSPClient :=
{| process := None;
   requestId := 0;
   pendingRequests := ∅;
   buffer := [];
   initialized := false;
   workspaceRoot :=
     if includes workspaceRoot (lit "#")
     then default [] (split 35 workspaceRoot !! 0%nat)
     else workspaceRoot;
   tempDir := None;
   openDocuments := [];
   clock := 0;
   promises := 0;
   timers := [];
   effects := [] |}.

End Client.
Import Client.

(** ** Messages on the wire *)

Module Wire.

Definition CRLFCRLF : jsstring := [13; 10; 13; 10].

(** The text [sendMessage] writes (lines 456-457): the header counts the
  bytes of the UTF-8 encoding of the JSON text. *)
Definition fullMessage (message : json) : jsstring :=
let messageStr := JSON_stringify message in
lit "Content-Length: " ++ ofNumber (N.of_nat (Utf8.byteLength messageStr))
  ++ CRLFCRLF ++ messageStr.

Fixpoint takeWhile {A} (f : A -> bool) (l : list A) : list A :=
match l with
| [] => []
| x :: l' => if f x then x :: takeWhile f l' else []
end.

(** The pattern [/Content-Length: (\d+)\r\n\r\n/] tried at the start of
  [s]: the digits it captures.  [\d+] is greedy, and the character after
  the longest run of digits is not a digit, so no shorter run can be
  followed by [\r]. *)
Definition headerAt (s : jsstring) : option jsstring :=
if isPrefixOf (lit "Content-Length: ") s then
  let rest := drop 16 s in
  let digits := takeWhile isDigit rest in
  match digits with
  | [] => None
  | _ :: _ =>
      if isPrefixOf CRLFCRLF (drop (length digits) rest) then Some digits
      else None
  end
else None.

(** [buffer.match(/Content-Length: (\d+)\r\n\r\n/)]: the leftmost match,
  as its index and the captured digits; [match[0]] is the literal, the
  digits and the four line-end characters. *)
Fixpoint headerMatch (s : jsstring) {struct s} : option (nat * jsstring) :=
match headerAt s with
| Some digits => Some (0%nat, digits)
| None =>
    match s with
    | [] => None
    | _ :: s' => (fun r => (S (fst r), snd r)) <$> headerMatch s'
    end
end.

Definition matchedLength (digits : jsstring) : nat := (16 + length digits + 4)%nat.

(** The object literal of [sendRequest] (lines 463-468). *)
Definition requestMessage (id : N) (method : jsstring) (params : json) : json :=
JObj [(lit "jsonrpc", JStr (lit "2.0")); (lit "id", JNum (Z.of_N id));
      (lit "method", JStr method); (lit "params", params)].

(** The object literal of [sendNotification] (lines 485-489). *)
Definition notificationMessage (method : jsstring) (params : json) : json :=
JObj [(lit "jsonrpc", JStr (lit "2.0")); (lit "method", JStr method);
      (lit "params", params)].

End Wire.
Import Wire.

(** ** The methods of the client *)

(** How far a call of an [async] method got: it returned, it threw, or it is
    still waiting for a promise that the events so far have not settled. *)
Inductive Completion (A : Type) :=
| Returned (a : A)
| Threw (e : JsError)
| Awaiting.
Arguments Returned {A} a.
Arguments Threw {A} e.
Arguments Awaiting {A}.

(** [++this.requestId] on a JavaScript number: exact below [2^53]; at [2^53]
    the sum [2^53 + 1] is not a double and rounds back to [2^53].  From 0 the
    counter takes no other value. *)
Definition preIncrement (n : N) : N := if n <? 2 ^ 53 then n + 1 else n.

(** [sendMessage] (lines 451-459); [spawn] gives the subprocess a pipe for
    stdin, so the handle decides.  The message is recorded as written to
    the subprocess; its text is [fullMessage message]. *)
Definition sendMessage (message : json) (c : TypeScriptLSPClient)
  : JsError + TypeScriptLSPClient :=
  match process c with
  | None => inl (Error_ (lit "TypeScript Language Server not running"))
  | Some pr => inr (perform (Write pr message) c)
  end.

(** [sendRequest] (lines 461-482): the promise and the id of the request.
    When [sendMessage] throws inside the executor the promise is rejected
    with what it threw, the entry stays in the map and no timer is set. *)
Definition sendRequest (method : jsstring) (params : json) (c : TypeScriptLSPClient)
  : nat * N * TypeScriptLSPClient :=
  let id := preIncrement (requestId c) in
  let c := set_requestId id c in
  let message := requestMessage id method params in
  let '(p, c) := newPromise c in
  let c := set_pendingRequests (<[id := p]> (pendingRequests c)) c in
  match sendMessage message c with
  | inl e => (p, id, perform (Settle p (Rejected e) (clock c)) c)
  | inr c => (p, id, setTimeout (RequestTimeout id p method) 10000 c)
  end.

(** [sendNotification] (lines 484-491). *)
Definition sendNotification (method : jsstring) (params : json) (c : TypeScriptLSPClient)
  : JsError + TypeScriptLSPClient :=
  sendMessage (notificationMessage method params) c.

(** [x !== undefined]. *)
Definition defined (v : option json) : bool :=
  match v with Some _ => true | None => false end.

(** The key [message.id] stands for in [pendingRequests]: the keys of the
    map are the numbers [sendRequest] put there, and a [Map] compares keys
    without conversion, so only a number can find an entry. *)
Definition pendingKey (id : option json) : option N :=
  match id with
  | Some (JNum n) => if (0 <=? n)%Z then Some (Z.to_N n) else None
  | _ => None
  end.

(** [this.pendingRequests.get(message.id)]. *)
Definition pendingGet (id : option json) (c : TypeScriptLSPClient) : option (N * nat) :=
  match pendingKey id with
  | Some k => match pendingRequests c !! k with Some p => Some (k, p) | None => None end
  | None => None
  end.

(** [handleMessage] (lines 433-449).  Reading a property of [null] throws;
    [processBuffer] catches it. *)
Definition handleMessage (message : json) (c : TypeScriptLSPClient)
  : TypeScriptLSPClient :=
  match message with
  | JNull => c
  | _ =>
      if defined (prop "id" message)
         && (defined (prop "result" message) || defined (prop "error" message))
      then
        match pendingGet (prop "id" message) c with
        | Some (k, pending) =>
            let c := set_pendingRequests (delete k (pendingRequests c)) c in
            if truthy (prop "error" message) then
              perform
                (Settle pending
                   (Rejected (ErrorOf (prop "error" message ≫= prop "message")))
                   (clock c)) c
            else
              perform (Settle pending (Resolved (prop "result" message)) (clock c)) c
        | None => c
        end
      else if truthy (prop "method" message) then
        perform (Emit (default JNull (prop "method" message)) (prop "params" message)) c
      else c
  end.

(** The callback of a timer.  The one of [sendRequest] rejects only while the
    id is still in the map (lines 476-479). *)
Definition runCallback (cb : TimerCallback) (c : TypeScriptLSPClient)
  : TypeScriptLSPClient :=
  match cb with
  | RequestTimeout id p method =>
      match pendingRequests c !! id with
      | Some _ =>
          let c := set_pendingRequests (delete id (pendingRequests c)) c in
          perform
            (Settle p (Rejected (Error_ (lit "Request timeout: " ++ method))) (clock c)) c
      | None => c
      end
  | InitializeTimeout p =>
      perform
        (Settle p (Rejected (Error_ (lit "LSP initialize request timeout"))) (clock c)) c
  end.

(** The [k]-th timer fires: once, and not before its delay has passed. *)
Definition fireTimer (k : nat) (c : TypeScriptLSPClient) : TypeScriptLSPClient :=
  match timers c !! k with
  | Some tm =>
      if fired tm || (clock c <? deadline tm) then c
      else
        runCallback (callback tm)
          (set_timers
             (<[k := {| callback := callback tm; deadline := deadline tm; fired := true |}]>
                (timers c)) c)
  | None => c
  end.

Definition didCloseParams (uri : jsstring) : json :=
  JObj [(lit "textDocument", JObj [(lit "uri", JStr uri)])].

(** The loop of [cleanup] over the open documents (lines 505-513): an error
    of [sendNotification] is ignored. *)
Definition closeEach (uris : list jsstring) (c : TypeScriptLSPClient)
  : TypeScriptLSPClient :=
  fold_left
    (fun c uri =>
       match sendNotification (lit "textDocument/didClose") (didCloseParams uri) c with
       | inr c' => c'
       | inl _ => c
       end) uris c.

(** [cleanup] (lines 500-528).  Its [await]s wait for promises that are
    already settled, except the last one, which comes after every update of
    the object. *)
Definition cleanup (c : TypeScriptLSPClient) : TypeScriptLSPClient :=
  let c := set_initialized false c in
  let c := set_pendingRequests ∅ c in
  let c := closeEach (openDocuments c) c in
  let c := set_openDocuments [] c in
  let c :=
    match process c with
    | Some pr => set_process None (perform (Kill pr) c)
    | None => c
    end in
  match tempDir c with
  | Some dir => perform (Rm dir) c
  | None => c
  end.

(** What happens to a client between two steps of its callers. *)
Inductive Event :=
| Data (chunk : list N)                          (* 'data' on stdout (line 183) *)
| Fire (k : nat)                                 (* the k-th timer is due *)
| Tick (dt : N)                                  (* time passes *)
| Exit                                           (* 'exit' of the subprocess (line 194) *)
| Request (method : jsstring) (params : json).   (* some caller calls sendRequest *)

Section Protocol.

(** [JSON.parse]; [None] when it throws. *)
Variable JSON_parse : jsstring -> option json.

(** The loop of [processBuffer] (lines 405-430).  Every turn that does not
  leave the loop removes a header from the buffer, so the length of the
  buffer bounds the number of turns; [None] is an exhausted bound. *)
Fixpoint processBufferLoop (fuel : nat) (c : TypeScriptLSPClient)
: option TypeScriptLSPClient :=
match fuel with
| O => None
| S fuel' =>
    match headerMatch (buffer c) with
    | None => Some c
    | Some (_, digits) =>
        let contentLength := parseInt digits in
        let headerLength := matchedLength digits in
        let totalLength := N.of_nat headerLength + contentLength in
        if N.of_nat (length (buffer c)) <? totalLength then Some c
        else
          let messageStr := slice (buffer c) headerLength (N.to_nat totalLength) in
          let c := set_buffer (sliceFrom (buffer c) (N.to_nat totalLength)) c in
          let c :=
            match JSON_parse messageStr with
            | Some message => handleMessage message c
            | None => c
            end in
          processBufferLoop fuel' c
    end
end.

Definition processBuffer (c : TypeScriptLSPClient) : TypeScriptLSPClient :=
default c (processBufferLoop (S (length (buffer c))) c).

(** The handler of 'data' on stdout (lines 183-186). *)
Definition onData (chunk : list N) (c : TypeScriptLSPClient) : TypeScriptLSPClient :=
processBuffer (set_buffer (buffer c ++ Utf8.decode chunk) c).

Definition step (e : Event) (c : TypeScriptLSPClient) : TypeScriptLSPClient :=
match e with
| Data chunk => onData chunk c
| Fire k => fireTimer k c
| Tick dt => set_clock (clock c + dt) c
| Exit => cleanup c
| Request method params => snd (sendRequest method params c)
end.

Definition run (events : list Event) (c : TypeScriptLSPClient) : TypeScriptLSPClient :=
fold_left (fun c e => step e c) events c.

(** The first call of [resolve] or [reject] on one of the promises [ps]:
  what the promise, or a race of them, is settled with. *)
Fixpoint firstSettled (ps : list nat) (effs : list Effect) : option Outcome :=
match effs with
| [] => None
| e :: earlier =>
    match firstSettled ps earlier with
    | Some o => Some o
    | None =>
        match e with
        | Settle p o _ => if bool_decide (p ∈ ps) then Some o else None
        | _ => None
        end
    end
end.

(** [await]: the caller goes on as soon as one of [ps] is settled; until
  then the events happen one by one.  [None] when they run out first. *)
Fixpoint await (ps : list nat) (events : list Event) (c : TypeScriptLSPClient)
{struct events} : option Outcome * TypeScriptLSPClient :=
match firstSettled ps (effects c) with
| Some o => (Some o, c)
| None =>
    match events with
    | [] => (None, c)
    | e :: events' => await ps events' (step e c)
    end
end.

End Protocol.

(** ** Documents *)

(** What [readFile(filePath, 'utf-8')] does: the content, or the message of
    the error it throws (for a missing file, one that starts with ENOENT). *)
Inductive ReadResult :=
| Content (text : jsstring)
| ReadError (message : jsstring).

Definition documentUri (filePath : jsstring) : jsstring := lit "file://" ++ filePath.

(** [this.openDocuments.has(uri)] and [add]: a [Set] keeps insertion order
    and adds a member once. *)
Definition hasDocument (uri : jsstring) (c : TypeScriptLSPClient) : bool :=
  bool_decide (uri ∈ openDocuments c).

Definition addDocument (uri : jsstring) (c : TypeScriptLSPClient) : TypeScriptLSPClient :=
  if hasDocument uri c then c else set_openDocuments (openDocuments c ++ [uri]) c.

Definition deleteDocument (uri : jsstring) (c : TypeScriptLSPClient) : TypeScriptLSPClient :=
  set_openDocuments (filter (fun u => u ≠ uri) (openDocuments c)) c.

(** The language id of [openDocument] (lines 337-344). *)
Definition languageIdOf (filePath : jsstring) : jsstring :=
  if endsWith filePath (lit ".js") || endsWith filePath (lit ".jsx") then lit "javascript"
  else if endsWith filePath (lit ".tsx") then lit "typescriptreact"
  else if endsWith filePath (lit ".jsx") then lit "javascriptreact"
  else lit "typescript".

Definition didOpenParams (uri languageId text : jsstring) : json :=
  JObj [(lit "textDocument",
         JObj [(lit "uri", JStr uri); (lit "languageId", JStr languageId);
               (lit "version", JNum 1); (lit "text", JStr text)])].

(** [openDocument] (lines 321-360), for a call during which nothing
    happens to the client while the file is read; [openDocumentDuring]
    below is the call with what happens in that time. *)
Definition openDocument (readFile : jsstring -> ReadResult) (filePath : jsstring)
    (c : TypeScriptLSPClient) : Completion unit * TypeScriptLSPClient :=
  if negb (initialized c) then
    (Threw (Error_ (lit "TypeScript Language Server not initialized")), c)
  else
    let uri := documentUri filePath in
    if hasDocument uri c then (Returned tt, c)
    else
      let failed message :=
        Threw (Error_ (lit "Failed to open document " ++ filePath ++ lit ": " ++ message)) in
      match readFile filePath with
      | ReadError message => (failed message, c)
      | Content content =>
          let languageId := languageIdOf filePath in
          match sendNotification (lit "textDocument/didOpen")
                  (didOpenParams uri languageId content) c with
          | inl (Error_ message) => (failed message, c)
          | inl (ErrorOf _) => (failed [], c)
          | inr c => (Returned tt, addDocument uri c)
          end
      end.

(** [closeDocument] (lines 362-377). *)
Definition closeDocument (filePath : jsstring) (c : TypeScriptLSPClient)
  : Completion unit * TypeScriptLSPClient :=
  if negb (initialized c) then (Returned tt, c)
  else
    let uri := documentUri filePath in
    if negb (hasDocument uri c) then (Returned tt, c)
    else
      match sendNotification (lit "textDocument/didClose") (didCloseParams uri) c with
      | inl e => (Threw e, c)
      | inr c => (Returned tt, deleteDocument uri c)
      end.

(** [error instanceof Error && error.message.includes('ENOENT')]. *)
Definition isMissingFile (e : JsError) : bool :=
  match e with
  | Error_ message => includes message (lit "ENOENT")
  | ErrorOf _ => false
  end.

(** [ensureDocumentOpen] (lines 379-402). *)
Definition ensureDocumentOpen (readFile : jsstring -> ReadResult) (filePath : jsstring)
    (c : TypeScriptLSPClient) : Completion unit * TypeScriptLSPClient :=
  let uri := documentUri filePath in
  if hasDocument uri c then (Returned tt, c)
  else
    match openDocument readFile filePath c with
    | (Threw error, c) =>
        if isMissingFile error then
          match sendNotification (lit "textDocument/didOpen")
                  (didOpenParams uri (lit "typescript") (lit "// File not found" ++ [10])) c with
          | inl e => (Threw e, c)
          | inr c => (Returned tt, addDocument uri c)
          end
        else (Threw error, c)
    | r => r
    end.

(** ** Start and end of a session *)

(** Which of the events 'spawn' and 'error' of the subprocess comes within
    the five seconds of the startup timer (lines 160-177). *)
Inductive Startup :=
| Spawned
| SpawnError (message : jsstring)
| NoSpawnEvent.

(** What [initialize] meets outside the object. *)
Record InitEnv := {
  tempPath : jsstring;          (* join(tmpdir(), `typescript-lsp-${randomUUID()}`) *)
  mkdirError : option JsError;  (* what mkdir throws, if it does *)
  child : nat;                  (* the handle spawn returns *)
  childHasStreams : bool;       (* stdout and stderr of the handle are there *)
  startup : Startup;
  pid : Z;                      (* process.pid *)
  handshake : list Event;       (* what happens while the answer is awaited *)
}.

Definition jobj (props : list (string * json)) : json :=
  JObj (map (fun kv => (lit (fst kv), snd kv)) props).
Definition jstr (s : string) : json := JStr (lit s).
Definition noDynamicRegistration : list (string * json) :=
  [("dynamicRegistration", JBool false)]%string.

(** The parameters of the initialize request (lines 204-311). *)
Definition initializeParams (pid : Z) (workspaceRoot : jsstring) : json :=
  (jobj
     [("processId", JNum pid);
      ("clientInfo", jobj [("name", jstr "typescript-mcp"); ("version", jstr "1.0.0")]);
      ("locale", jstr "en");
      ("rootPath", JStr workspaceRoot);
      ("rootUri", JStr (lit "file://" ++ workspaceRoot));
      ("capabilities",
       jobj
         [("workspace",
           jobj [("symbol", jobj noDynamicRegistration);
                 ("didChangeConfiguration", jobj noDynamicRegistration);
                 ("executeCommand", jobj noDynamicRegistration)]);
          ("textDocument",
           jobj
             [("synchronization",
               jobj (noDynamicRegistration
                     ++ [("willSave", JBool false); ("willSaveWaitUntil", JBool false);
                         ("didSave", JBool false)]));
              ("definition", jobj (noDynamicRegistration ++ [("linkSupport", JBool true)]));
              ("typeDefinition", jobj (noDynamicRegistration ++ [("linkSupport", JBool true)]));
              ("implementation", jobj (noDynamicRegistration ++ [("linkSupport", JBool true)]));
              ("references", jobj noDynamicRegistration);
              ("hover",
               jobj (noDynamicRegistration
                     ++ [("contentFormat", JArr [jstr "markdown"; jstr "plaintext"])]));
              ("documentSymbol",
               jobj (noDynamicRegistration
                     ++ [("hierarchicalDocumentSymbolSupport", JBool true)]));
              ("completion",
               jobj (noDynamicRegistration
                     ++ [("completionItem", jobj [("snippetSupport", JBool true)])]));
              ("signatureHelp", jobj noDynamicRegistration);
              ("codeAction",
               jobj (noDynamicRegistration
                     ++ [("codeActionLiteralSupport",
                          jobj [("codeActionKind",
                                 jobj [("valueSet",
                                        JArr [jstr "source.organizeImports.ts";
                                              jstr "source.removeUnused.ts";
                                              jstr "source.addMissingImports.ts";
                                              jstr "source.fixAll.ts"])])])]));
              ("publishDiagnostics", jobj [("relatedInformation", JBool true)]);
              ("callHierarchy", jobj noDynamicRegistration);
              ("typeHierarchy", jobj noDynamicRegistration);
              ("inlayHint", jobj noDynamicRegistration)])]);
      ("initializationOptions",
       jobj
         [("preferences",
           jobj
             [("includeInlayParameterNameHints", jstr "all");
              ("includeInlayParameterNameHintsWhenArgumentMatchesName", JBool false);
              ("includeInlayFunctionParameterTypeHints", JBool true);
              ("includeInlayVariableTypeHints", JBool true);
              ("includeInlayVariableTypeHintsWhenTypeMatchesName", JBool false);
              ("includeInlayPropertyDeclarationTypeHints", JBool true);
              ("includeInlayFunctionLikeReturnTypeHints", JBool true);
              ("includeInlayEnumMemberValueHints", JBool true)]);
          ("tsserver", jobj [("logVerbosity", jstr "off")])]);
      ("workspaceFolders",
       JArr [jobj [("uri", JStr (lit "file://" ++ workspaceRoot));
                   ("name", jstr "workspace")]])])%string.

Section Lifecycle.

Variable JSON_parse : jsstring -> option json.

(** [initialize] (lines 136-319).  The timer of [initTimeout] is set
  before the one of the request, so when no answer comes it fires
  first. *)
Definition initialize (env : InitEnv) (c : TypeScriptLSPClient)
: Completion unit * TypeScriptLSPClient :=
if initialized c then (Returned tt, c)
else
  let c := set_tempDir (Some (tempPath env)) c in
  match mkdirError env with
  | Some e => (Threw e, c)
  | None =>
      let c := set_process (Some (child env)) c in
      if negb (childHasStreams env) then
        (Threw (Error_ (lit "Failed to start TypeScript Language Server")), c)
      else
        match startup env with
        | NoSpawnEvent =>
            (Threw (Error_ (lit "TypeScript Language Server startup timeout")), c)
        | SpawnError message =>
            (Threw (Error_ (lit "Failed to start TypeScript Language Server: "
                              ++ message)), c)
        | Spawned =>
            let '(initTimeout, c) := newPromise c in
            let c := setTimeout (InitializeTimeout initTimeout) 10000 c in
            let '(initRequest, _, c) :=
              sendRequest (lit "initialize")
                (initializeParams (pid env) (workspaceRoot c)) c in
            match await JSON_parse [initRequest; initTimeout] (handshake env) c with
            | (None, c) => (Awaiting, c)
            | (Some (Rejected e), c) => (Threw e, c)
            | (Some (Resolved _), c) =>
                match sendNotification (lit "initialized") (JObj []) c with
                | inl e => (Threw e, c)
                | inr c => (Returned tt, set_initialized true c)
                end
            end
        end
  end.

(** The end of [await this.cleanup()]: the [await] on [rm] (line 523) is
  the one place where [cleanup] waits for the outside, after all its
  updates of the object; [after] is what happens to the client
  meanwhile. *)
Definition awaitCleanup (after : list Event) (c : TypeScriptLSPClient)
: TypeScriptLSPClient :=
match tempDir c with
| Some _ => run JSON_parse after (cleanup c)
| None => cleanup c
end.

(** [shutdown] (lines 530-540): [during] is what happens while the answer
  to the shutdown request is awaited, [after] what happens while the
  temporary directory is removed.  Whatever the [try] block throws is
  ignored. *)
Definition shutdown (during after : list Event) (c : TypeScriptLSPClient)
: Completion unit * TypeScriptLSPClient :=
if initialized c then
  let '(p, _, c) := sendRequest (lit "shutdown") JNull c in
  match await JSON_parse [p] during c with
  | (None, c) => (Awaiting, c)
  | (Some (Rejected _), c) => (Returned tt, awaitCleanup after c)
  | (Some (Resolved _), c) =>
      match sendNotification (lit "exit") JNull c with
      | inl _ => (Returned tt, awaitCleanup after c)
      | inr c => (Returned tt, awaitCleanup after c)
      end
  end
else (Returned tt, awaitCleanup after c).

End Lifecycle.

(** ** The workspace manager *)

(** The clients created so far, a reference to a client being its position,
    and the map of [TypeScriptWorkspaceManager] (line 545) from keys to
    references. *)
Record TypeScriptWorkspaceManager := {
  objects : list TypeScriptLSPClient;
  workspaces : gmap jsstring nat;
}.

Module Manager.

Definition empty : TypeScriptWorkspaceManager :=
{| objects := []; workspaces := ∅ |}.

Section WithParser.

Variable JSON_parse : jsstring -> option json.

(** [getOrCreateWorkspace] (lines 547-557), for a call during which no
  other call on the manager is made: the client is registered as soon as
  [initialize] has returned.  The call in two halves, for calls that
  overlap, is [beginGetOrCreateWorkspace] and [endGetOrCreateWorkspace]
  below. *)
Definition getOrCreateWorkspace (env : InitEnv) (path : jsstring)
(m : TypeScriptWorkspaceManager) : Completion nat * TypeScriptWorkspaceManager :=
match workspaces m !! path with
| Some existing => (Returned existing, m)
| None =>
  let client := length (objects m) in
  match initialize JSON_parse env (Client.new path) with
  | (Returned _, c) =>
      (Returned client,
       {| objects := objects m ++ [c];
          workspaces := <[path := client]> (workspaces m) |})
  | (Threw e, c) =>
      (Threw e, {| objects := objects m ++ [c]; workspaces := workspaces m |})
  | (Awaiting, c) =>
      (Awaiting, {| objects := objects m ++ [c]; workspaces := workspaces m |})
  end
end.

(** [closeWorkspace] (lines 559-565). *)
Definition closeWorkspace (during after : list Event) (path : jsstring)
(m : TypeScriptWorkspaceManager) : Completion unit * TypeScriptWorkspaceManager :=
match workspaces m !! path with
| Some client =>
  match objects m !! client with
  | Some c =>
      match shutdown JSON_parse during after c with
      | (Returned _, c) =>
          (Returned tt,
           {| objects := <[client := c]> (objects m);
              workspaces := delete path (workspaces m) |})
      | (Threw e, c) =>
          (Threw e,
           {| objects := <[client := c]> (objects m); workspaces := workspaces m |})
      | (Awaiting, c) =>
          (Awaiting,
           {| objects := <[client := c]> (objects m); workspaces := workspaces m |})
      end
  | None => (Returned tt, m)
  end
| None => (Returned tt, m)
end.

(** The calls [client.shutdown()] of [closeAll] (line 568), one for each
registered client, each with the events of its own subprocess.  The
clients are distinct objects with separate subprocesses, so each
call is followed to its end on its own; the result tells whether all
of them returned. *)
Fixpoint shutdownEach (during after : nat -> list Event) (clients : list nat)
(objs : list TypeScriptLSPClient) : bool * list TypeScriptLSPClient :=
match clients with
| [] => (true, objs)
| client :: rest =>
  match objs !! client with
  | Some c =>
      let '(r, c) := shutdown JSON_parse (during client) (after client) c in
      let '(ok, objs) := shutdownEach during after rest (<[client := c]> objs) in
      (match r with Returned _ => ok | _ => false end, objs)
  | None => shutdownEach during after rest objs
  end
end.

(** [closeAll] (lines 567-571): the map is cleared once every shutdown
has returned. *)
Definition closeAll (during after : nat -> list Event) (m : TypeScriptWorkspaceManager)
: Completion unit * TypeScriptWorkspaceManager :=
let clients := snd <$> map_to_list (workspaces m) in
let '(ok, objs) := shutdownEach during after clients (objects m) in
if ok then (Returned tt, {| objects := objs; workspaces := ∅ |})
else (Awaiting, {| objects := objs; workspaces := workspaces m |}).

End WithParser.

End Manager.

(** ** Sample data for the examples *)

Module Sample.

(** The answer of a server to the first request of a session, and its
  answer to a second request. *)
Definition initializeResult : json :=
JObj [(lit "jsonrpc", JStr (lit "2.0")); (lit "id", JNum 1);
      (lit "result", JObj [(lit "capabilities", JObj [])])].

Definition secondResult : json :=
JObj [(lit "jsonrpc", JStr (lit "2.0")); (lit "id", JNum 2); (lit "result", JNull)].

(** A parser that knows the two texts the examples receive. *)
Definition parse (s : jsstring) : option json :=
if bool_decide (s = JSON_stringify initializeResult) then Some initializeResult
else if bool_decide (s = JSON_stringify secondResult) then Some secondResult
else None.

Definition received (message : json) : Event :=
Data (Utf8.encode (fullMessage message)).

(** A start in which everything goes well: the subprocess [pr] spawns and
  answers the initialize request after 30 ms. *)
Definition envFor (pr : nat) (temp : string) : InitEnv :=
{| tempPath := lit temp;
   mkdirError := None;
   child := pr;
   childHasStreams := true;
   startup := Spawned;
   pid := 4242;
   handshake := [Tick 30; received initializeResult] |}.

Definition env : InitEnv := envFor 7 "/tmp/typescript-lsp-0".

(** A start in which the subprocess never answers: after ten seconds the
  two timers fire. *)
Definition silentEnv : InitEnv :=
{| tempPath := lit "/tmp/typescript-lsp-9";
   mkdirError := None;
   child := 9%nat;
   childHasStreams := true;
   startup := Spawned;
   pid := 4242;
   handshake := [Tick 10000; Fire 0%nat; Fire 1%nat] |}.

(** The client for the root [root] with the subprocess [pr], as
  [initialize] leaves it in the start [envFor pr temp]. *)
Definition readyFor (pr : nat) (temp root : string) : TypeScriptLSPClient :=
{| process := Some pr;
   requestId := 1;
   pendingRequests := ∅;
   buffer := [];
   initialized := true;
   workspaceRoot := lit root;
   tempDir := Some (lit temp);
   openDocuments := [];
   clock := 30;
   promises := 2;
   timers :=
     [{| callback := InitializeTimeout 0; deadline := 10000; fired := false |};
      {| callback := RequestTimeout 1 1 (lit "initialize"); deadline := 10000;
         fired := false |}];
   effects :=
     [Write pr (notificationMessage (lit "initialized") (JObj []));
      Settle 1 (Resolved (Some (JObj [(lit "capabilities", JObj [])]))) 30;
      Write pr (requestMessage 1 (lit "initialize") (initializeParams 4242 (lit root)))] |}.

(** The client of [getWorkspaceClient] (index.ts, lines 59-63) for the
  root [/ws]. *)
Definition ready : TypeScriptLSPClient := readyFor 7 "/tmp/typescript-lsp-0" "/ws".

Definition key1 : jsstring := lit "/ws#typescript-lsp".
Definition key2 : jsstring := lit "/lib#typescript-lsp".

(** A manager with the sessions of the roots [/ws] and [/lib]. *)
Definition two : TypeScriptWorkspaceManager :=
{| objects := [ready; readyFor 8 "/tmp/typescript-lsp-1" "/lib"];
   workspaces := <[key2 := 1%nat]> (<[key1 := 0%nat]> ∅) |}.

(** While [closeAll] waits, the first subprocess answers the shutdown
  request and the second one stays silent until the timer of the request
  fires. *)
Definition closing (client : nat) : list Event :=
match client with
| O => [Tick 5; received secondResult]
| _ => [Tick 10000; Fire 2%nat]
end.

(** While the temporary directories are removed, the killed subprocesses
  exit. *)
Definition exiting (client : nat) : list Event := [Tick 1; Exit].

Definition hover : jsstring := lit "textDocument/hover".

Definition readable (text : string) : jsstring -> ReadResult :=
fun _ => Content (lit text).

Definition unreadable : jsstring -> ReadResult :=
fun _ => ReadError (lit "EACCES: permission denied").

End Sample.

(** ** Vocabulary of the properties *)

(** The calls of [resolve] and [reject] on the promise [p], latest first,
    each with its time. *)
Fixpoint settlements (p : nat) (effs : list Effect) : list (Outcome * N) :=
  match effs with
  | [] => []
  | Settle q o t :: earlier =>
      if bool_decide (q = p) then (o, t) :: settlements p earlier
      else settlements p earlier
  | _ :: earlier => settlements p earlier
  end.

(** The promise a timer rejects. *)
Definition timerPromise (tm : Timer) : nat :=
  match callback tm with
  | RequestTimeout _ p _ => p
  | InitializeTimeout p => p
  end.

(** The error of the timer of [sendRequest]. *)
Definition timeoutError (method : jsstring) : JsError :=
  Error_ (lit "Request timeout: " ++ method).

Definition isRequest (e : Event) : bool :=
  match e with Request _ _ => true | _ => false end.


(** The promises that the object and its timers refer to exist. *)
Record wellFormed (c : TypeScriptLSPClient) : Prop := {
  wf_pending : forall id p, pendingRequests c !! id = Some p -> (p < promises c)%nat;
  wf_timers : forall tm, tm ∈ timers c -> (timerPromise tm < promises c)%nat;
  wf_effects : forall p o t, Settle p o t ∈ effects c -> (p < promises c)%nat;
}.

(** Nothing can settle the promise [p] any more: no entry of the map holds
    it, and a timer that would reject it either has fired or waits for an id
    that is not in the map and will not be issued again. *)
Record abandoned (p : nat) (c : TypeScriptLSPClient) : Prop := {
  ab_exists : (p < promises c)%nat;
  ab_pending : forall id, pendingRequests c !! id <> Some p;
  ab_timers : forall tm, tm ∈ timers c -> fired tm = false -> timerPromise tm = p ->
    exists id method, callback tm = RequestTimeout id p method
      /\ pendingRequests c !! id = None /\ id <= requestId c /\ id < 2 ^ 53;
}.

(** [p] is out of reach and has been settled exactly as [s] tells. *)
Definition settledAs (p : nat) (s : list (Outcome * N)) (c : TypeScriptLSPClient) : Prop :=
  abandoned p c /\ settlements p (effects c) = s.

Definition didCloseWrites (pr : nat) (uris : list jsstring) : list Effect :=
  rev (map (fun uri => Write pr (notificationMessage (lit "textDocument/didClose")
                                   (didCloseParams uri))) uris).

(** The effects of [cleanup], latest first: the temporary directory is
    removed after the subprocess is killed, after the documents are closed. *)
Definition cleanupEffects (c : TypeScriptLSPClient) : list Effect :=
  match tempDir c with Some dir => [Rm dir] | None => [] end
  ++ match process c with
     | Some pr => Kill pr :: didCloseWrites pr (openDocuments c)
     | None => []
     end.

(** The request with promise [p], id [id], method [method] and timer [k],
    due at [d]: while its entry is in the map, nothing has settled it and
    its timer has not fired. *)
Record tracked (p : nat) (id : N) (k : nat) (method : jsstring) (d : N)
    (c : TypeScriptLSPClient) : Prop := {
  tr_exists : (p < promises c)%nat;
  tr_id : id <= requestId c;
  tr_pending : forall j, pendingRequests c !! j = Some p -> j = id;
  tr_timers : forall j tm, timers c !! j = Some tm -> timerPromise tm = p -> j = k;
  tr_live : pendingRequests c !! id = Some p ->
    settlements p (effects c) = []
    /\ timers c !! k
       = Some {| callback := RequestTimeout id p method; deadline := d; fired := false |};
}.


(** A message that [handleMessage] treats as the answer to a request (line
    434). *)
Definition isResponse (m : json) : bool :=
  defined (prop "id" m) && (defined (prop "result" m) || defined (prop "error" m)).


(** The subprocess [pr] is still held by the client or has been killed. *)
Definition kept (pr : nat) (c : TypeScriptLSPClient) : Prop :=
  process c = Some pr \/ Kill pr ∈ effects c.

(** The state of a session that has been shut down. *)
Definition closed (c : TypeScriptLSPClient) : Prop :=
  initialized c = false /\ pendingRequests c = ∅ /\ openDocuments c = []
  /\ process c = None.

(** What [cleanup] leaves of a session and nothing that happens to the
    client afterwards changes, a late request of a caller included. *)
Definition released (c : TypeScriptLSPClient) : Prop :=
  initialized c = false /\ openDocuments c = [] /\ process c = None.

(** Every registered reference names a client, and no client is registered
    under two keys. *)
Record managerOk (m : TypeScriptWorkspaceManager) : Prop := {
  ok_refs : forall key l, workspaces m !! key = Some l -> (l < length (objects m))%nat;
  ok_distinct : forall k1 k2 l,
    workspaces m !! k1 = Some l -> workspaces m !! k2 = Some l -> k1 = k2;
}.

(** The value of a sequence of digits, least significant first. *)
Fixpoint valueRev (digits : jsstring) : N :=
  match digits with
  | [] => 0
  | d :: rest => valueRev rest * 10 + (d - 48)
  end.


(** The request is still in the map, or it is out of reach and has been
    settled at most once. *)
Definition atMostOnce (p : nat) (id : N) (k : nat) (method : jsstring) (d : N)
    (c : TypeScriptLSPClient) : Prop :=
  tracked p id k method d c
  /\ (pendingRequests c !! id = Some p
      \/ exists s, settledAs p s c /\ (length s <= 1)%nat).


(** ** The functions around the client *)


(** [executeCommand] (lines 493-498). *)
Definition executeCommand (command : jsstring) (args : list json)
    (c : TypeScriptLSPClient) : nat * N * TypeScriptLSPClient :=
  sendRequest (lit "workspace/executeCommand")
    (JObj [(lit "command", JStr command); (lit "arguments", JArr args)]) c.

(** [String(value)] for a parsed value, as [new Error(value)] and a template
    literal compute it: an array is its elements joined by commas, with
    nothing for [null], and an object is [[object Object]]. *)
Fixpoint String_ofJson (v : json) : jsstring :=
  match v with
  | JNull => lit "null"
  | JBool true => lit "true"
  | JBool false => lit "false"
  | JNum n => ofInteger n
  | JStr s => s
  | JArr xs =>
      join (lit ",")
        (map (fun x => match x with JNull => [] | _ => String_ofJson x end) xs)
  | JObj _ => lit "[object Object]"
  end.

(** [error.message]: the errors of the client carry the text they were made
    with; the one of [handleMessage] (line 441) is made from
    [message.error.message], and [new Error(undefined)] has the empty
    message. *)
Definition errorMessage (e : JsError) : jsstring :=
  match e with
  | Error_ message => message
  | ErrorOf None => []
  | ErrorOf (Some v) => String_ofJson v
  end.

Section Tools.

Variable JSON_parse : jsstring -> option json.

(** [organizeImports] (lines 1112-1130): [during] is what happens while
  the answer to the command is awaited; [None] is an argument that is
  left out. *)
Definition organizeImports (readFile : jsstring -> ReadResult) (during : list Event)
  (file : jsstring) (skipDestructiveActions : option bool) (c : TypeScriptLSPClient)
: Completion jsstring * TypeScriptLSPClient :=
let failed error := Returned (lit "Failed to organize imports: " ++ errorMessage error) in
match ensureDocumentOpen readFile file c with
| (Threw error, c) => (failed error, c)
| (Awaiting, c) => (Awaiting, c)
| (Returned _, c) =>
    let args :=
      match skipDestructiveActions with
      | Some b => [JStr file; JObj [(lit "skipDestructiveCodeActions", JBool b)]]
      | None => [JStr file]
      end in
    let '(p, _, c) := executeCommand (lit "_typescript.organizeImports") args c in
    match await JSON_parse [p] during c with
    | (None, c) => (Awaiting, c)
    | (Some (Rejected error), c) => (failed error, c)
    | (Some (Resolved _), c) => (Returned (lit "Imports organized successfully"), c)
    end
end.

(** [getDiagnostics] (lines 1040-1059); a file that is left out or empty
  is no file. *)
Definition getDiagnostics (readFile : jsstring -> ReadResult) (during : list Event)
  (file : option jsstring) (c : TypeScriptLSPClient)
: Completion jsstring * TypeScriptLSPClient :=
let placeholder :=
  lit "Diagnostics collection requires notification handling (not implemented in this example)" in
match file with
| Some (u :: s) =>
    match ensureDocumentOpen readFile (u :: s) c with
    | (Threw error, c) => (Threw error, c)
    | (Awaiting, c) => (Awaiting, c)
    | (Returned _, c) =>
        let '(p, _, c) :=
          sendRequest (lit "textDocument/diagnostic")
            (JObj [(lit "textDocument", JObj [(lit "uri", JStr (lit "file://" ++ u :: s))])])
            c in
        match await JSON_parse [p] during c with
        | (None, c) => (Awaiting, c)
        | (Some (Rejected error), c) => (Threw error, c)
        | (Some (Resolved _), c) => (Returned placeholder, c)
        end
    end
| _ => (Returned placeholder, c)
end.

End Tools.

Section Suspended.

Variable JSON_parse : jsstring -> option json.

(** [openDocument] (lines 321-360) with what happens while it waits:
  between the two checks at its start and [sendNotification] the call
  waits for [import] and for [readFile] (lines 333-334), and [during] is
  what the subprocess, the timers and other callers do to the client in
  that time.  Neither check is made again afterwards.  With nothing
  happening in between this is [openDocument]. *)
Definition openDocumentDuring (readFile : jsstring -> ReadResult) (during : list Event)
  (filePath : jsstring) (c : TypeScriptLSPClient)
: Completion unit * TypeScriptLSPClient :=
if negb (initialized c) then
  (Threw (Error_ (lit "TypeScript Language Server not initialized")), c)
else
  let uri := documentUri filePath in
  if hasDocument uri c then (Returned tt, c)
  else
    let failed message :=
      Threw (Error_ (lit "Failed to open document " ++ filePath ++ lit ": " ++ message)) in
    let c := run JSON_parse during c in
    match readFile filePath with
    | ReadError message => (failed message, c)
    | Content content =>
        let languageId := languageIdOf filePath in
        match sendNotification (lit "textDocument/didOpen")
                (didOpenParams uri languageId content) c with
        | inl (Error_ message) => (failed message, c)
        | inl (ErrorOf _) => (failed [], c)
        | inr c => (Returned tt, addDocument uri c)
        end
    end.

End Suspended.

Section Overlap.

Variable JSON_parse : jsstring -> option json.

(** [getOrCreateWorkspace] up to the end of [await client.initialize()]
  (lines 548-554): the lookup and, for a key that is not in the map, the
  new client and its [initialize].  The client exists, but the map does
  not have it yet: a call that is made during this wait does not find
  it.  The result is the client found, or the new client with what
  [initialize] ended in. *)
Definition beginGetOrCreateWorkspace (env : InitEnv) (path : jsstring)
  (m : TypeScriptWorkspaceManager)
: (nat + nat * Completion unit) * TypeScriptWorkspaceManager :=
match workspaces m !! path with
| Some existing => (inl existing, m)
| None =>
    let client := length (objects m) in
    let '(r, c) := initialize JSON_parse env (Client.new path) in
    (inr (client, r), {| objects := objects m ++ [c]; workspaces := workspaces m |})
end.

(** The rest of the call (lines 555-556), on the manager as it is by
  then: [this.workspaces.set(path, client)] replaces what another call may
  have put under the key in the meantime. *)
Definition endGetOrCreateWorkspace (path : jsstring) (started : nat + nat * Completion unit)
  (m : TypeScriptWorkspaceManager) : Completion nat * TypeScriptWorkspaceManager :=
match started with
| inl existing => (Returned existing, m)
| inr (client, Returned _) =>
    (Returned client,
     {| objects := objects m; workspaces := <[path := client]> (workspaces m) |})
| inr (_, Threw e) => (Threw e, m)
| inr (_, Awaiting) => (Awaiting, m)
end.


End Overlap.

Module Format.

(** [String.prototype.replace] with a string as pattern and a replacement
  without [$]: the first occurrence is replaced. *)
Definition String_replace (s search replacement : jsstring) : jsstring :=
match indexOf s search with
| Some i => take i s ++ replacement ++ drop (i + length search) s
| None => s
end.

(** [value || fallback] for a string that may be missing. *)
Definition orElse (value : option jsstring) (fallback : jsstring) : jsstring :=
match value with
| Some (u :: s) => u :: s
| _ => fallback
end.

(** The table [SYMBOL_KINDS] (lines 629-656). *)
Definition SYMBOL_KINDS (kind : Z) : option jsstring :=
match kind with
| 1 => Some (lit "File")
| 2 => Some (lit "Module")
| 3 => Some (lit "Namespace")
| 4 => Some (lit "Package")
| 5 => Some (lit "Class")
| 6 => Some (lit "Method")
| 7 => Some (lit "Property")
| 8 => Some (lit "Field")
| 9 => Some (lit "Constructor")
| 10 => Some (lit "Enum")
| 11 => Some (lit "Interface")
| 12 => Some (lit "Function")
| 13 => Some (lit "Variable")
| 14 => Some (lit "Constant")
| 15 => Some (lit "String")
| 16 => Some (lit "Number")
| 17 => Some (lit "Boolean")
| 18 => Some (lit "Array")
| 19 => Some (lit "Object")
| 20 => Some (lit "Key")
| 21 => Some (lit "Null")
| 22 => Some (lit "EnumMember")
| 23 => Some (lit "Struct")
| 24 => Some (lit "Event")
| 25 => Some (lit "Operator")
| 26 => Some (lit "TypeParameter")
| _ => None
end%Z.

(** The table [DIAGNOSTIC_SEVERITY] (lines 659-664). *)
Definition DIAGNOSTIC_SEVERITY (severity : Z) : option jsstring :=
match severity with
| 1 => Some (lit "Error")
| 2 => Some (lit "Warning")
| 3 => Some (lit "Information")
| 4 => Some (lit "Hint")
| _ => None
end%Z.

(** The table [COMPLETION_ITEM_KINDS] (lines 667-693). *)
Definition COMPLETION_ITEM_KINDS (kind : Z) : option jsstring :=
match kind with
| 1 => Some (lit "Text")
| 2 => Some (lit "Method")
| 3 => Some (lit "Function")
| 4 => Some (lit "Constructor")
| 5 => Some (lit "Field")
| 6 => Some (lit "Variable")
| 7 => Some (lit "Class")
| 8 => Some (lit "Interface")
| 9 => Some (lit "Module")
| 10 => Some (lit "Property")
| 11 => Some (lit "Unit")
| 12 => Some (lit "Value")
| 13 => Some (lit "Enum")
| 14 => Some (lit "Keyword")
| 15 => Some (lit "Snippet")
| 16 => Some (lit "Color")
| 17 => Some (lit "File")
| 18 => Some (lit "Reference")
| 19 => Some (lit "Folder")
| 20 => Some (lit "EnumMember")
| 21 => Some (lit "Constant")
| 22 => Some (lit "Struct")
| 23 => Some (lit "Event")
| 24 => Some (lit "Operator")
| 25 => Some (lit "TypeParameter")
| _ => None
end%Z.

(** The text [`Unknown(${kind})`]: the decimal digits of the integer, as
  for every integer below [10^21]. *)
Definition unknown (kind : Z) : jsstring := lit "Unknown(" ++ ofInteger kind ++ lit ")".

(** [formatSymbolKind], [formatDiagnosticSeverity] and
  [formatCompletionItemKind] (lines 696-706), for an integer. *)
Definition formatSymbolKind (kind : Z) : jsstring :=
orElse (SYMBOL_KINDS kind) (unknown kind).

Definition formatDiagnosticSeverity (severity : Z) : jsstring :=
orElse (DIAGNOSTIC_SEVERITY severity) (unknown severity).

Definition formatCompletionItemKind (kind : Z) : jsstring :=
orElse (COMPLETION_ITEM_KINDS kind) (unknown kind).

(** The interfaces [Position], [Range] and [Location] (lines 23-36); of a
  location that comes from the server, [uri] or [range] may be missing. *)
Record Position := {
line : Z;
character : Z;
}.

Record Range := {
start : Position;
end_ : Position;
}.

Record Location := {
uri : option jsstring;
range : option Range;
}.

(** [formatLocation] (lines 708-714); [None] is a location that is [null]
  or [undefined], and an empty [uri] is as good as none.  Lines and
  characters are integers below [2^53]. *)
Definition formatLocation (location : option Location) : jsstring :=
match location with
| Some {| uri := Some (u :: s); range := Some r |} =>
    let path := String_replace (u :: s) (lit "file://") [] in
    path ++ lit ":" ++ ofInteger (line (start r) + 1)
      ++ lit ":" ++ ofInteger (character (start r) + 1)
| _ => lit "Unknown location"
end.

(** [formatRange] (lines 716-718). *)
Definition formatRange (r : Range) : jsstring :=
ofInteger (line (start r) + 1) ++ lit ":" ++ ofInteger (character (start r) + 1)
  ++ lit "-" ++ ofInteger (line (end_ r) + 1) ++ lit ":"
  ++ ofInteger (character (end_ r) + 1).

End Format.

(** ** The search for files of [findSymbol] *)

(** What [stat] and [readdir] tell about a path: the tree below a
    directory. *)
Inductive Node :=
| RegularFile
| Directory (entries : list (jsstring * Node))
| Unreadable      (* a directory of which readdir throws *)
| Other           (* neither a file nor a directory *)
| NoStat.         (* stat throws *)

Section FindTsFiles.

(** [path.join]. *)
Variable join : jsstring -> jsstring -> jsstring.

(** The entries the loop passes over (line 781). *)
Definition skipped (entry : jsstring) : bool :=
startsWith entry (lit ".")
|| bool_decide (entry = lit "node_modules")
|| bool_decide (entry = lit "dist")
|| bool_decide (entry = lit "build").

Definition isTsName (entry : jsstring) : bool :=
endsWith entry (lit ".ts") || endsWith entry (lit ".tsx").

(** The loop of [findTsFiles] over the entries of [dir] (lines 779-795);
  [recurse] is the call of [findTsFiles] for a subdirectory. *)
Fixpoint scanEntries (recurse : jsstring -> Node -> Z -> list jsstring) (dir : jsstring)
  (maxFiles : Z) (entries : list (jsstring * Node)) (files : list jsstring)
  {struct entries} : list jsstring :=
match entries with
| [] => files
| (entry, child) :: rest =>
    if (maxFiles <=? Z.of_nat (length files))%Z then files
    else if skipped entry then scanEntries recurse dir maxFiles rest files
    else
      let fullPath := join dir entry in
      match child with
      | NoStat => scanEntries recurse dir maxFiles rest files
      | RegularFile =>
          if isTsName entry
          then scanEntries recurse dir maxFiles rest (files ++ [fullPath])
          else scanEntries recurse dir maxFiles rest files
      | Directory _ | Unreadable =>
          if (Z.of_nat (length files) <? maxFiles)%Z then
            scanEntries recurse dir maxFiles rest
              (files ++ recurse fullPath child (maxFiles - Z.of_nat (length files))%Z)
          else scanEntries recurse dir maxFiles rest files
      | Other => scanEntries recurse dir maxFiles rest files
      end
end.

(** [findTsFiles] (lines 772-800): [node] is what is found at [dir];
  [readdir] throws for what is not a directory that can be read. *)
Fixpoint findTsFiles (dir : jsstring) (node : Node) (maxFiles : Z) {struct node}
: list jsstring :=
if (maxFiles <=? 0)%Z then []
else
  match node with
  | Directory entries => scanEntries findTsFiles dir maxFiles entries []
  | _ => []
  end.

End FindTsFiles.

(** ** More vocabulary *)

(** A frame as a peer writes it: the header counts the bytes of the body. *)
Definition frameOf (body : jsstring) : jsstring :=
  lit "Content-Length: " ++ ofNumber (N.of_nat (Utf8.byteLength body))
    ++ CRLFCRLF ++ body.

(** The frames of a sequence of bodies, one after the other. *)
Definition stream (bodies : list jsstring) : jsstring := concat (frameOf <$> bodies).

(** What [processBuffer] does with the text of one frame (lines 424-429):
    a text that [JSON.parse] rejects is dropped. *)
Definition deliver (JSON_parse : jsstring -> option json) (text : jsstring)
    (c : TypeScriptLSPClient) : TypeScriptLSPClient :=
  match JSON_parse text with
  | Some message => handleMessage message c
  | None => c
  end.

(** The answer of a server to the request [id]. *)
Definition response (id : N) (result : json) : json :=
  JObj [(lit "jsonrpc", JStr (lit "2.0")); (lit "id", JNum (Z.of_N id));
        (lit "result", result)].

(** The answer of a server that refuses the request [id]. *)
Definition errorResponse (id : N) (code : Z) (message : jsstring) : json :=
  JObj [(lit "jsonrpc", JStr (lit "2.0")); (lit "id", JNum (Z.of_N id));
        (lit "error", JObj [(lit "code", JNum code); (lit "message", JStr message)])].

(** What the handling of a message may do to the outside. *)
Definition isIncoming (e : Effect) : bool :=
  match e with
  | Settle _ _ _ | Emit _ _ => true
  | _ => false
  end.

(** An effect on the subprocess or on the temporary directory. *)
Definition isDestructive (e : Effect) : bool :=
  match e with
  | Kill _ | Rm _ => true
  | _ => false
  end.

Definition isExit (e : Event) : bool :=
  match e with Exit => true | _ => false end.

(** [c'] differs from [c] by settled promises and emitted notifications
    only: nothing was written, killed or removed, and the map got no new
    entry. *)
Record onlyIncoming (c c' : TypeScriptLSPClient) : Prop := {
  oi_effects : exists new,
    effects c' = new ++ effects c /\ Forall (fun e => isIncoming e = true) new;
  oi_pending : pendingRequests c' ⊆ pendingRequests c;
  oi_fields :
    process c' = process c /\ requestId c' = requestId c /\ timers c' = timers c
    /\ promises c' = promises c /\ clock c' = clock c
    /\ initialized c' = initialized c /\ openDocuments c' = openDocuments c
    /\ tempDir c' = tempDir c /\ workspaceRoot c' = workspaceRoot c;
}.

(** [c'] has the subprocess, the documents and the flags of [c], and
    nothing was killed or removed on the way from [c] to [c']. *)
Record undisturbed (c c' : TypeScriptLSPClient) : Prop := {
  un_process : process c' = process c;
  un_initialized : initialized c' = initialized c;
  un_openDocuments : openDocuments c' = openDocuments c;
  un_tempDir : tempDir c' = tempDir c;
  un_workspaceRoot : workspaceRoot c' = workspaceRoot c;
  un_effects : exists new,
    effects c' = new ++ effects c /\ Forall (fun e => isDestructive e = false) new;
}.

(** The calls that the tools and the runtime make on a client. *)
Inductive Call :=
| CallEvent (e : Event)
| CallInitialize (env : InitEnv)
| CallShutdown (during after : list Event)
| CallOpenDocument (readFile : jsstring -> ReadResult) (filePath : jsstring)
| CallCloseDocument (filePath : jsstring)
| CallEnsureDocumentOpen (readFile : jsstring -> ReadResult) (filePath : jsstring).

(** The client after a call, each call followed to its end or to the point
    where it waits for good. *)
Definition call (JSON_parse : jsstring -> option json) (k : Call)
    (c : TypeScriptLSPClient) : TypeScriptLSPClient :=
  match k with
  | CallEvent e => step JSON_parse e c
  | CallInitialize env => snd (initialize JSON_parse env c)
  | CallShutdown during after => snd (shutdown JSON_parse during after c)
  | CallOpenDocument readFile filePath => snd (openDocument readFile filePath c)
  | CallCloseDocument filePath => snd (closeDocument filePath c)
  | CallEnsureDocumentOpen readFile filePath =>
      snd (ensureDocumentOpen readFile filePath c)
  end.

(** The client for [key] after a sequence of calls. *)
Definition reached (JSON_parse : jsstring -> option json) (key : jsstring)
    (calls : list Call) : TypeScriptLSPClient :=
  fold_left (fun c k => call JSON_parse k c) calls (Client.new key).

(** What the fields of a client tell about each other: an initialized
    client has a subprocess, documents are open on an initialized client
    only, none is listed twice, and a subprocess comes with a temporary
    directory. *)
Record consistent (c : TypeScriptLSPClient) : Prop := {
  co_running : initialized c = true -> process c <> None;
  co_documents : openDocuments c <> [] -> initialized c = true;
  co_nodup : NoDup (openDocuments c);
  co_tempDir : process c <> None -> tempDir c <> None;
}.

(** The calls on the workspace manager. *)
Inductive ManagerCall :=
| GetOrCreateWorkspace (env : InitEnv) (path : jsstring)
| CloseWorkspace (during after : list Event) (path : jsstring)
| CloseAll (during after : nat -> list Event).

Definition managerCall (JSON_parse : jsstring -> option json) (k : ManagerCall)
    (m : TypeScriptWorkspaceManager) : TypeScriptWorkspaceManager :=
  match k with
  | GetOrCreateWorkspace env path =>
      snd (Manager.getOrCreateWorkspace JSON_parse env path m)
  | CloseWorkspace during after path =>
      snd (Manager.closeWorkspace JSON_parse during after path m)
  | CloseAll during after => snd (Manager.closeAll JSON_parse during after m)
  end.

(** A file with a TypeScript name that [findTsFiles] can reach from [dir]:
    no directory on the way to it, and not the file itself, is passed
    over. *)
Inductive tsFileIn (join : jsstring -> jsstring -> jsstring)
  : jsstring -> Node -> jsstring -> Prop :=
| tsFile_here dir entries entry :
    (entry, RegularFile) ∈ entries -> skipped entry = false ->
    isTsName entry = true ->
    tsFileIn join dir (Directory entries) (join dir entry)
| tsFile_below dir entries entry child path :
    (entry, child) ∈ entries -> skipped entry = false ->
    tsFileIn join (join dir entry) child path ->
    tsFileIn join dir (Directory entries) path.

(** * Properties *)

(** ** Strings *)

Lemma includes_hash (s : jsstring) : includes s (lit "#") = true <-> 35 ∈ s.
Proof.
  unfold includes. change (lit "#") with [35].
  induction s as [|c s IH]; cbn [indexOf isPrefixOf].
  - split; [discriminate | intros H; inversion H].
  - destruct (N.eqb_spec 35 c) as [->|Hne]; cbn [andb].
    + split; [intros _; left | reflexivity].
    + destruct (indexOf s [35]) eqn:E; cbn.
      * split; [intros _; right; apply IH; reflexivity | reflexivity].
      * split; [discriminate|].
        intros H. apply IH. inversion H; subst; [congruence | assumption].
Qed.

Lemma includes_hash_false (s : jsstring) : 35 ∉ s -> includes s (lit "#") = false.
Proof.
  intros H. destruct (includes s (lit "#")) eqn:E; [|reflexivity].
  exfalso. apply H, includes_hash, E.
Qed.

Lemma split_first_segment (root rest : jsstring) :
  35 ∉ root -> split 35 (root ++ 35 :: rest) !! 0%nat = Some root.
Proof.
  induction root as [|c root IH]; intros H.
  - reflexivity.
  - cbn [app split].
    destruct (N.eqb_spec c 35) as [->|Hne].
    + exfalso. apply H. left.
    + assert (Hr : 35 ∉ root) by (intros Hin; apply H; right; exact Hin).
      specialize (IH Hr).
      destruct (split 35 (root ++ 35 :: rest)) as [|seg segs]; [discriminate|].
      cbn in IH |- *. congruence.
Qed.

(** Every key either has no ['#'] or is a part without ['#'], a ['#'] and a
    rest. *)
Lemma key_decomposition (key : jsstring) :
  35 ∉ key \/ exists root rest, key = root ++ 35 :: rest /\ 35 ∉ root.
Proof.
  induction key as [|c key IH].
  - left. intros H. inversion H.
  - destruct (N.eqb_spec c 35) as [->|Hne].
    + right. exists [], key. split; [reflexivity | intros H; inversion H].
    + destruct IH as [IH | (root & rest & -> & Hr)].
      * left. intros H. inversion H; subst; [congruence | contradiction].
      * right. exists (c :: root), rest. split; [reflexivity|].
        intros H. inversion H; subst; [congruence | contradiction].
Qed.

(** ** The constructor *)

(** C10. The constructor truncates the key at its first ['#']: a key
    [root ++ "#" ++ rest] whose [root] has no ['#'] gives the workspace root
    [root], whatever [rest] is, so a path that contains a ['#'] loses
    everything from it on, and two keys with the same part before the first
    ['#'] give the same root; a key without ['#'] is kept whole. *)
Theorem constructor_truncates_at_first_hash (root rest1 rest2 : jsstring) :
  35 ∉ root ->
  workspaceRoot (Client.new root) = root
  /\ workspaceRoot (Client.new (root ++ lit "#" ++ rest1)) = root
  /\ workspaceRoot (Client.new (root ++ lit "#" ++ rest1))
     = workspaceRoot (Client.new (root ++ lit "#" ++ rest2)).
Proof.
  intros H.
  assert (Hcut : forall rest, workspaceRoot (Client.new (root ++ lit "#" ++ rest)) = root).
  { intros rest. change (lit "#" ++ rest) with (35 :: rest). cbn [Client.new workspaceRoot].
    assert (Hin : includes (root ++ 35 :: rest) (lit "#") = true).
    { apply includes_hash. apply elem_of_app. right. left. }
    rewrite Hin, split_first_segment by exact H. reflexivity. }
  repeat split.
  - cbn [Client.new workspaceRoot]. rewrite includes_hash_false by exact H. reflexivity.
  - apply Hcut.
  - rewrite !Hcut. reflexivity.
Qed.

(** The key of [getWorkspaceClient] for the path [/a#b]: the session is
    rooted at [/a], as is the session of the path [/a]. *)
Lemma constructor_truncates_at_first_hash_witness :
  (35 ∉ lit "/a")
  /\ workspaceRoot (Client.new (lit "/a#b#typescript-lsp")) = lit "/a"
  /\ workspaceRoot (Client.new (lit "/a#b#typescript-lsp"))
     = workspaceRoot (Client.new (lit "/a#typescript-lsp")).
Proof.
  assert (H : 35 ∉ lit "/a").
  { vm_compute. intros H.
    repeat (apply elem_of_cons in H as [H | H]; [discriminate H|]). inversion H. }
  split; [exact H|].
  pose proof (constructor_truncates_at_first_hash (lit "/a") (lit "b#typescript-lsp")
                (lit "typescript-lsp") H) as (_ & H1 & H2).
  split; [exact H1 | exact H2].
Defined.

(** ** The language id of a document *)

Lemma endsWith_jsx_not_js (filePath : jsstring) :
  endsWith filePath (lit ".jsx") = true -> endsWith filePath (lit ".js") = false.
Proof.
  unfold endsWith. change (length (lit ".jsx")) with 4%nat.
  change (length (lit ".js")) with 3%nat.
  destruct (Nat.ltb_spec (length filePath) 4) as [|H4]; [discriminate|].
  destruct (Nat.ltb_spec (length filePath) 3) as [|H3]; [reflexivity|].
  intros H. apply bool_decide_eq_true in H. apply bool_decide_eq_false. intros H'.
  assert (E : drop (length filePath - 3) filePath
              = drop 1 (drop (length filePath - 4) filePath)).
  { rewrite drop_drop. f_equal. lia. }
  rewrite E, H in H'. discriminate H'.
Qed.

(** The branch for ['javascriptreact'] (lines 342-343) is never taken: the
    first test already accepts every path that ends in [.jsx]. *)
Lemma languageIdOf_never_javascriptreact (filePath : jsstring) :
  languageIdOf filePath <> lit "javascriptreact".
Proof.
  unfold languageIdOf.
  destruct (endsWith filePath (lit ".js")); cbn [orb]; [discriminate|].
  destruct (endsWith filePath (lit ".jsx")); [discriminate|].
  destruct (endsWith filePath (lit ".tsx")); discriminate.
Qed.

Lemma languageIdOf_jsx (filePath : jsstring) :
  endsWith filePath (lit ".jsx") = true -> languageIdOf filePath = lit "javascript".
Proof.
  intros H. unfold languageIdOf. rewrite H, orb_true_r. reflexivity.
Qed.

(** C3. On the file [/ws/App.jsx] the open notification of [openDocument]
    carries the language id ['javascript'], not ['javascriptreact']; the other
    three categories are as the claim has them. *)
Theorem openDocument_jsx_is_javascript :
  let r := openDocument (Sample.readable "<b/>") (lit "/ws/App.jsx") Sample.ready in
  fst r = Returned tt
  /\ effects (snd r)
     = Write 7 (notificationMessage (lit "textDocument/didOpen")
                  (didOpenParams (lit "file:///ws/App.jsx") (lit "javascript") (lit "<b/>")))
       :: effects Sample.ready
  /\ languageIdOf (lit "/ws/App.jsx") <> lit "javascriptreact"
  /\ languageIdOf (lit "/ws/app.js") = lit "javascript"
  /\ languageIdOf (lit "/ws/App.tsx") = lit "typescriptreact"
  /\ languageIdOf (lit "/ws/app.ts") = lit "typescript".
Proof.
  cbv zeta. repeat split; try (vm_compute; reflexivity).
  apply languageIdOf_never_javascriptreact.
Qed.

(** ** The framer terminates and touches only what [handleMessage] touches *)

Lemma handleMessage_buffer (m : json) (c : TypeScriptLSPClient) :
  buffer (handleMessage m c) = buffer c.
Proof.
  unfold handleMessage.
  destruct m; try reflexivity;
    repeat match goal with
           | |- context [if ?b then _ else _] => destruct b
           | |- context [match ?x with _ => _ end] => destruct x
           end; reflexivity.
Qed.

Section Framer.

Variable JSON_parse : jsstring -> option json.

Lemma processBufferLoop_terminates (fuel : nat) (c : TypeScriptLSPClient) :
(length (buffer c) < fuel)%nat -> is_Some (processBufferLoop JSON_parse fuel c).
Proof.
revert c. induction fuel as [|fuel IH]; intros c Hlen; [lia|].
cbn [processBufferLoop].
destruct (headerMatch (buffer c)) as [[i digits]|]; [|eexists; reflexivity].
destruct (N.ltb_spec (N.of_nat (length (buffer c)))
            (N.of_nat (matchedLength digits) + parseInt digits)) as [|Hge];
  [eexists; reflexivity|].
apply IH.
assert (Hb : forall c', buffer
  match JSON_parse (slice (buffer c) (matchedLength digits)
      (N.to_nat (N.of_nat (matchedLength digits) + parseInt digits))) with
  | Some message => handleMessage message c'
  | None => c'
  end = buffer c').
{ intros c'. destruct (JSON_parse _); [apply handleMessage_buffer | reflexivity]. }
rewrite Hb. cbn [set_buffer buffer]. unfold sliceFrom. rewrite length_drop.
unfold matchedLength in *. lia.
Qed.

Lemma processBuffer_loop (c : TypeScriptLSPClient) :
processBufferLoop JSON_parse (S (length (buffer c))) c = Some (processBuffer JSON_parse c).
Proof.
unfold processBuffer.
destruct (processBufferLoop_terminates (S (length (buffer c))) c) as [c' ->]; [lia|].
reflexivity.
Qed.

(** Whatever [set_buffer] and [handleMessage] preserve, the framer
  preserves. *)
Lemma processBuffer_preserves (P : TypeScriptLSPClient -> Prop) :
(forall b c, P c -> P (set_buffer b c)) ->
(forall m c, P c -> P (handleMessage m c)) ->
forall c, P c -> P (processBuffer JSON_parse c).
Proof.
intros Hb Hm c Hc.
pose proof (processBuffer_loop c) as E. revert E.
generalize (processBuffer JSON_parse c) as c'.
generalize (S (length (buffer c))) as fuel. intros fuel. revert c Hc.
induction fuel as [|fuel IH]; intros c Hc c' E; [discriminate|].
cbn [processBufferLoop] in E.
destruct (headerMatch (buffer c)) as [[i digits]|]; [|congruence].
destruct (N.of_nat (length (buffer c)) <? _); [congruence|].
eapply IH; [|exact E].
destruct (JSON_parse _); [apply Hm|]; apply Hb, Hc.
Qed.

Lemma onData_preserves (P : TypeScriptLSPClient -> Prop) :
(forall b c, P c -> P (set_buffer b c)) ->
(forall m c, P c -> P (handleMessage m c)) ->
forall chunk c, P c -> P (onData JSON_parse chunk c).
Proof.
intros Hb Hm chunk c Hc. unfold onData.
apply processBuffer_preserves; auto.
Qed.

End Framer.

(** ** A promise that nothing holds is never settled *)

Lemma preIncrement_fresh (id r : N) : id <= r -> id < 2 ^ 53 -> preIncrement r <> id.
Proof.
  intros H1 H2. unfold preIncrement.
  destruct (N.ltb_spec r (2 ^ 53)); lia.
Qed.

Lemma preIncrement_le (r : N) : r <= preIncrement r.
Proof. unfold preIncrement. destruct (N.ltb_spec r (2 ^ 53)); lia. Qed.

Lemma settledAs_set_buffer p s b c : settledAs p s c -> settledAs p s (set_buffer b c).
Proof. intros [[H1 H2 H3] H4]. split; [split|]; assumption. Qed.

Lemma settledAs_set_clock p s t c : settledAs p s c -> settledAs p s (set_clock t c).
Proof. intros [[H1 H2 H3] H4]. split; [split|]; assumption. Qed.

(** The three things [handleMessage] can do. *)
Lemma handleMessage_cases (m : json) (c : TypeScriptLSPClient) :
  handleMessage m c = c
  \/ (exists ev ps, handleMessage m c = perform (Emit ev ps) c)
  \/ (exists k q o,
        pendingKey (prop "id" m) = Some k /\ pendingRequests c !! k = Some q
        /\ handleMessage m c
           = perform (Settle q o (clock c))
               (set_pendingRequests (delete k (pendingRequests c)) c)).
Proof.
  assert (G : forall c' : TypeScriptLSPClient,
    (if defined (prop "id" m)
        && (defined (prop "result" m) || defined (prop "error" m))
     then
       match pendingGet (prop "id" m) c with
       | Some (k, pending) =>
           let c := set_pendingRequests (delete k (pendingRequests c)) c in
           if truthy (prop "error" m) then
             perform
               (Settle pending (Rejected (ErrorOf (prop "error" m ≫= prop "message")))
                  (clock c)) c
           else perform (Settle pending (Resolved (prop "result" m)) (clock c)) c
       | None => c
       end
     else if truthy (prop "method" m) then
       perform (Emit (default JNull (prop "method" m)) (prop "params" m)) c
     else c) = c' ->
    c' = c
    \/ (exists ev ps, c' = perform (Emit ev ps) c)
    \/ (exists k q o,
          pendingKey (prop "id" m) = Some k /\ pendingRequests c !! k = Some q
          /\ c' = perform (Settle q o (clock c))
                    (set_pendingRequests (delete k (pendingRequests c)) c))).
  { intros c' <-.
    destruct (_ && _).
    - unfold pendingGet. destruct (pendingKey (prop "id" m)) as [k|]; [|left; reflexivity].
      destruct (pendingRequests c !! k) as [q|] eqn:Ek; [|left; reflexivity].
      right; right. cbv zeta.
      destruct (truthy (prop "error" m)); eexists k, q, _;
        (split; [reflexivity | split; [exact Ek | reflexivity]]).
    - destruct (truthy (prop "method" m)); [|left; reflexivity].
      right; left. eexists _, _. reflexivity. }
  destruct m; try (left; reflexivity); apply G; reflexivity.
Qed.

Lemma settledAs_handleMessage p s m c :
  settledAs p s c -> settledAs p s (handleMessage m c).
Proof.
  intros [[H1 H2 H3] H4].
  destruct (handleMessage_cases m c) as [-> | [(ev & ps & ->) | (k & q & o & _ & Ek & ->)]].
  - split; [split|]; assumption.
  - split; [split|]; assumption.
  - assert (Hq : q <> p) by (intros ->; exact (H2 k Ek)).
    split; [split|]; cbn.
    + exact H1.
    + intros id Hid. apply lookup_delete_Some in Hid as [_ Hid]. exact (H2 id Hid).
    + intros tm Hin Hf Hp. destruct (H3 tm Hin Hf Hp) as (id & method & E1 & E2 & E3 & E4).
      exists id, method. repeat split; try assumption.
      apply lookup_delete_None. right. exact E2.
    + rewrite bool_decide_eq_false_2 by exact Hq. exact H4.
Qed.

Lemma settledAs_fireTimer p s k c : settledAs p s c -> settledAs p s (fireTimer k c).
Proof.
  intros [[H1 H2 H3] H4]. unfold fireTimer.
  destruct (timers c !! k) as [tm|] eqn:Ek; [|split; [split|]; assumption].
  destruct (fired tm) eqn:Ef; cbn [orb]; [split; [split|]; assumption|].
  destruct (clock c <? deadline tm); [split; [split|]; assumption|].
  assert (Hin : tm ∈ timers c) by (eapply list_elem_of_lookup_2; exact Ek).
  set (tm' := {| callback := callback tm; deadline := deadline tm; fired := true |}).
  assert (Hins : forall tm0, tm0 ∈ <[k := tm']> (timers c) -> fired tm0 = false ->
                             tm0 ∈ timers c).
  { intros tm0 H0 Hf0. apply list_elem_of_lookup in H0 as [j Hj].
    destruct (decide (j = k)) as [->|Hne].
    - rewrite list_lookup_insert_eq in Hj by (eapply lookup_lt_Some; exact Ek).
      injection Hj as <-. discriminate Hf0.
    - rewrite list_lookup_insert_ne in Hj by congruence.
      eapply list_elem_of_lookup_2; exact Hj. }
  unfold runCallback. destruct (callback tm) as [id q method|q] eqn:Ecb.
  - cbn [set_timers pendingRequests].
    destruct (pendingRequests c !! id) as [q'|] eqn:Eid.
    + assert (Hq : q <> p).
      { intros ->. destruct (H3 tm Hin Ef) as (id' & m' & E1 & E2 & _).
        - unfold timerPromise. rewrite Ecb. reflexivity.
        - rewrite Ecb in E1. injection E1 as -> ->. congruence. }
      split; [split|]; cbn.
      * exact H1.
      * intros i Hi. apply lookup_delete_Some in Hi as [_ Hi]. exact (H2 i Hi).
      * intros tm0 H0 Hf0 Hp0.
        destruct (H3 tm0 (Hins tm0 H0 Hf0) Hf0 Hp0) as (i & m & E1 & E2 & E3 & E4).
        exists i, m. repeat split; try assumption.
        apply lookup_delete_None. right. exact E2.
      * rewrite bool_decide_eq_false_2 by exact Hq. exact H4.
    + split; [split|]; cbn; try assumption.
      intros tm0 H0 Hf0 Hp0. exact (H3 tm0 (Hins tm0 H0 Hf0) Hf0 Hp0).
  - assert (Hq : q <> p).
    { intros ->. destruct (H3 tm Hin Ef) as (id' & m' & E1 & _).
      - unfold timerPromise. rewrite Ecb. reflexivity.
      - rewrite Ecb in E1. discriminate E1. }
    split; [split|]; cbn; try assumption.
    + intros tm0 H0 Hf0 Hp0. exact (H3 tm0 (Hins tm0 H0 Hf0) Hf0 Hp0).
    + rewrite bool_decide_eq_false_2 by exact Hq. exact H4.
Qed.

(** ** What [cleanup] does *)

Lemma closeEach_spec (uris : list jsstring) (c : TypeScriptLSPClient) :
  closeEach uris c
  = match process c with
    | Some pr => set_effects (didCloseWrites pr uris ++ effects c) c
    | None => c
    end.
Proof.
  unfold closeEach, didCloseWrites. revert c.
  induction uris as [|uri uris IH]; intros c; cbn [fold_left].
  - destruct c as [[pr|] ? ? ? ? ? ? ? ? ? ? ?]; reflexivity.
  - rewrite IH. unfold sendNotification, sendMessage.
    destruct (process c) as [pr|] eqn:E; cbn; rewrite E; [|reflexivity].
    unfold set_effects; cbn. rewrite <- app_assoc. reflexivity.
Qed.

Lemma settlements_app (p : nat) (l1 l2 : list Effect) :
  settlements p (l1 ++ l2) = settlements p l1 ++ settlements p l2.
Proof.
  induction l1 as [|e l1 IH]; [reflexivity|].
  destruct e; cbn; try exact IH.
  destruct (bool_decide _); cbn; rewrite IH; reflexivity.
Qed.

Lemma settlements_didCloseWrites (p pr : nat) (uris : list jsstring) :
  settlements p (didCloseWrites pr uris) = [].
Proof.
  unfold didCloseWrites. induction uris as [|u uris IH]; [reflexivity|].
  cbn [map rev]. rewrite settlements_app, IH. reflexivity.
Qed.

Lemma cleanup_spec (c : TypeScriptLSPClient) :
  cleanup c
  = {| process := None; requestId := requestId c; pendingRequests := ∅;
       buffer := buffer c; initialized := false; workspaceRoot := workspaceRoot c;
       tempDir := tempDir c; openDocuments := []; clock := clock c;
       promises := promises c; timers := timers c;
       effects := cleanupEffects c ++ effects c |}.
Proof.
  unfold cleanup, cleanupEffects. rewrite closeEach_spec.
  destruct c as [[pr|] ? ? ? ? ? [dir|] ? ? ? ? ?]; reflexivity.
Qed.

(** The state [cleanup] leaves: the session is closed, whatever it was. *)
Lemma cleanup_closed (c : TypeScriptLSPClient) :
  initialized (cleanup c) = false
  /\ pendingRequests (cleanup c) = ∅
  /\ openDocuments (cleanup c) = []
  /\ process (cleanup c) = None.
Proof. rewrite cleanup_spec. repeat split; reflexivity. Qed.

Lemma cleanup_kept (c : TypeScriptLSPClient) :
  requestId (cleanup c) = requestId c
  /\ promises (cleanup c) = promises c
  /\ timers (cleanup c) = timers c
  /\ clock (cleanup c) = clock c
  /\ buffer (cleanup c) = buffer c
  /\ tempDir (cleanup c) = tempDir c
  /\ workspaceRoot (cleanup c) = workspaceRoot c.
Proof. rewrite cleanup_spec. repeat split; reflexivity. Qed.

Lemma cleanup_settlements (p : nat) (c : TypeScriptLSPClient) :
  settlements p (effects (cleanup c)) = settlements p (effects c).
Proof.
  rewrite cleanup_spec. cbn [effects]. unfold cleanupEffects.
  rewrite !settlements_app.
  destruct (process c) as [pr|], (tempDir c); cbn [settlements app];
    rewrite ?settlements_didCloseWrites; reflexivity.
Qed.

(** The subprocess the client held is killed. *)
Lemma cleanup_kills (c : TypeScriptLSPClient) (pr : nat) :
  process c = Some pr -> Kill pr ∈ effects (cleanup c).
Proof.
  intros E. rewrite cleanup_spec. cbn [effects]. unfold cleanupEffects. rewrite E.
  apply elem_of_app. left. apply elem_of_app. right. left.
Qed.

Lemma cleanup_effects_kept (c : TypeScriptLSPClient) (e : Effect) :
  e ∈ effects c -> e ∈ effects (cleanup c).
Proof.
  intros H. rewrite cleanup_spec. cbn [effects]. apply elem_of_app. right. exact H.
Qed.

Lemma settledAs_cleanup p s c : settledAs p s c -> settledAs p s (cleanup c).
Proof.
  intros [[H1 H2 H3] H4].
  destruct (cleanup_closed c) as (_ & Ep & _).
  destruct (cleanup_kept c) as (Er & Epr & Et & _).
  split; [split|].
  - rewrite Epr. exact H1.
  - intros id. rewrite Ep, lookup_empty. discriminate.
  - rewrite Et, Er, Ep. intros tm Hin Hf Hp.
    destruct (H3 tm Hin Hf Hp) as (id & m & E1 & E2 & E3 & E4).
    exists id, m. repeat split; try assumption; try apply lookup_empty.
  - rewrite cleanup_settlements. exact H4.
Qed.

(** ** What [sendRequest] does *)

Lemma sendRequest_spec (method : jsstring) (params : json) (c : TypeScriptLSPClient) :
  let id := preIncrement (requestId c) in
  let p := promises c in
  let c1 :=
    set_pendingRequests (<[id := p]> (pendingRequests c))
      (set_promises (S p) (set_requestId id c)) in
  sendRequest method params c
  = (p, id,
     match process c with
     | Some pr =>
         setTimeout (RequestTimeout id p method) 10000
           (perform (Write pr (requestMessage id method params)) c1)
     | None =>
         perform
           (Settle p (Rejected (Error_ (lit "TypeScript Language Server not running")))
              (clock c)) c1
     end).
Proof.
  cbv zeta. unfold sendRequest, newPromise, sendMessage. cbn.
  destruct (process c); reflexivity.
Qed.

Lemma settledAs_sendRequest p s method params c :
  settledAs p s c -> settledAs p s (snd (sendRequest method params c)).
Proof.
  intros [[H1 H2 H3] H4]. rewrite sendRequest_spec. cbn [snd].
  assert (Hp : promises c <> p) by lia.
  assert (Hold : forall tm, tm ∈ timers c -> fired tm = false -> timerPromise tm = p ->
    exists id method0, callback tm = RequestTimeout id p method0
      /\ <[preIncrement (requestId c) := promises c]> (pendingRequests c) !! id = None
      /\ id <= preIncrement (requestId c) /\ id < 2 ^ 53).
  { intros tm Hin Hf Hpr. destruct (H3 tm Hin Hf Hpr) as (id & m & E1 & E2 & E3 & E4).
    exists id, m. repeat split; try assumption.
    - rewrite lookup_insert_ne; [exact E2 | apply preIncrement_fresh; assumption].
    - pose proof (preIncrement_le (requestId c)). lia. }
  assert (Hpend : forall id,
    <[preIncrement (requestId c) := promises c]> (pendingRequests c) !! id <> Some p).
  { intros id Hid. apply lookup_insert_Some in Hid as [[_ Hid] | [_ Hid]];
      [congruence | exact (H2 id Hid)]. }
  destruct (process c) as [pr|]; (split; [split|]); cbn.
  - lia.
  - exact Hpend.
  - intros tm Hin Hf Hpr. apply elem_of_app in Hin as [Hin | Hin].
    + exact (Hold tm Hin Hf Hpr).
    + apply list_elem_of_singleton in Hin. subst tm. cbn in Hpr. congruence.
  - exact H4.
  - lia.
  - exact Hpend.
  - exact Hold.
  - rewrite bool_decide_eq_false_2 by exact Hp. exact H4.
Qed.

Section Runs.

Variable JSON_parse : jsstring -> option json.

Lemma settledAs_step p s e c : settledAs p s c -> settledAs p s (step JSON_parse e c).
Proof.
intros H. destruct e as [chunk|k|dt| |method params]; cbn [step].
- apply onData_preserves; [apply settledAs_set_buffer | apply settledAs_handleMessage | exact H].
- apply settledAs_fireTimer, H.
- apply settledAs_set_clock, H.
- apply settledAs_cleanup, H.
- apply settledAs_sendRequest, H.
Qed.

(** Once nothing holds a promise, no sequence of events settles it. *)
Lemma settledAs_run p s events c :
settledAs p s c -> settledAs p s (run JSON_parse events c).
Proof.
revert c. induction events as [|e events IH]; intros c H; [exact H|].
cbn [run fold_left]. apply IH, settledAs_step, H.
Qed.

End Runs.

(** ** A request from its call to its timeout *)

Lemma tracked_set_buffer p id k method d b c :
  tracked p id k method d c -> tracked p id k method d (set_buffer b c).
Proof. intros [H1 H0 H2 H3 H4]. split; assumption. Qed.

Lemma tracked_set_clock p id k method d t c :
  tracked p id k method d c -> tracked p id k method d (set_clock t c).
Proof. intros [H1 H0 H2 H3 H4]. split; assumption. Qed.

Lemma tracked_handleMessage p id k method d m c :
  tracked p id k method d c -> tracked p id k method d (handleMessage m c).
Proof.
  intros [H1 H0 H2 H3 H4].
  destruct (handleMessage_cases m c) as [-> | [(ev & ps & ->) | (j & q & o & _ & Ej & ->)]].
  - split; assumption.
  - split; assumption.
  - split; cbn.
    + exact H1.
    + exact H0.
    + intros i Hi. apply lookup_delete_Some in Hi as [_ Hi]. exact (H2 i Hi).
    + exact H3.
    + intros Hid. apply lookup_delete_Some in Hid as [Hne Hid].
      assert (Hq : q <> p) by (intros ->; apply Hne; exact (H2 j Ej)).
      rewrite bool_decide_eq_false_2 by exact Hq. exact (H4 Hid).
Qed.

Lemma tracked_fireTimer p id k method d j c :
  tracked p id k method d c -> tracked p id k method d (fireTimer j c).
Proof.
  intros [H1 H0 H2 H3 H4]. unfold fireTimer.
  destruct (timers c !! j) as [tm|] eqn:Ej; [|split; assumption].
  destruct (fired tm) eqn:Ef; cbn [orb]; [split; assumption|].
  destruct (clock c <? deadline tm); [split; assumption|].
  set (tm' := {| callback := callback tm; deadline := deadline tm; fired := true |}).
  assert (Hlt : (j < length (timers c))%nat) by (eapply lookup_lt_Some; exact Ej).
  assert (Hprom : forall i t, <[j := tm']> (timers c) !! i = Some t -> timerPromise t = p ->
                              i = k).
  { intros i t Hi Hp. destruct (decide (i = j)) as [->|Hne].
    - rewrite list_lookup_insert_eq in Hi by exact Hlt. injection Hi as <-.
      exact (H3 j tm Ej Hp).
    - rewrite list_lookup_insert_ne in Hi by congruence. exact (H3 i t Hi Hp). }
  unfold runCallback. destruct (callback tm) as [i q m|q] eqn:Ecb.
  - cbn [set_timers pendingRequests].
    destruct (pendingRequests c !! i) as [q'|] eqn:Ei.
    + split; cbn.
      * exact H1.
      * exact H0.
      * intros i' Hi'. apply lookup_delete_Some in Hi' as [_ Hi']. exact (H2 i' Hi').
      * exact Hprom.
      * intros Hid. apply lookup_delete_Some in Hid as [Hne Hid].
        destruct (H4 Hid) as [Hs Hk].
        assert (Hjk : j <> k).
        { intros ->. rewrite Ej in Hk. injection Hk as ->. cbn in Ecb.
          injection Ecb as -> _ _. congruence. }
        assert (Hq : q <> p).
        { intros ->. apply Hjk. apply (H3 j tm Ej). unfold timerPromise.
          rewrite Ecb. reflexivity. }
        rewrite bool_decide_eq_false_2 by exact Hq. split; [exact Hs|].
        rewrite list_lookup_insert_ne by exact Hjk. exact Hk.
    + split; cbn; try assumption.
      intros Hid. destruct (H4 Hid) as [Hs Hk]. split; [exact Hs|].
      assert (Hjk : j <> k).
      { intros ->. rewrite Ej in Hk. injection Hk as ->. cbn in Ecb.
        injection Ecb as -> _ _. congruence. }
      rewrite list_lookup_insert_ne by exact Hjk. exact Hk.
  - split; cbn; try assumption.
    intros Hid. destruct (H4 Hid) as [Hs Hk].
    assert (Hjk : j <> k).
    { intros ->. rewrite Ej in Hk. injection Hk as ->. cbn in Ecb. discriminate Ecb. }
    assert (Hq : q <> p).
    { intros ->. apply Hjk. apply (H3 j tm Ej). unfold timerPromise.
      rewrite Ecb. reflexivity. }
    rewrite bool_decide_eq_false_2 by exact Hq. split; [exact Hs|].
    rewrite list_lookup_insert_ne by exact Hjk. exact Hk.
Qed.

Lemma tracked_cleanup p id k method d c :
  tracked p id k method d c -> tracked p id k method d (cleanup c).
Proof.
  intros [H1 H0 H2 H3 H4]. rewrite cleanup_spec. split; cbn.
  - exact H1.
  - exact H0.
  - intros j Hj. rewrite lookup_empty in Hj. discriminate Hj.
  - exact H3.
  - intros Hid. rewrite lookup_empty in Hid. discriminate Hid.
Qed.

Lemma tracked_sendRequest p id k method d method' params c :
  tracked p id k method d c ->
  tracked p id k method d (snd (sendRequest method' params c)).
Proof.
  intros [H1 H0 H2 H3 H4]. rewrite sendRequest_spec. cbn [snd].
  assert (Hp : promises c <> p) by lia.
  assert (Hpend : forall j,
    <[preIncrement (requestId c) := promises c]> (pendingRequests c) !! j = Some p ->
    pendingRequests c !! j = Some p).
  { intros j Hj. apply lookup_insert_Some in Hj as [[_ Hj] | [_ Hj]]; [congruence | exact Hj]. }
  pose proof (preIncrement_le (requestId c)) as Hle.
  destruct (process c) as [pr|]; split; cbn.
  - lia.
  - lia.
  - intros j Hj. exact (H2 j (Hpend j Hj)).
  - intros j tm Hj Hpr. apply lookup_app_Some in Hj as [Hj | [_ Hj]].
    + exact (H3 j tm Hj Hpr).
    + apply list_lookup_singleton_Some in Hj as [_ <-]. cbn in Hpr. congruence.
  - intros Hid. destruct (H4 (Hpend id Hid)) as [Hs Hk]. split; [exact Hs|].
    apply lookup_app_l_Some. exact Hk.
  - lia.
  - lia.
  - intros j Hj. exact (H2 j (Hpend j Hj)).
  - exact H3.
  - intros Hid. destruct (H4 (Hpend id Hid)) as [Hs Hk].
    rewrite bool_decide_eq_false_2 by exact Hp. split; assumption.
Qed.

Section TrackedRuns.

Variable JSON_parse : jsstring -> option json.

Lemma tracked_step p id k method d e c :
tracked p id k method d c -> tracked p id k method d (step JSON_parse e c).
Proof.
intros H. destruct e as [chunk|j|dt| |method' params]; cbn [step].
- apply onData_preserves;
    [apply tracked_set_buffer | apply tracked_handleMessage | exact H].
- apply tracked_fireTimer, H.
- apply tracked_set_clock, H.
- apply tracked_cleanup, H.
- apply tracked_sendRequest, H.
Qed.

Lemma tracked_run p id k method d events c :
tracked p id k method d c -> tracked p id k method d (run JSON_parse events c).
Proof.
revert c. induction events as [|e events IH]; intros c H; [exact H|].
cbn [run fold_left]. apply IH, tracked_step, H.
Qed.

End TrackedRuns.

(** A request sent by a client with a subprocess is tracked. *)
Lemma sendRequest_tracked method params c :
  wellFormed c -> process c <> None ->
  tracked (promises c) (preIncrement (requestId c)) (length (timers c)) method
    (clock c + 10000) (snd (sendRequest method params c))
  /\ pendingRequests (snd (sendRequest method params c)) !! preIncrement (requestId c)
     = Some (promises c).
Proof.
  intros [W1 W2 W3] Hpr. rewrite sendRequest_spec. cbn [snd].
  destruct (process c) as [pr|]; [clear Hpr | congruence].
  split; [split|]; cbn.
  - lia.
  - lia.
  - intros j Hj. apply lookup_insert_Some in Hj as [[Hj _] | [_ Hj]]; [congruence|].
    apply W1 in Hj. lia.
  - intros j tm Hj Hp. apply lookup_app_Some in Hj as [Hj | [Hlen Hj]].
    + apply list_elem_of_lookup_2 in Hj. apply W2 in Hj. lia.
    + apply list_lookup_singleton_Some in Hj as [Hj _]. lia.
  - intros _. split.
    + destruct (settlements (promises c) (effects c)) as [|[o t] l] eqn:E; [reflexivity|].
      exfalso. assert (Hin : exists o t, Settle (promises c) o t ∈ effects c).
      { clear -E. induction (effects c) as [|e effs IH]; [discriminate|].
        destruct e as [| q o' t' | | |]; cbn in E;
          try (destruct (IH E) as (o1 & t1 & H1); exists o1, t1; right; exact H1).
        destruct (bool_decide_reflect (q = promises c)) as [->|].
        - exists o', t'. left.
        - destruct (IH E) as (o1 & t1 & H1). exists o1, t1. right. exact H1. }
      destruct Hin as (o' & t' & Hin). apply W3 in Hin. lia.
    + rewrite lookup_app_r by reflexivity. rewrite Nat.sub_diag. reflexivity.
  - apply lookup_insert_eq.
Qed.

(** ** Well-formedness holds in every state a client reaches *)

Lemma wellFormed_new (key : jsstring) : wellFormed (Client.new key).
Proof.
  split; cbn.
  - intros id p H. rewrite lookup_empty in H. discriminate H.
  - intros tm H. inversion H.
  - intros p o t H. inversion H.
Qed.

Lemma wellFormed_set_buffer b c : wellFormed c -> wellFormed (set_buffer b c).
Proof. intros [H1 H2 H3]. split; assumption. Qed.

Lemma wellFormed_set_clock t c : wellFormed c -> wellFormed (set_clock t c).
Proof. intros [H1 H2 H3]. split; assumption. Qed.

Lemma wellFormed_set_tempDir d c : wellFormed c -> wellFormed (set_tempDir d c).
Proof. intros [H1 H2 H3]. split; assumption. Qed.

Lemma wellFormed_set_process pr c : wellFormed c -> wellFormed (set_process pr c).
Proof. intros [H1 H2 H3]. split; assumption. Qed.

Lemma wellFormed_set_initialized b c : wellFormed c -> wellFormed (set_initialized b c).
Proof. intros [H1 H2 H3]. split; assumption. Qed.

Lemma wellFormed_set_openDocuments d c : wellFormed c -> wellFormed (set_openDocuments d c).
Proof. intros [H1 H2 H3]. split; assumption. Qed.

Lemma wellFormed_handleMessage m c : wellFormed c -> wellFormed (handleMessage m c).
Proof.
  intros [H1 H2 H3].
  destruct (handleMessage_cases m c) as [-> | [(ev & ps & ->) | (j & q & o & _ & Ej & ->)]].
  - split; assumption.
  - split; cbn; try assumption.
    intros p o t H. apply elem_of_cons in H as [H | H]; [discriminate H | eapply H3; exact H].
  - split; cbn.
    + intros i p Hi. apply lookup_delete_Some in Hi as [_ Hi]. exact (H1 i p Hi).
    + exact H2.
    + intros p o' t H. apply elem_of_cons in H as [H | H]; [|eapply H3; exact H].
      injection H as -> _ _. exact (H1 j q Ej).
Qed.

Lemma wellFormed_fireTimer k c : wellFormed c -> wellFormed (fireTimer k c).
Proof.
  intros [H1 H2 H3]. unfold fireTimer.
  destruct (timers c !! k) as [tm|] eqn:Ek; [|split; assumption].
  destruct (fired tm || (clock c <? deadline tm)); [split; assumption|].
  assert (Hin : tm ∈ timers c) by (eapply list_elem_of_lookup_2; exact Ek).
  set (tm' := {| callback := callback tm; deadline := deadline tm; fired := true |}).
  assert (Ht : forall t, t ∈ <[k := tm']> (timers c) -> (timerPromise t < promises c)%nat).
  { intros t Hi. apply list_elem_of_lookup in Hi as [j Hj].
    destruct (decide (j = k)) as [->|Hne].
    - rewrite list_lookup_insert_eq in Hj by (eapply lookup_lt_Some; exact Ek).
      injection Hj as <-. exact (H2 tm Hin).
    - rewrite list_lookup_insert_ne in Hj by congruence.
      apply H2. eapply list_elem_of_lookup_2; exact Hj. }
  pose proof (H2 tm Hin) as Hp. unfold timerPromise in Hp.
  unfold runCallback. destruct (callback tm) as [i q m|q].
  - cbn [set_timers pendingRequests]. destruct (pendingRequests c !! i); split; cbn;
      try assumption.
    + intros i' p Hi'. apply lookup_delete_Some in Hi' as [_ Hi']. exact (H1 i' p Hi').
    + intros p o t H. apply elem_of_cons in H as [H | H]; [|eapply H3; exact H].
      injection H as -> _ _. exact Hp.
  - split; cbn; try assumption.
    intros p o t H. apply elem_of_cons in H as [H | H]; [|eapply H3; exact H].
    injection H as -> _ _. exact Hp.
Qed.

Lemma wellFormed_cleanup c : wellFormed c -> wellFormed (cleanup c).
Proof.
  intros [H1 H2 H3]. rewrite cleanup_spec. split; cbn.
  - intros id p H. rewrite lookup_empty in H. discriminate H.
  - exact H2.
  - intros p o t H. apply elem_of_app in H as [H | H]; [|eapply H3; exact H].
    exfalso. unfold cleanupEffects in H. apply elem_of_app in H as [H | H].
    + destruct (tempDir c); [apply list_elem_of_singleton in H; discriminate H | inversion H].
    + destruct (process c); [|inversion H].
      apply elem_of_cons in H as [H | H]; [discriminate H|].
      unfold didCloseWrites in H. apply list_elem_of_In, in_rev, in_map_iff in H
        as (u & Hu & _).
      discriminate Hu.
Qed.

Lemma wellFormed_perform_other e c :
  (forall p o t, e <> Settle p o t) -> wellFormed c -> wellFormed (perform e c).
Proof.
  intros He [H1 H2 H3]. split; cbn; try assumption.
  intros p o t H. apply elem_of_cons in H as [H | H]; [|eapply H3; exact H].
  exfalso. eapply He. symmetry. exact H.
Qed.

Lemma wellFormed_sendMessage m c c' :
  wellFormed c -> sendMessage m c = inr c' -> wellFormed c'.
Proof.
  intros H E. unfold sendMessage in E. destruct (process c); [|discriminate E].
  injection E as <-. apply wellFormed_perform_other; [discriminate | exact H].
Qed.

Lemma wellFormed_newPromise c : wellFormed c -> wellFormed (snd (newPromise c)).
Proof.
  intros [H1 H2 H3]. split; cbn.
  - intros id p H. apply H1 in H. lia.
  - intros tm H. apply H2 in H. lia.
  - intros p o t H. apply H3 in H. lia.
Qed.

Lemma wellFormed_setTimeout cb delay c :
  wellFormed c ->
  (match cb with RequestTimeout _ p _ => p | InitializeTimeout p => p end < promises c)%nat ->
  wellFormed (setTimeout cb delay c).
Proof.
  intros [H1 H2 H3] Hp. split; cbn; try assumption.
  intros tm H. apply elem_of_app in H as [H | H]; [exact (H2 tm H)|].
  apply list_elem_of_singleton in H. subst tm. exact Hp.
Qed.

Lemma wellFormed_sendRequest method params c :
  wellFormed c -> wellFormed (snd (sendRequest method params c)).
Proof.
  intros [H1 H2 H3]. rewrite sendRequest_spec. cbn [snd].
  assert (Hpend : forall id p,
    <[preIncrement (requestId c) := promises c]> (pendingRequests c) !! id = Some p ->
    (p < S (promises c))%nat).
  { intros id p H. apply lookup_insert_Some in H as [[_ <-] | [_ H]]; [lia|].
    apply H1 in H. lia. }
  destruct (process c) as [pr|]; split; cbn; try exact Hpend.
  - intros tm H. apply elem_of_app in H as [H | H]; [apply H2 in H; lia|].
    apply list_elem_of_singleton in H. subst tm. cbn. lia.
  - intros p o t H. apply elem_of_cons in H as [H | H]; [discriminate H|].
    apply H3 in H. lia.
  - intros tm H. apply H2 in H. lia.
  - intros p o t H. apply elem_of_cons in H as [H | H]; [injection H as -> _ _; lia|].
    apply H3 in H. lia.
Qed.

Section WellFormedRuns.

Variable JSON_parse : jsstring -> option json.

Lemma wellFormed_step e c : wellFormed c -> wellFormed (step JSON_parse e c).
Proof.
intros H. destruct e as [chunk|j|dt| |method' params]; cbn [step].
- apply onData_preserves;
    [apply wellFormed_set_buffer | apply wellFormed_handleMessage | exact H].
- apply wellFormed_fireTimer, H.
- apply wellFormed_set_clock, H.
- apply wellFormed_cleanup, H.
- apply wellFormed_sendRequest, H.
Qed.

Lemma wellFormed_run events c : wellFormed c -> wellFormed (run JSON_parse events c).
Proof.
revert c. induction events as [|e events IH]; intros c H; [exact H|].
cbn [run fold_left]. apply IH, wellFormed_step, H.
Qed.

Lemma wellFormed_await ps events c :
wellFormed c -> wellFormed (snd (await JSON_parse ps events c)).
Proof.
revert c. induction events as [|e events IH]; intros c H; cbn [await].
- destruct (firstSettled ps (effects c)); exact H.
- destruct (firstSettled ps (effects c)); [exact H|]. apply IH, wellFormed_step, H.
Qed.

Lemma wellFormed_initialize env c :
wellFormed c -> wellFormed (snd (initialize JSON_parse env c)).
Proof.
intros H. unfold initialize.
destruct (initialized c); [exact H|].
pose proof (wellFormed_set_tempDir (Some (tempPath env)) c H) as H1.
destruct (mkdirError env); [exact H1|].
pose proof (wellFormed_set_process (Some (child env)) _ H1) as H2.
destruct (childHasStreams env); cbn [negb]; [|exact H2].
destruct (startup env); try exact H2.
set (c2 := set_process _ _) in *.
destruct (newPromise c2) as [q c3] eqn:E3.
assert (H3 : wellFormed c3 /\ (q < promises c3)%nat).
{ unfold newPromise in E3. injection E3 as <- <-. split.
  - exact (wellFormed_newPromise c2 H2).
  - cbn. lia. }
destruct H3 as [H3 Hq].
pose proof (wellFormed_setTimeout (InitializeTimeout q) 10000 c3 H3 Hq) as H4.
pose proof (wellFormed_sendRequest (lit "initialize")
              (initializeParams (pid env)
                 (workspaceRoot (setTimeout (InitializeTimeout q) 10000 c3)))
              _ H4) as H5.
destruct (sendRequest _ _ _) as [[p id] c5]. cbn [snd] in H5.
pose proof (wellFormed_await [p; q] (handshake env) c5 H5) as H6.
destruct (await _ _ _ _) as [[[v|e]|] c6]; cbn [snd] in H6 |- *; try exact H6.
destruct (sendNotification _ _ c6) as [e|c7] eqn:E7; cbn [snd]; [exact H6|].
apply wellFormed_set_initialized. eapply wellFormed_sendMessage; [exact H6 | exact E7].
Qed.

End WellFormedRuns.

(** ** Answers to nothing, timeouts, and requests dropped by [cleanup] *)

(** Completing an id that is not in the map does nothing. *)
Lemma handleMessage_unknown_id (m : json) (c : TypeScriptLSPClient) :
  isResponse m = true -> pendingGet (prop "id" m) c = None -> handleMessage m c = c.
Proof.
  unfold isResponse. intros Hr Hg.
  destruct m; try reflexivity; unfold handleMessage; rewrite Hr, Hg; reflexivity.
Qed.

Lemma pendingGet_absent (id : option json) (k : N) (c : TypeScriptLSPClient) :
  pendingKey id = Some k -> pendingRequests c !! k = None -> pendingGet id c = None.
Proof. intros E1 E2. unfold pendingGet. rewrite E1, E2. reflexivity. Qed.

(** A request whose entry is in the map when [cleanup] runs is out of reach
    afterwards, though nothing has settled it. *)
Lemma cleanup_abandons p id k method d c :
  tracked p id k method d c -> pendingRequests c !! id = Some p -> id < 2 ^ 53 ->
  settledAs p [] (cleanup c).
Proof.
  intros [H1 H0 H2 H3 H4] Hid Hlt. destruct (H4 Hid) as [Hs Hk].
  split; [split|].
  - rewrite cleanup_spec. exact H1.
  - rewrite cleanup_spec. cbn. intros j Hj. rewrite lookup_empty in Hj. discriminate Hj.
  - rewrite cleanup_spec. cbn. intros tm Hin Hf Hp.
    apply list_elem_of_lookup in Hin as [j Hj].
    pose proof (H3 j tm Hj Hp) as ->. rewrite Hk in Hj. injection Hj as <-.
    exists id, method. repeat split; try assumption; try apply lookup_empty.
  - rewrite cleanup_settlements. exact Hs.
Qed.

Section Timeouts.

Variable JSON_parse : jsstring -> option json.

(** The timer of a request.  A request whose entry is still in the map
  when its timer is due (no answer has removed it and [cleanup] has not
  run): the timer does nothing before ten seconds have passed since the
  call; from then on it rejects the promise with the timeout error, once,
  and removes the entry; whatever happens later settles the promise no
  second time, an answer for the id and a second run of the timer
  callback leave the client as it is. *)
Theorem timeout_rejects_once (c c1 : TypeScriptLSPClient) (method : jsstring)
  (params : json) (p : nat) (id : N) (during : list Event) :
wellFormed c -> process c <> None ->
sendRequest method params c = (p, id, c1) ->
let k := length (timers c) in
let c2 := run JSON_parse during c1 in
pendingRequests c2 !! id = Some p ->
(clock c2 < clock c + 10000 -> fireTimer k c2 = c2)
/\ (clock c + 10000 <= clock c2 ->
    let c3 := fireTimer k c2 in
    settlements p (effects c3) = [(Rejected (timeoutError method), clock c2)]
    /\ pendingRequests c3 = delete id (pendingRequests c2)
    /\ (forall later,
          settlements p (effects (run JSON_parse later c3))
          = [(Rejected (timeoutError method), clock c2)])
    /\ (forall m, isResponse m = true -> pendingKey (prop "id" m) = Some id ->
                  handleMessage m c3 = c3)
    /\ fireTimer k c3 = c3
    /\ runCallback (RequestTimeout id p method) c3 = c3).
Proof.
intros Hwf Hpr Hsend k c2 Hid.
destruct (sendRequest_tracked method params c Hwf Hpr) as [Htr _].
rewrite sendRequest_spec in Hsend. cbv zeta in Hsend.
assert (Ep : p = promises c) by congruence.
assert (Ei : id = preIncrement (requestId c)) by congruence.
assert (Ec : c1 = snd (sendRequest method params c)).
{ rewrite sendRequest_spec. cbn [snd]. congruence. }
subst p id. rewrite <- Ec in Htr. clear Hsend.
set (p := promises c) in *. set (id := preIncrement (requestId c)) in *.
pose proof (tracked_run JSON_parse p id k method _ during c1 Htr) as Htr2.
fold c2 in Htr2. destruct Htr2 as [H1 H0 H2 H3 H4].
destruct (H4 Hid) as [Hs Hk].
assert (Hfire : clock c + 10000 <= clock c2 ->
  fireTimer k c2
  = perform (Settle p (Rejected (timeoutError method)) (clock c2))
      (set_pendingRequests (delete id (pendingRequests c2))
         (set_timers
            (<[k := {| callback := RequestTimeout id p method;
                       deadline := clock c + 10000; fired := true |}]> (timers c2)) c2))).
{ intros Hdue. unfold fireTimer. rewrite Hk. cbn [fired deadline callback orb].
  destruct (N.ltb_spec (clock c2) (clock c + 10000)); [lia|].
  unfold runCallback. cbn [set_timers pendingRequests]. rewrite Hid. reflexivity. }
split.
- intros Hearly. unfold fireTimer. rewrite Hk. cbn [fired deadline orb].
  destruct (N.ltb_spec (clock c2) (clock c + 10000)); [reflexivity | lia].
- intros Hdue c3. unfold c3. rewrite (Hfire Hdue).
  set (c3' := perform _ _).
  assert (Hlt : (k < length (timers c2))%nat) by (eapply lookup_lt_Some; exact Hk).
  assert (Hset : settlements p (effects c3')
                 = [(Rejected (timeoutError method), clock c2)]).
  { cbn. rewrite bool_decide_eq_true_2 by reflexivity. rewrite Hs. reflexivity. }
  assert (Hgone : pendingRequests c3' !! id = None) by (cbn; apply lookup_delete_eq).
  assert (Hab : abandoned p c3').
  { split; cbn.
    - exact H1.
    - intros j Hj. apply lookup_delete_Some in Hj as [Hne Hj]. apply Hne.
      symmetry. exact (H2 j Hj).
    - intros tm Hin Hf Hp. exfalso.
      apply list_elem_of_lookup in Hin as [j Hj].
      destruct (decide (j = k)) as [->|Hne].
      + rewrite list_lookup_insert_eq in Hj by exact Hlt. injection Hj as <-.
        discriminate Hf.
      + rewrite list_lookup_insert_ne in Hj by congruence.
        apply Hne. exact (H3 j tm Hj Hp). }
  repeat split.
  + exact Hset.
  + intros later. exact (proj2 (settledAs_run JSON_parse p _ later c3' (conj Hab Hset))).
  + intros m Hr Hkey. apply handleMessage_unknown_id; [exact Hr|].
    eapply pendingGet_absent; [exact Hkey | exact Hgone].
  + unfold fireTimer, c3'. cbn [timers perform set_effects set_pendingRequests set_timers].
    rewrite list_lookup_insert_eq by exact Hlt. reflexivity.
  + unfold runCallback. rewrite Hgone. reflexivity.
Qed.

(** A request that is pending when the subprocess exits is never settled:
  [cleanup] empties the map without a call of [reject], and the timer of
  the request rejects only what is still in the map. *)
Lemma pending_at_exit_never_settled (c c1 : TypeScriptLSPClient) (method : jsstring)
  (params : json) (p : nat) (id : N) (during later : list Event) :
wellFormed c -> process c <> None -> requestId c + 1 < 2 ^ 53 ->
sendRequest method params c = (p, id, c1) ->
pendingRequests (run JSON_parse during c1) !! id = Some p ->
settlements p (effects (run JSON_parse (during ++ Exit :: later) c1)) = [].
Proof.
intros Hwf Hpr Hreq Hsend Hid.
destruct (sendRequest_tracked method params c Hwf Hpr) as [Htr _].
rewrite sendRequest_spec in Hsend. cbv zeta in Hsend.
assert (Ep : p = promises c) by congruence.
assert (Ei : id = preIncrement (requestId c)) by congruence.
assert (Ec : c1 = snd (sendRequest method params c)).
{ rewrite sendRequest_spec. cbn [snd]. congruence. }
subst p id. rewrite <- Ec in Htr. clear Hsend.
pose proof (tracked_run JSON_parse _ _ _ method _ during c1 Htr) as Htr2.
assert (Hlt : preIncrement (requestId c) < 2 ^ 53).
{ unfold preIncrement. destruct (N.ltb_spec (requestId c) (2 ^ 53)); lia. }
pose proof (cleanup_abandons _ _ _ _ _ _ Htr2 Hid Hlt) as Hab.
unfold run. rewrite fold_left_app. cbn [fold_left step].
exact (proj2 (settledAs_run JSON_parse _ _ later _ Hab)).
Qed.

End Timeouts.

(** ** No request is settled twice *)

Lemma atMostOnce_set_buffer p id k method d b c :
  atMostOnce p id k method d c -> atMostOnce p id k method d (set_buffer b c).
Proof.
  intros [Ht [H | (s & Hs & Hl)]]; (split; [apply tracked_set_buffer, Ht|]).
  - left. exact H.
  - right. exists s. split; [apply settledAs_set_buffer, Hs | exact Hl].
Qed.

Lemma atMostOnce_handleMessage p id k method d m c :
  id < 2 ^ 53 ->
  atMostOnce p id k method d c -> atMostOnce p id k method d (handleMessage m c).
Proof.
  intros Hid [Ht [H | (s & Hs & Hl)]];
    (split; [apply tracked_handleMessage, Ht|]).
  - destruct Ht as [H1 H0 H2 H3 H4]. destruct (H4 H) as [Hs Hk].
    destruct (handleMessage_cases m c)
      as [-> | [(ev & ps & ->) | (j & q & o & _ & Ej & ->)]]; [left; exact H .. |].
    destruct (decide (j = id)) as [->|Hne].
    + right. assert (q = p) by congruence. subst q.
      exists [(o, clock c)]. split; [|cbn; lia]. split; [split|]; cbn.
      * exact H1.
      * intros i Hi. apply lookup_delete_Some in Hi as [Hne Hi]. apply Hne.
        symmetry. exact (H2 i Hi).
      * intros tm Hin Hf Hp. apply list_elem_of_lookup in Hin as [i Hi].
        pose proof (H3 i tm Hi Hp) as ->. rewrite Hk in Hi. injection Hi as <-.
        exists id, method. repeat split; try assumption. apply lookup_delete_eq.
      * rewrite bool_decide_eq_true_2 by reflexivity. rewrite Hs. reflexivity.
    + left. cbn. rewrite lookup_delete_ne by exact Hne. exact H.
  - right. exists s. split; [apply settledAs_handleMessage, Hs | exact Hl].
Qed.

Lemma atMostOnce_fireTimer p id k method d j c :
  id < 2 ^ 53 ->
  atMostOnce p id k method d c -> atMostOnce p id k method d (fireTimer j c).
Proof.
  intros Hid [Ht [H | (s & Hs & Hl)]];
    (split; [apply tracked_fireTimer, Ht|]);
    [|right; exists s; split; [apply settledAs_fireTimer, Hs | exact Hl]].
  destruct Ht as [H1 H0 H2 H3 H4]. destruct (H4 H) as [Hs Hk].
  unfold fireTimer. destruct (timers c !! j) as [tm|] eqn:Ej; [|left; exact H].
  destruct (fired tm) eqn:Ef; cbn [orb]; [left; exact H|].
  destruct (clock c <? deadline tm); [left; exact H|].
  assert (Hlt : (j < length (timers c))%nat) by (eapply lookup_lt_Some; exact Ej).
  set (tm' := {| callback := callback tm; deadline := deadline tm; fired := true |}).
  destruct (decide (j = k)) as [->|Hjk].
  - rewrite Ej in Hk. injection Hk as ->. cbn [callback runCallback].
    cbn [set_timers pendingRequests]. rewrite H. right.
    eexists [(_, clock c)]. split; [|cbn; lia]. split; [split|]; cbn.
    + exact H1.
    + intros i Hi. apply lookup_delete_Some in Hi as [Hne Hi]. apply Hne.
      symmetry. exact (H2 i Hi).
    + intros tm0 Hin Hf0 Hp0. exfalso. apply list_elem_of_lookup in Hin as [i Hi].
      destruct (decide (i = k)) as [->|Hne].
      * rewrite list_lookup_insert_eq in Hi by exact Hlt. injection Hi as <-.
        discriminate Hf0.
      * rewrite list_lookup_insert_ne in Hi by congruence. apply Hne.
        exact (H3 i tm0 Hi Hp0).
    + rewrite bool_decide_eq_true_2 by reflexivity. rewrite Hs. reflexivity.
  - assert (Hq : timerPromise tm <> p) by (intros Hp; apply Hjk; exact (H3 j tm Ej Hp)).
    assert (Hkeep : <[j := tm']> (timers c) !! k
                    = Some {| callback := RequestTimeout id p method; deadline := d;
                              fired := false |}).
    { rewrite list_lookup_insert_ne by exact Hjk. exact Hk. }
    assert (Hab : forall c',
      promises c' = promises c -> requestId c' = requestId c ->
      timers c' = <[j := tm']> (timers c) ->
      (forall i, pendingRequests c' !! i = Some p -> pendingRequests c !! i = Some p) ->
      pendingRequests c' !! id = None ->
      abandoned p c').
    { intros c' Epr Er Et Hsub Hnone. split.
      - rewrite Epr. exact H1.
      - intros i Hi. pose proof (H2 i (Hsub i Hi)) as ->. congruence.
      - intros tm0 Hin Hf0 Hp0. rewrite Et in Hin.
        apply list_elem_of_lookup in Hin as [i Hi].
        assert (i = k).
        { destruct (decide (i = j)) as [->|Hne].
          - rewrite list_lookup_insert_eq in Hi by exact Hlt. injection Hi as <-.
            discriminate Hf0.
          - rewrite list_lookup_insert_ne in Hi by congruence. exact (H3 i tm0 Hi Hp0). }
        subst i. rewrite Hkeep in Hi. injection Hi as <-.
        exists id, method. rewrite Er. repeat split; assumption. }
    unfold timerPromise in Hq. unfold runCallback.
    destruct (callback tm) as [i q m|q].
    + cbn [set_timers pendingRequests]. destruct (pendingRequests c !! i) as [q'|] eqn:Ei.
      * destruct (decide (i = id)) as [->|Hne].
        -- right. exists []. split; [|cbn; lia]. split.
           ++ apply Hab; try reflexivity.
              ** cbn. intros i' Hi'. apply lookup_delete_Some in Hi' as [_ Hi']. exact Hi'.
              ** cbn. apply lookup_delete_eq.
           ++ cbn. rewrite bool_decide_eq_false_2 by exact Hq. exact Hs.
        -- left. cbn. rewrite lookup_delete_ne by exact Hne. exact H.
      * left. exact H.
    + left. exact H.
Qed.

Lemma atMostOnce_sendRequest p id k method d method' params c :
  id < 2 ^ 53 ->
  atMostOnce p id k method d c ->
  atMostOnce p id k method d (snd (sendRequest method' params c)).
Proof.
  intros Hid [Ht [H | (s & Hs & Hl)]];
    (split; [apply tracked_sendRequest, Ht|]);
    [|right; exists s; split; [apply settledAs_sendRequest, Hs | exact Hl]].
  left. destruct Ht as [H1 H0 H2 H3 H4]. rewrite sendRequest_spec. cbn [snd].
  assert (Hne : preIncrement (requestId c) <> id) by (apply preIncrement_fresh; assumption).
  destruct (process c); cbn; rewrite lookup_insert_ne by exact Hne; exact H.
Qed.

Section AtMostOnce.

Variable JSON_parse : jsstring -> option json.

Lemma atMostOnce_step p id k method d e c :
id < 2 ^ 53 ->
atMostOnce p id k method d c -> atMostOnce p id k method d (step JSON_parse e c).
Proof.
intros Hid H. destruct e as [chunk|j|dt| |method' params]; cbn [step].
- apply onData_preserves;
    [apply atMostOnce_set_buffer | intros m c'; apply atMostOnce_handleMessage, Hid
    | exact H].
- apply atMostOnce_fireTimer; assumption.
- destruct H as [Ht [H | (s & Hs & Hl)]]; (split; [apply tracked_set_clock, Ht|]).
  + left. exact H.
  + right. exists s. split; [apply settledAs_set_clock, Hs | exact Hl].
- destruct H as [Ht [H | (s & Hs & Hl)]]; (split; [apply tracked_cleanup, Ht|]); right.
  + exists []. split; [eapply cleanup_abandons; eassumption | cbn; lia].
  + exists s. split; [apply settledAs_cleanup, Hs | exact Hl].
- apply atMostOnce_sendRequest; assumption.
Qed.

End AtMostOnce.

Lemma sendRequest_eta (method : jsstring) (params : json) (c : TypeScriptLSPClient) :
  sendRequest method params c
  = (fst (fst (sendRequest method params c)), snd (fst (sendRequest method params c)),
     snd (sendRequest method params c)).
Proof. destruct (sendRequest method params c) as [[p id] c1]. reflexivity. Qed.

(** The sample client is the one [initialize] produces. *)
Lemma Sample_ready_reached :
  initialize Sample.parse Sample.env (Client.new (lit "/ws#typescript-lsp"))
  = (Returned tt, Sample.ready).
Proof. vm_compute. reflexivity. Qed.

Lemma Sample_ready_wellFormed : wellFormed Sample.ready.
Proof.
  pose proof (wellFormed_initialize Sample.parse Sample.env _
                (wellFormed_new (lit "/ws#typescript-lsp"))) as H.
  rewrite Sample_ready_reached in H. exact H.
Qed.

Lemma Sample_ready_running : process Sample.ready <> None.
Proof. vm_compute. discriminate. Qed.

(** A hover request sent after the handshake and left without an answer for
    ten seconds: its timer rejects it. *)
Lemma timeout_rejects_once_witness :
  let r := sendRequest Sample.hover JNull Sample.ready in
  let c2 := run Sample.parse [Tick 10000] (snd r) in
  pendingRequests c2 !! snd (fst r) = Some (fst (fst r))
  /\ settlements (fst (fst r)) (effects (fireTimer 2 c2))
     = [(Rejected (timeoutError Sample.hover), 10030)]
  /\ forall later,
       settlements (fst (fst r)) (effects (run Sample.parse later (fireTimer 2 c2)))
       = [(Rejected (timeoutError Sample.hover), 10030)].
Proof.
  intros r c2.
  assert (Hid : pendingRequests c2 !! snd (fst r) = Some (fst (fst r)))
    by (vm_compute; reflexivity).
  pose proof (timeout_rejects_once Sample.parse Sample.ready (snd r) Sample.hover JNull
                (fst (fst r)) (snd (fst r)) [Tick 10000]
                Sample_ready_wellFormed Sample_ready_running
                (sendRequest_eta _ _ _) Hid) as [_ H].
  assert (Hdue : clock Sample.ready + 10000 <= clock c2) by (vm_compute; discriminate).
  destruct (H Hdue) as (H1 & _ & H3 & _).
  split; [exact Hid|]. split; [exact H1 | exact H3].
Defined.

(** C4. A request that never receives a matching response is not always
    rejected with a timeout error.  A hover request is sent, the subprocess
    exits, ten seconds pass and the timer of the request runs: no answer has
    ever arrived, the deadline is past and the timer has fired, and yet
    [reject] has not been called, neither with a timeout error nor with
    anything else, nor will it ever be.  [cleanup] has emptied the map
    without rejecting the entries (line 502), and the timer rejects only an
    id it still finds there (line 476). *)
Lemma timeout_after_cleanup_rejects_nothing :
  let r := sendRequest Sample.hover JNull Sample.ready in
  let c2 := run Sample.parse [Exit; Tick 10000; Fire 2] (snd r) in
  pendingRequests (snd r) !! snd (fst r) = Some (fst (fst r))
  /\ clock Sample.ready + 10000 <= clock c2
  /\ fired <$> timers c2 !! 2%nat = Some true
  /\ settlements (fst (fst r)) (effects c2) = []
  /\ forall later, settlements (fst (fst r)) (effects (run Sample.parse later c2)) = [].
Proof.
  intros r c2.
  assert (Hid : pendingRequests (snd r) !! snd (fst r) = Some (fst (fst r)))
    by (vm_compute; reflexivity).
  split; [exact Hid|].
  split; [vm_compute; discriminate|].
  split; [vm_compute; reflexivity|].
  split; [vm_compute; reflexivity|].
  intros later.
  pose proof (pending_at_exit_never_settled Sample.parse Sample.ready (snd r) Sample.hover
                JNull (fst (fst r)) (snd (fst r)) [] ([Tick 10000; Fire 2%nat] ++ later)
                Sample_ready_wellFormed Sample_ready_running) as H.
  assert (Hreq : requestId Sample.ready + 1 < 2 ^ 53) by (vm_compute; reflexivity).
  specialize (H Hreq (sendRequest_eta _ _ _) Hid).
  unfold c2, run. rewrite <- fold_left_app. exact H.
Qed.

(** C1. A hover request is pending when the subprocess exits and [cleanup]
    runs: whatever happens afterwards, the request gets no outcome at all,
    neither a result nor an error nor a timeout. *)
Theorem request_pending_at_exit_never_settles
    (JSON_parse : jsstring -> option json) (later : list Event) :
  let r := sendRequest Sample.hover JNull Sample.ready in
  pendingRequests (snd r) !! snd (fst r) = Some (fst (fst r))
  /\ settlements (fst (fst r)) (effects (snd r)) = []
  /\ settlements (fst (fst r)) (effects (run JSON_parse (Exit :: later) (snd r))) = [].
Proof.
  intros r.
  assert (Hid : pendingRequests (snd r) !! snd (fst r) = Some (fst (fst r)))
    by (vm_compute; reflexivity).
  split; [exact Hid|]. split; [vm_compute; reflexivity|].
  assert (Hreq : requestId Sample.ready + 1 < 2 ^ 53) by (vm_compute; reflexivity).
  exact (pending_at_exit_never_settled JSON_parse Sample.ready (snd r) Sample.hover
           JNull (fst (fst r)) (snd (fst r)) [] later
           Sample_ready_wellFormed Sample_ready_running Hreq (sendRequest_eta _ _ _) Hid).
Qed.

(** ** Request ids *)





Section Ids.

Variable JSON_parse : jsstring -> option json.




End Ids.


(** ** Opening a document *)

Lemma hasDocument_true (uri : jsstring) (c : TypeScriptLSPClient) :
  hasDocument uri c = true <-> uri ∈ openDocuments c.
Proof. unfold hasDocument. apply bool_decide_eq_true. Qed.

Lemma hasDocument_addDocument (uri : jsstring) (c : TypeScriptLSPClient) :
  hasDocument uri (addDocument uri c) = true.
Proof.
  unfold addDocument. destruct (hasDocument uri c) eqn:E; [exact E|].
  apply hasDocument_true. cbn. apply elem_of_app. right. left.
Qed.

(** A notification that is sent adds one effect and changes nothing else. *)
Lemma sendNotification_inr (method : jsstring) (params : json) (c c' : TypeScriptLSPClient) :
  sendNotification method params c = inr c' ->
  exists pr, process c = Some pr
    /\ c' = perform (Write pr (notificationMessage method params)) c.
Proof.
  unfold sendNotification, sendMessage. destruct (process c) as [pr|]; [|discriminate].
  intros E. injection E as <-. exists pr. split; reflexivity.
Qed.

(** What a call of [openDocument] on a document that is not open does when
    it returns: one open notification, and the document joins the set. *)
Lemma openDocument_returned (readFile : jsstring -> ReadResult) (filePath : jsstring)
    (c c1 : TypeScriptLSPClient) :
  hasDocument (documentUri filePath) c = false ->
  openDocument readFile filePath c = (Returned tt, c1) ->
  exists pr text,
    c1 = addDocument (documentUri filePath)
           (perform (Write pr (notificationMessage (lit "textDocument/didOpen")
                                 (didOpenParams (documentUri filePath)
                                    (languageIdOf filePath) text))) c).
Proof.
  intros Hno. unfold openDocument.
  destruct (initialized c); cbn [negb]; [|discriminate].
  rewrite Hno. destruct (readFile filePath) as [text|message]; [|discriminate].
  destruct (sendNotification _ _ c) as [[m|v]|c'] eqn:E; try discriminate.
  intros H. injection H as <-.
  apply sendNotification_inr in E as (pr & _ & ->). exists pr, text. reflexivity.
Qed.

(** A call of [openDocument] that throws changes nothing. *)
Lemma openDocument_threw (readFile : jsstring -> ReadResult) (filePath : jsstring)
    (c c1 : TypeScriptLSPClient) (e : JsError) :
  openDocument readFile filePath c = (Threw e, c1) -> c1 = c.
Proof.
  unfold openDocument.
  destruct (initialized c); cbn [negb]; [|intros H; injection H as _ <-; reflexivity].
  destruct (hasDocument _ c); [discriminate|].
  destruct (readFile filePath) as [text|message];
    [|intros H; injection H as _ <-; reflexivity].
  destruct (sendNotification _ _ c) as [[m|v]|c'] eqn:E; try discriminate;
    intros H; injection H as _ <-; reflexivity.
Qed.

Lemma openDocument_not_awaiting (readFile : jsstring -> ReadResult) (filePath : jsstring)
    (c c1 : TypeScriptLSPClient) :
  openDocument readFile filePath c <> (Awaiting, c1).
Proof.
  unfold openDocument.
  destruct (initialized c); cbn [negb]; [|discriminate].
  destruct (hasDocument _ c); [discriminate|].
  destruct (readFile filePath) as [text|message]; [|discriminate].
  destruct (sendNotification _ _ c) as [[m|v]|c']; discriminate.
Qed.

(** C9, as the code has it. When a call of [ensureDocumentOpen] returns, a
    second call on the same path returns and changes nothing: it sends
    nothing, and the set of open documents after it is the set after the
    first call.  If the document was not open before, the first call has
    sent exactly one message, an open notification for the document, so the
    two calls send exactly one; if it was open, the first call has changed
    nothing either.  A call that throws changes nothing. *)
Theorem ensureDocumentOpen_idempotent (readFile1 readFile2 : jsstring -> ReadResult)
    (filePath : jsstring) (c c1 : TypeScriptLSPClient) (r : Completion unit) :
  ensureDocumentOpen readFile1 filePath c = (r, c1) ->
  match r with
  | Returned _ =>
      ensureDocumentOpen readFile2 filePath c1 = (Returned tt, c1)
      /\ documentUri filePath ∈ openDocuments c1
      /\ (documentUri filePath ∈ openDocuments c -> c1 = c)
      /\ (documentUri filePath ∉ openDocuments c ->
          openDocuments c1 = openDocuments c ++ [documentUri filePath]
          /\ exists pr languageId text,
               effects c1
               = Write pr (notificationMessage (lit "textDocument/didOpen")
                             (didOpenParams (documentUri filePath) languageId text))
                 :: effects c)
  | Threw _ => c1 = c
  | Awaiting => False
  end.
Proof.
  unfold ensureDocumentOpen at 1.
  destruct (hasDocument (documentUri filePath) c) eqn:Hhas.
  - intros H. injection H as <- <-.
    split; [|split; [|split]].
    + unfold ensureDocumentOpen. rewrite Hhas. reflexivity.
    + apply hasDocument_true, Hhas.
    + reflexivity.
    + intros Hno. exfalso. apply Hno, hasDocument_true, Hhas.
  - assert (Hno : documentUri filePath ∉ openDocuments c).
    { intros Hin. apply hasDocument_true in Hin. congruence. }
    assert (Hadd : forall pr m,
      let c' := addDocument (documentUri filePath) (perform (Write pr m) c) in
      ensureDocumentOpen readFile2 filePath c' = (Returned tt, c')
      /\ documentUri filePath ∈ openDocuments c'
      /\ openDocuments c' = openDocuments c ++ [documentUri filePath]
      /\ effects c' = Write pr m :: effects c).
    { intros pr m c'.
      assert (Hh : hasDocument (documentUri filePath) c' = true)
        by apply hasDocument_addDocument.
      split; [unfold ensureDocumentOpen; rewrite Hh; reflexivity|].
      split; [apply hasDocument_true, Hh|].
      unfold c', addDocument.
      assert (E : hasDocument (documentUri filePath) (perform (Write pr m) c) = false)
        by exact Hhas.
      rewrite E. split; reflexivity. }
    destruct (openDocument readFile1 filePath c) as [[[]|error|] c0] eqn:Eopen.
    + intros H. injection H as <- <-.
      destruct (openDocument_returned _ _ _ _ Hhas Eopen) as (pr & text & ->).
      destruct (Hadd pr (notificationMessage (lit "textDocument/didOpen")
                           (didOpenParams (documentUri filePath) (languageIdOf filePath) text)))
        as (H1 & H2 & H3 & H4).
      split; [exact H1|]. split; [exact H2|]. split; [intros Hin; contradiction|].
      intros _. split; [exact H3|]. eexists pr, _, text. exact H4.
    + apply openDocument_threw in Eopen. subst c0.
      destruct (isMissingFile error).
      * destruct (sendNotification _ _ c) as [e|c'] eqn:E.
        -- intros H. injection H as <- <-. reflexivity.
        -- intros H. injection H as <- <-.
           apply sendNotification_inr in E as (pr & _ & ->).
           destruct (Hadd pr (notificationMessage (lit "textDocument/didOpen")
                                (didOpenParams (documentUri filePath) (lit "typescript")
                                   (lit "// File not found" ++ [10]))))
             as (H1 & H2 & H3 & H4).
           split; [exact H1|]. split; [exact H2|]. split; [intros Hin; contradiction|].
           intros _. split; [exact H3|]. eexists pr, _, _. exact H4.
      * intros H. injection H as <- <-. reflexivity.
    + exfalso. exact (openDocument_not_awaiting _ _ _ _ Eopen).
Qed.

(** The file [/ws/src/app.ts] is opened twice: one open notification. *)
Lemma ensureDocumentOpen_idempotent_witness :
  let path := lit "/ws/src/app.ts" in
  let r1 := ensureDocumentOpen (Sample.readable "let x = 1") path Sample.ready in
  fst r1 = Returned tt
  /\ ensureDocumentOpen Sample.unreadable path (snd r1) = (Returned tt, snd r1)
  /\ openDocuments (snd r1) = [lit "file:///ws/src/app.ts"]
  /\ exists pr languageId text,
       effects (snd r1)
       = Write pr (notificationMessage (lit "textDocument/didOpen")
                     (didOpenParams (documentUri path) languageId text))
         :: effects Sample.ready.
Proof.
  intros path r1.
  assert (E : ensureDocumentOpen (Sample.readable "let x = 1") path Sample.ready
              = (Returned tt, snd r1)) by (vm_compute; reflexivity).
  pose proof (ensureDocumentOpen_idempotent (Sample.readable "let x = 1") Sample.unreadable
                path Sample.ready (snd r1) (Returned tt) E) as (H1 & _ & _ & H4).
  assert (Hno : documentUri path ∉ openDocuments Sample.ready)
    by (intros Hin; inversion Hin).
  destruct (H4 Hno) as [_ H5].
  split; [vm_compute; reflexivity|]. split; [exact H1|].
  split; [vm_compute; reflexivity | exact H5].
Defined.

(** C9, as the claim has it, fails. The file [/ws/secret.ts] cannot be read
    (the error is not the one of a missing file): both calls throw and no
    open notification is sent, instead of exactly one. *)
Lemma ensureDocumentOpen_unreadable_sends_nothing :
  let path := lit "/ws/secret.ts" in
  let r1 := ensureDocumentOpen Sample.unreadable path Sample.ready in
  let r2 := ensureDocumentOpen Sample.unreadable path (snd r1) in
  fst r1 = Threw (Error_ (lit "Failed to open document /ws/secret.ts: EACCES: permission denied"))
  /\ fst r2 = fst r1
  /\ effects (snd r2) = effects Sample.ready
  /\ openDocuments (snd r2) = [].
Proof.
  intros path r1 r2.
  split; [vm_compute; reflexivity|].
  split; [vm_compute; reflexivity|].
  split; vm_compute; reflexivity.
Qed.

(** ** Shutting a session down *)

Lemma kept_perform pr e c : kept pr c -> kept pr (perform e c).
Proof. intros [H | H]; [left; exact H | right; right; exact H]. Qed.

Lemma kept_handleMessage pr m c : kept pr c -> kept pr (handleMessage m c).
Proof.
  intros H.
  destruct (handleMessage_cases m c) as [-> | [(ev & ps & ->) | (j & q & o & _ & _ & ->)]].
  - exact H.
  - apply kept_perform, H.
  - apply kept_perform. exact H.
Qed.

Lemma kept_fireTimer pr k c : kept pr c -> kept pr (fireTimer k c).
Proof.
  intros H. unfold fireTimer. destruct (timers c !! k) as [tm|]; [|exact H].
  destruct (fired tm || (clock c <? deadline tm)); [exact H|].
  unfold runCallback. destruct (callback tm) as [i q m|q].
  - cbn [set_timers pendingRequests]. destruct (pendingRequests c !! i); [|exact H].
    apply kept_perform. exact H.
  - apply kept_perform. exact H.
Qed.

Lemma kept_cleanup pr c : kept pr c -> Kill pr ∈ effects (cleanup c).
Proof.
  intros [H | H]; [apply cleanup_kills, H | apply cleanup_effects_kept, H].
Qed.

Lemma kept_sendRequest pr method params c :
  kept pr c -> kept pr (snd (sendRequest method params c)).
Proof.
  intros H. rewrite sendRequest_spec. cbn [snd].
  destruct (process c) as [pr'|] eqn:E.
  - destruct H as [H | H]; [left | right; right]; exact H.
  - destruct H as [H | H]; [congruence | right; right; exact H].
Qed.

Lemma kept_sendNotification pr method params c c' :
  kept pr c -> sendNotification method params c = inr c' -> kept pr c'.
Proof.
  intros H E. apply sendNotification_inr in E as (pr' & _ & ->). apply kept_perform, H.
Qed.

Lemma cleanup_is_closed (c : TypeScriptLSPClient) : closed (cleanup c).
Proof. exact (cleanup_closed c). Qed.

Lemma closed_handleMessage m c : closed c -> closed (handleMessage m c).
Proof.
  intros (H1 & H2 & H3 & H4).
  destruct (handleMessage_cases m c) as [-> | [(ev & ps & ->) | (j & q & o & _ & Ej & _)]].
  - repeat split; assumption.
  - repeat split; assumption.
  - rewrite H2, lookup_empty in Ej. discriminate Ej.
Qed.

Lemma closed_fireTimer k c : closed c -> closed (fireTimer k c).
Proof.
  intros (H1 & H2 & H3 & H4). unfold fireTimer.
  destruct (timers c !! k) as [tm|]; [|repeat split; assumption].
  destruct (fired tm || (clock c <? deadline tm)); [repeat split; assumption|].
  unfold runCallback. destruct (callback tm) as [i q m|q].
  - cbn [set_timers pendingRequests]. rewrite H2, lookup_empty. repeat split; assumption.
  - repeat split; assumption.
Qed.

Lemma cleanup_is_released (c : TypeScriptLSPClient) : released (cleanup c).
Proof. destruct (cleanup_closed c) as (H1 & _ & H3 & H4). repeat split; assumption. Qed.

Lemma released_handleMessage m c : released c -> released (handleMessage m c).
Proof.
  intros H.
  destruct (handleMessage_cases m c) as [-> | [(ev & ps & ->) | (j & q & o & _ & _ & ->)]];
    exact H.
Qed.

Lemma released_fireTimer k c : released c -> released (fireTimer k c).
Proof.
  intros H. unfold fireTimer. destruct (timers c !! k) as [tm|]; [|exact H].
  destruct (fired tm || (clock c <? deadline tm)); [exact H|].
  unfold runCallback. destruct (callback tm) as [i q m|q].
  - cbn [set_timers pendingRequests]. destruct (pendingRequests c !! i); exact H.
  - exact H.
Qed.

Lemma released_sendRequest method params c :
  released c -> released (snd (sendRequest method params c)).
Proof.
  intros H. rewrite sendRequest_spec. cbn [snd]. destruct (process c); exact H.
Qed.

Section Shutdown.

Variable JSON_parse : jsstring -> option json.

Lemma kept_step pr e c : kept pr c -> kept pr (step JSON_parse e c).
Proof.
intros H. destruct e as [chunk|k|dt| |method params]; cbn [step].
- apply onData_preserves; [intros b c' H'; exact H' | apply kept_handleMessage | exact H].
- apply kept_fireTimer, H.
- exact H.
- right. apply kept_cleanup, H.
- apply kept_sendRequest, H.
Qed.

Lemma kept_run pr events c : kept pr c -> kept pr (run JSON_parse events c).
Proof.
revert c. induction events as [|e events IH]; intros c H; [exact H|].
cbn [run fold_left]. apply IH, kept_step, H.
Qed.

Lemma kept_await pr ps events c :
kept pr c -> kept pr (snd (await JSON_parse ps events c)).
Proof.
revert c. induction events as [|e events IH]; intros c H; cbn [await].
- destruct (firstSettled ps (effects c)); exact H.
- destruct (firstSettled ps (effects c)); [exact H|]. apply IH, kept_step, H.
Qed.

(** There is no way back from a closed session, whatever its subprocess
  and its timers still do. *)
Lemma closed_step e c : isRequest e = false -> closed c -> closed (step JSON_parse e c).
Proof.
intros He H. destruct e as [chunk|k|dt| |method params]; cbn [step].
- apply onData_preserves; [intros b c' H'; exact H' | apply closed_handleMessage | exact H].
- apply closed_fireTimer, H.
- exact H.
- apply cleanup_is_closed.
- discriminate He.
Qed.

Lemma closed_run events c :
Forall (fun e => isRequest e = false) events -> closed c ->
closed (run JSON_parse events c).
Proof.
intros Hall. revert c. induction Hall as [|e events He _ IH]; intros c H; [exact H|].
cbn [run fold_left]. apply IH, closed_step; assumption.
Qed.

Lemma awaitCleanup_spec after c :
Forall (fun e => isRequest e = false) after ->
closed (awaitCleanup JSON_parse after c)
/\ forall pr, kept pr c -> Kill pr ∈ effects (awaitCleanup JSON_parse after c).
Proof.
intros Hall.
assert (Hc : closed (awaitCleanup JSON_parse after c)).
{ unfold awaitCleanup. destruct (tempDir c); [|apply cleanup_is_closed].
  apply closed_run; [exact Hall | apply cleanup_is_closed]. }
split; [exact Hc|]. intros pr H.
assert (Hk : kept pr (awaitCleanup JSON_parse after c)).
{ unfold awaitCleanup. destruct (tempDir c); [apply kept_run|]; right; apply kept_cleanup, H. }
destruct Hc as (_ & _ & _ & Hp). destruct Hk as [Hk | Hk]; [congruence | exact Hk].
Qed.

Lemma kept_awaitCleanup pr after c :
kept pr c -> kept pr (awaitCleanup JSON_parse after c).
Proof.
intros H. unfold awaitCleanup.
destruct (tempDir c); [apply kept_run|]; right; apply kept_cleanup, H.
Qed.

(** [shutdown] never throws; when it returns, the session is closed and
  the subprocess it held is killed, provided that no caller sends a
  request through the client while its temporary directory is removed. *)
Lemma shutdown_spec (during after : list Event) (c c' : TypeScriptLSPClient)
  (r : Completion unit) :
Forall (fun e => isRequest e = false) after ->
shutdown JSON_parse during after c = (r, c') ->
(forall pr, kept pr c -> kept pr c')
/\ match r with
   | Returned _ => closed c' /\ forall pr, kept pr c -> Kill pr ∈ effects c'
   | Threw _ => False
   | Awaiting => True
   end.
Proof.
intros Hall. unfold shutdown. destruct (initialized c).
- pose proof (fun pr => kept_sendRequest pr (lit "shutdown") JNull c) as Hs.
  destruct (sendRequest (lit "shutdown") JNull c) as [[p id] c1]. cbn [snd] in Hs.
  pose proof (fun pr H => kept_await pr [p] during c1 (Hs pr H)) as Ha.
  destruct (await JSON_parse [p] during c1) as [[[v|e]|] c2]; cbn [snd] in Ha.
  + destruct (sendNotification (lit "exit") JNull c2) as [e|c3] eqn:E;
      intros H; injection H as <- <-.
    * destruct (awaitCleanup_spec after c2 Hall) as [Hc Hk].
      split; [intros pr H; apply kept_awaitCleanup, Ha, H|].
      split; [exact Hc | intros pr H; apply Hk, Ha, H].
    * assert (Hk3 : forall pr, kept pr c -> kept pr c3)
        by (intros pr H; eapply kept_sendNotification; [apply Ha, H | exact E]).
      destruct (awaitCleanup_spec after c3 Hall) as [Hc Hk].
      split; [intros pr H; apply kept_awaitCleanup, Hk3, H|].
      split; [exact Hc | intros pr H; apply Hk, Hk3, H].
  + intros H; injection H as <- <-.
    destruct (awaitCleanup_spec after c2 Hall) as [Hc Hk].
    split; [intros pr H; apply kept_awaitCleanup, Ha, H|].
    split; [exact Hc | intros pr H; apply Hk, Ha, H].
  + intros H; injection H as <- <-. split; [exact Ha | exact I].
- intros H; injection H as <- <-.
  destruct (awaitCleanup_spec after c Hall) as [Hc Hk].
  split; [intros pr H; apply kept_awaitCleanup, H|].
  split; [exact Hc | exact Hk].
Qed.

Lemma shutdownEach_spec (during after : nat -> list Event) (clients : list nat)
  (objs objs' : list TypeScriptLSPClient) (ok : bool) :
(forall l, Forall (fun e => isRequest e = false) (after l)) ->
Manager.shutdownEach JSON_parse during after clients objs = (ok, objs') ->
length objs' = length objs
/\ forall l c, objs !! l = Some c ->
     exists c', objs' !! l = Some c'
       /\ (forall pr, kept pr c -> kept pr c')
       /\ (l ∉ clients -> c' = c)
       /\ (ok = true -> l ∈ clients ->
           closed c' /\ forall pr, kept pr c -> Kill pr ∈ effects c').
Proof.
intros Hafter.
revert objs objs' ok. induction clients as [|client rest IH]; intros objs objs' ok.
- cbn [Manager.shutdownEach]. intros H. injection H as <- <-.
  split; [reflexivity|]. intros l c Hl. exists c.
  split; [exact Hl|]. split; [auto|]. split; [auto|].
  intros _ Hin. inversion Hin.
- cbn [Manager.shutdownEach].
  destruct (objs !! client) as [c0|] eqn:E0.
  + destruct (shutdown JSON_parse (during client) (after client) c0) as [r c1] eqn:Es.
    destruct (Manager.shutdownEach JSON_parse during after rest (<[client := c1]> objs))
      as [ok1 objs1] eqn:Er.
    intros H. injection H as <- <-.
    destruct (IH _ _ _ Er) as [Hlen Hall]. rewrite length_insert in Hlen.
    destruct (shutdown_spec _ _ _ _ _ (Hafter client) Es) as [Hk Hr].
    split; [exact Hlen|]. intros l c Hl.
    destruct (decide (l = client)) as [->|Hne].
    * assert (c = c0) by congruence. subst c.
      assert (H1 : <[client := c1]> objs !! client = Some c1).
      { apply list_lookup_insert_eq. eapply lookup_lt_Some. exact E0. }
      destruct (Hall client c1 H1) as (c' & Hc' & Hkept & Hsame & Hclosed).
      exists c'. split; [exact Hc'|]. split; [intros pr H; apply Hkept, Hk, H|].
      split; [intros Hnot; exfalso; apply Hnot; left|].
      intros Hok _. destruct r as [[]|e|]; try discriminate Hok.
      destruct Hr as [Hcl Hkill].
      destruct (decide (client ∈ rest)) as [Hin | Hnin].
      -- destruct (Hclosed Hok Hin) as [Hcl' Hkill'].
         split; [exact Hcl'|]. intros pr H. apply Hkill'. right. apply Hkill, H.
      -- rewrite (Hsame Hnin). split; [exact Hcl | exact Hkill].
    * assert (H1 : <[client := c1]> objs !! l = Some c).
      { rewrite list_lookup_insert_ne by congruence. exact Hl. }
      destruct (Hall l c H1) as (c' & Hc' & Hkept & Hsame & Hclosed).
      exists c'. split; [exact Hc'|]. split; [exact Hkept|].
      split.
      -- intros Hnot. apply Hsame. intros Hin. apply Hnot. right. exact Hin.
      -- intros Hok Hin. apply elem_of_cons in Hin as [Hin | Hin]; [congruence|].
         apply Hclosed; [|exact Hin].
         destruct r as [[]|e|]; try discriminate Hok; exact Hok.
  + intros Er. destruct (IH _ _ _ Er) as [Hlen Hall].
    split; [exact Hlen|]. intros l c Hl.
    destruct (Hall l c Hl) as (c' & Hc' & Hkept & Hsame & Hclosed).
    exists c'. split; [exact Hc'|]. split; [exact Hkept|].
    split.
    * intros Hnot. apply Hsame. intros Hin. apply Hnot. right. exact Hin.
    * intros Hok Hin. apply elem_of_cons in Hin as [Hin | Hin]; [congruence|].
      apply Hclosed; assumption.
Qed.

(** A session that has been cleaned up stays without subprocess, without
  documents and uninitialized, also when a caller still sends a request
  through it. *)
Lemma released_step e c : released c -> released (step JSON_parse e c).
Proof.
intros H. destruct e as [chunk|k|dt| |method params]; cbn [step].
- apply onData_preserves; [intros b c' H'; exact H' | apply released_handleMessage | exact H].
- apply released_fireTimer, H.
- exact H.
- apply cleanup_is_released.
- apply released_sendRequest, H.
Qed.

Lemma released_run events c : released c -> released (run JSON_parse events c).
Proof.
revert c. induction events as [|e events IH]; intros c H; [exact H|].
cbn [run fold_left]. apply IH, released_step, H.
Qed.





End Shutdown.

(** ** The workspace manager *)

(** A call of [initialize] that returns leaves the client initialized. *)
Lemma initialize_returned (JSON_parse : jsstring -> option json) (env : InitEnv)
    (c c' : TypeScriptLSPClient) :
  initialize JSON_parse env c = (Returned tt, c') -> initialized c' = true.
Proof.
  unfold initialize. destruct (initialized c) eqn:Ei.
  - intros H. injection H as <-. exact Ei.
  - destruct (mkdirError env); [discriminate|].
    destruct (childHasStreams env); cbn [negb]; [|discriminate].
    destruct (startup env); try discriminate.
    destruct (newPromise _) as [q c3].
    destruct (sendRequest _ _ _) as [[p id] c5].
    destruct (await _ _ _ _) as [[[v|e]|] c6]; try discriminate.
    destruct (sendNotification _ _ c6) as [e|c7]; [discriminate|].
    intros H. injection H as <-. reflexivity.
Qed.

Lemma managerOk_empty : managerOk Manager.empty.
Proof.
  split; cbn; intros *; rewrite lookup_empty; discriminate.
Qed.

Section ManagerProperties.

Variable JSON_parse : jsstring -> option json.

(** The two ways [getOrCreateWorkspace] goes: the key is registered and
  nothing changes, or a client is created and initialized, and registered
  when [initialize] has returned. *)
Lemma getOrCreateWorkspace_cases (env : InitEnv) (key : jsstring)
  (m m1 : TypeScriptWorkspaceManager) (r : Completion nat) :
Manager.getOrCreateWorkspace JSON_parse env key m = (r, m1) ->
(exists l, workspaces m !! key = Some l /\ r = Returned l /\ m1 = m)
\/ (workspaces m !! key = None
    /\ exists ri c,
         initialize JSON_parse env (Client.new key) = (ri, c)
         /\ objects m1 = objects m ++ [c]
         /\ match ri with
            | Returned _ =>
                r = Returned (length (objects m))
                /\ workspaces m1 = <[key := length (objects m)]> (workspaces m)
            | Threw e => r = Threw e /\ workspaces m1 = workspaces m
            | Awaiting => r = Awaiting /\ workspaces m1 = workspaces m
            end).
Proof.
unfold Manager.getOrCreateWorkspace.
destruct (workspaces m !! key) as [l|] eqn:E.
- intros H. injection H as <- <-. left. exists l. repeat split.
- right. split; [reflexivity|].
  destruct (initialize JSON_parse env (Client.new key)) as [ri c].
  exists ri, c. split; [reflexivity|].
  destruct ri as [[]|e|]; injection H as <- <-; repeat split.
Qed.

Lemma managerOk_getOrCreateWorkspace (env : InitEnv) (key : jsstring)
  (m m1 : TypeScriptWorkspaceManager) (r : Completion nat) :
managerOk m -> Manager.getOrCreateWorkspace JSON_parse env key m = (r, m1) ->
managerOk m1.
Proof.
intros [Hrefs Hdist] H.
apply getOrCreateWorkspace_cases in H
  as [(l & _ & _ & ->) | (Hnone & ri & c & _ & Hobj & Hri)]; [split; assumption|].
assert (Hlen : length (objects m1) = S (length (objects m)))
  by (rewrite Hobj, length_app; cbn; lia).
assert (Hsame : workspaces m1 = workspaces m -> managerOk m1).
{ intros E. split; rewrite E.
  - intros k l Hl. apply Hrefs in Hl. lia.
  - exact Hdist. }
destruct ri as [[]|e|]; destruct Hri as [_ Hw]; try (apply Hsame; exact Hw).
split; rewrite Hw.
- intros k l Hl. apply lookup_insert_Some in Hl as [[_ <-] | [_ Hl]]; [lia|].
  apply Hrefs in Hl. lia.
- intros k1 k2 l H1 H2.
  apply lookup_insert_Some in H1 as [[E1 L1] | [N1 H1]];
    apply lookup_insert_Some in H2 as [[E2 L2] | [N2 H2]].
  + congruence.
  + apply Hrefs in H2. lia.
  + apply Hrefs in H1. lia.
  + exact (Hdist k1 k2 l H1 H2).
Qed.

(** C6. A call of [getOrCreateWorkspace] with a key that is in the map
  returns the client of the key and changes nothing; with a key that is
  not in the map, when [initialize] returns, it creates a client, a
  reference that named no client before, registers it and returns it.
  So of two calls in sequence, the first of which has returned, the
  second one with the same key returns, and it returns the reference the
  first returned and leaves the manager as it is: it creates no client.
  With a different key the second call returns in the two cases above,
  and whenever it returns, its reference differs from the first one, both
  keys are registered with their references, the first client is what it
  was, and the second reference names a client. *)
Theorem getOrCreateWorkspace_same_key_same_client (env1 env2 : InitEnv)
  (key1 key2 : jsstring) (m : TypeScriptWorkspaceManager) :
managerOk m ->
(forall l, workspaces m !! key1 = Some l ->
   Manager.getOrCreateWorkspace JSON_parse env1 key1 m = (Returned l, m))
/\ (workspaces m !! key1 = None ->
    forall c, initialize JSON_parse env1 (Client.new key1) = (Returned tt, c) ->
    Manager.getOrCreateWorkspace JSON_parse env1 key1 m
    = (Returned (length (objects m)),
       {| objects := objects m ++ [c];
          workspaces := <[key1 := length (objects m)]> (workspaces m) |}))
/\ forall l1 m1,
     Manager.getOrCreateWorkspace JSON_parse env1 key1 m = (Returned l1, m1) ->
     workspaces m1 !! key1 = Some l1
     /\ is_Some (objects m1 !! l1)
     /\ Manager.getOrCreateWorkspace JSON_parse env2 key1 m1 = (Returned l1, m1)
     /\ (key2 <> key1 ->
         (forall l, workspaces m1 !! key2 = Some l ->
            Manager.getOrCreateWorkspace JSON_parse env2 key2 m1 = (Returned l, m1))
         /\ (workspaces m1 !! key2 = None ->
             forall c2, initialize JSON_parse env2 (Client.new key2) = (Returned tt, c2) ->
             Manager.getOrCreateWorkspace JSON_parse env2 key2 m1
             = (Returned (length (objects m1)),
                {| objects := objects m1 ++ [c2];
                   workspaces := <[key2 := length (objects m1)]> (workspaces m1) |}))
         /\ forall l2 m2,
              Manager.getOrCreateWorkspace JSON_parse env2 key2 m1 = (Returned l2, m2) ->
              l2 <> l1
              /\ workspaces m2 !! key1 = Some l1
              /\ workspaces m2 !! key2 = Some l2
              /\ objects m2 !! l1 = objects m1 !! l1
              /\ is_Some (objects m2 !! l2)).
Proof.
intros Hok.
assert (Hknown : forall env key (m0 : TypeScriptWorkspaceManager) l,
  workspaces m0 !! key = Some l ->
  Manager.getOrCreateWorkspace JSON_parse env key m0 = (Returned l, m0)).
{ intros env key m0 l Hl. unfold Manager.getOrCreateWorkspace. rewrite Hl. reflexivity. }
assert (Hnew : forall env key (m0 : TypeScriptWorkspaceManager) c,
  workspaces m0 !! key = None ->
  initialize JSON_parse env (Client.new key) = (Returned tt, c) ->
  Manager.getOrCreateWorkspace JSON_parse env key m0
  = (Returned (length (objects m0)),
     {| objects := objects m0 ++ [c];
        workspaces := <[key := length (objects m0)]> (workspaces m0) |})).
{ intros env key m0 c Hn Hi. unfold Manager.getOrCreateWorkspace. rewrite Hn, Hi.
  reflexivity. }
assert (Hreg : forall env key (m0 m1 : TypeScriptWorkspaceManager) l,
  Manager.getOrCreateWorkspace JSON_parse env key m0 = (Returned l, m1) ->
  workspaces m1 !! key = Some l).
{ intros env key m0 m1 l H.
  apply getOrCreateWorkspace_cases in H
    as [(x & Hx & Hr & ->) | (_ & ri & c & _ & _ & Hri)].
  - congruence.
  - destruct ri as [[]|e|]; destruct Hri as [Hr Hw]; try discriminate Hr.
    injection Hr as ->. rewrite Hw. apply lookup_insert_eq. }
split; [exact (Hknown env1 key1 m)|]. split; [intros Hn c; exact (Hnew env1 key1 m c Hn)|].
intros l1 m1 H1.
pose proof (managerOk_getOrCreateWorkspace _ _ _ _ _ Hok H1) as Hok1.
pose proof (Hreg _ _ _ _ _ H1) as Hreg1.
pose proof (ok_refs m1 Hok1 key1 l1 Hreg1) as Hl1.
split; [exact Hreg1|]. split; [apply lookup_lt_is_Some_2; exact Hl1|].
split; [exact (Hknown env2 key1 m1 l1 Hreg1)|].
intros Hne.
split; [exact (Hknown env2 key2 m1)|].
split; [intros Hn c2; exact (Hnew env2 key2 m1 c2 Hn)|].
intros l2 m2 H2.
pose proof (Hreg _ _ _ _ _ H2) as Hreg2.
pose proof (managerOk_getOrCreateWorkspace _ _ _ _ _ Hok1 H2) as Hok2.
apply getOrCreateWorkspace_cases in H2
  as [(l & Hl & Hr & ->) | (Hnone & ri & c & _ & Hobj & Hri)].
- injection Hr as ->.
  split; [intros E; apply Hne; rewrite E in Hl; exact (ok_distinct m1 Hok1 key2 key1 l1 Hl Hreg1)|].
  split; [exact Hreg1|]. split; [exact Hl|]. split; [reflexivity|].
  apply lookup_lt_is_Some_2. exact (ok_refs m1 Hok1 key2 l Hl).
- destruct ri as [[]|e|]; destruct Hri as [Hr Hw]; try discriminate Hr.
  injection Hr as ->.
  split; [lia|].
  split; [rewrite Hw, lookup_insert_ne by exact Hne; exact Hreg1|].
  split; [exact Hreg2|].
  split; [rewrite Hobj; apply lookup_app_l; exact Hl1|].
  apply lookup_lt_is_Some_2. rewrite Hobj, length_app. cbn. lia.
Qed.

(** C7. When [initialize] throws inside [getOrCreateWorkspace], the call
  throws the same error and the map is what it was, without the key.  In
  general a key that the call adds to the map is the key of the call, and
  its client has returned from [initialize] and is initialized. *)
Theorem getOrCreateWorkspace_registers_after_initialize (env : InitEnv)
  (key : jsstring) (m m1 : TypeScriptWorkspaceManager) (r : Completion nat) :
workspaces m !! key = None ->
Manager.getOrCreateWorkspace JSON_parse env key m = (r, m1) ->
(forall e, fst (initialize JSON_parse env (Client.new key)) = Threw e ->
           r = Threw e /\ workspaces m1 = workspaces m /\ workspaces m1 !! key = None)
/\ (forall k l, workspaces m1 !! k = Some l -> workspaces m !! k = None ->
      k = key /\ r = Returned l
      /\ exists c, objects m1 !! l = Some c /\ initialized c = true
           /\ initialize JSON_parse env (Client.new key) = (Returned tt, c)).
Proof.
intros Hnone H.
apply getOrCreateWorkspace_cases in H
  as [(l & Hl & _) | (_ & ri & c & Hinit & Hobj & Hri)]; [congruence|].
split.
- intros e He. rewrite Hinit in He. cbn [fst] in He. subst ri.
  destruct Hri as [-> Hw]. split; [reflexivity|]. split; [exact Hw|].
  rewrite Hw. exact Hnone.
- intros k l Hl Hk.
  destruct ri as [[]|e|]; destruct Hri as [-> Hw]; rewrite Hw in Hl;
    try congruence.
  apply lookup_insert_Some in Hl as [[<- <-] | [_ Hl]]; [|congruence].
  split; [reflexivity|]. split; [reflexivity|].
  exists c. split; [|split; [exact (initialize_returned _ _ _ _ Hinit) | exact Hinit]].
  rewrite Hobj. rewrite lookup_app_r by reflexivity. rewrite Nat.sub_diag. reflexivity.
Qed.

End ManagerProperties.

Lemma Sample_first :
  Manager.getOrCreateWorkspace Sample.parse Sample.env Sample.key1 Manager.empty
  = (Returned 0%nat,
     {| objects := [Sample.ready]; workspaces := <[Sample.key1 := 0%nat]> ∅ |}).
Proof. vm_compute. reflexivity. Qed.

Lemma Sample_second :
  Manager.getOrCreateWorkspace Sample.parse (Sample.envFor 8 "/tmp/typescript-lsp-1")
    Sample.key2 {| objects := [Sample.ready]; workspaces := <[Sample.key1 := 0%nat]> ∅ |}
  = (Returned 1%nat, Sample.two).
Proof. vm_compute. reflexivity. Qed.

Lemma Sample_again :
  Manager.getOrCreateWorkspace Sample.parse Sample.silentEnv Sample.key1 Sample.two
  = (Returned 0%nat, Sample.two).
Proof. vm_compute. reflexivity. Qed.

Lemma Sample_two_ok : managerOk Sample.two.
Proof.
  eapply managerOk_getOrCreateWorkspace; [|exact Sample_second].
  eapply managerOk_getOrCreateWorkspace; [exact managerOk_empty | exact Sample_first].
Qed.

(** From the empty manager, the root [/ws] gets the new client 0; asking
    again for [/ws] gives the client 0 and leaves the manager as it is,
    asking for [/lib] creates the client 1 and leaves the client 0 as it
    is. *)
Lemma getOrCreateWorkspace_same_key_same_client_witness :
  managerOk Manager.empty
  /\ Manager.getOrCreateWorkspace Sample.parse Sample.env Sample.key1 Manager.empty
     = (Returned 0%nat,
        {| objects := [Sample.ready]; workspaces := <[Sample.key1 := 0%nat]> ∅ |})
  /\ Manager.getOrCreateWorkspace Sample.parse (Sample.envFor 8 "/tmp/typescript-lsp-1")
       Sample.key1
       {| objects := [Sample.ready]; workspaces := <[Sample.key1 := 0%nat]> ∅ |}
     = (Returned 0%nat,
        {| objects := [Sample.ready]; workspaces := <[Sample.key1 := 0%nat]> ∅ |})
  /\ Manager.getOrCreateWorkspace Sample.parse (Sample.envFor 8 "/tmp/typescript-lsp-1")
       Sample.key2
       {| objects := [Sample.ready]; workspaces := <[Sample.key1 := 0%nat]> ∅ |}
     = (Returned 1%nat, Sample.two)
  /\ 1%nat <> 0%nat
  /\ objects Sample.two !! 0%nat = Some Sample.ready
  /\ is_Some (objects Sample.two !! 1%nat).
Proof.
  pose proof (getOrCreateWorkspace_same_key_same_client Sample.parse Sample.env
                (Sample.envFor 8 "/tmp/typescript-lsp-1") Sample.key1 Sample.key2
                Manager.empty managerOk_empty) as (_ & Hcreate & Htwo).
  assert (Hnone : workspaces Manager.empty !! Sample.key1 = None) by reflexivity.
  pose proof (Hcreate Hnone Sample.ready Sample_ready_reached) as Hfirst.
  destruct (Htwo _ _ Hfirst) as (_ & _ & Hsame & Hdiff).
  assert (Hne : Sample.key2 <> Sample.key1) by (vm_compute; discriminate).
  destruct (Hdiff Hne) as (_ & _ & Hdist).
  destruct (Hdist _ _ Sample_second) as (H1 & _ & _ & H3 & H4).
  split; [exact managerOk_empty|]. split; [exact Hfirst|]. split; [exact Hsame|].
  split; [exact Sample_second|]. split; [exact H1|]. split; [exact H3 | exact H4].
Defined.

(** The subprocess for [/lib] never answers the initialize request: the
    call throws the timeout error of [initialize] and the map stays empty. *)
Lemma getOrCreateWorkspace_registers_after_initialize_witness :
  let r := Manager.getOrCreateWorkspace Sample.parse Sample.silentEnv Sample.key2
             Manager.empty in
  fst r = Threw (Error_ (lit "LSP initialize request timeout"))
  /\ workspaces (snd r) = ∅
  /\ workspaces (snd r) !! Sample.key2 = None.
Proof.
  intros r.
  assert (Hnone : workspaces Manager.empty !! Sample.key2 = None) by reflexivity.
  assert (Hr : Manager.getOrCreateWorkspace Sample.parse Sample.silentEnv Sample.key2
                 Manager.empty = (fst r, snd r)) by (vm_compute; reflexivity).
  pose proof (getOrCreateWorkspace_registers_after_initialize Sample.parse Sample.silentEnv
                Sample.key2 Manager.empty (snd r) (fst r) Hnone Hr) as [H _].
  assert (He : fst (initialize Sample.parse Sample.silentEnv (Client.new Sample.key2))
               = Threw (Error_ (lit "LSP initialize request timeout")))
    by (vm_compute; reflexivity).
  destruct (H _ He) as (H1 & H2 & H3).
  split; [exact H1|]. split; [exact H2 | exact H3].
Defined.



(** ** The invariant of the manager is kept by closing *)

Section ManagerInvariant.

Variable JSON_parse : jsstring -> option json.

Lemma shutdownEach_length (during after : nat -> list Event) (clients : list nat)
  (objs : list TypeScriptLSPClient) :
length (snd (Manager.shutdownEach JSON_parse during after clients objs)) = length objs.
Proof.
revert objs. induction clients as [|client rest IH]; intros objs; [reflexivity|].
cbn [Manager.shutdownEach]. destruct (objs !! client) as [c|]; [|apply IH].
destruct (shutdown JSON_parse (during client) (after client) c) as [r c1].
specialize (IH (<[client := c1]> objs)).
destruct (Manager.shutdownEach JSON_parse during after rest (<[client := c1]> objs))
  as [ok objs1].
cbn [snd] in IH |- *. rewrite IH. apply length_insert.
Qed.

Lemma managerOk_closeAll (during after : nat -> list Event)
  (m : TypeScriptWorkspaceManager) :
managerOk m -> managerOk (snd (Manager.closeAll JSON_parse during after m)).
Proof.
intros [Hrefs Hdist]. unfold Manager.closeAll.
pose proof (shutdownEach_length during after (snd <$> map_to_list (workspaces m))
              (objects m)) as Hlen.
destruct (Manager.shutdownEach JSON_parse during after _ (objects m)) as [[] objs];
  cbn [snd] in Hlen |- *.
- split; cbn; intros *; rewrite lookup_empty; discriminate.
- split; cbn; [|exact Hdist]. intros key l Hl. rewrite Hlen. exact (Hrefs key l Hl).
Qed.

Lemma managerOk_closeWorkspace (during after : list Event) (path : jsstring)
  (m : TypeScriptWorkspaceManager) :
managerOk m -> managerOk (snd (Manager.closeWorkspace JSON_parse during after path m)).
Proof.
intros [Hrefs Hdist]. unfold Manager.closeWorkspace.
destruct (workspaces m !! path) as [client|]; [|split; assumption].
destruct (objects m !! client) as [c|]; [|split; assumption].
destruct (shutdown JSON_parse during after c) as [[[]|e|] c1]; cbn [snd];
  split; cbn [objects workspaces]; try rewrite length_insert; try assumption.
- intros key l Hl. apply lookup_delete_Some in Hl as [_ Hl]. exact (Hrefs key l Hl).
- intros k1 k2 l H1 H2. apply lookup_delete_Some in H1 as [_ H1].
  apply lookup_delete_Some in H2 as [_ H2]. exact (Hdist k1 k2 l H1 H2).
Qed.

End ManagerInvariant.

(** ** Framing *)

(** C2. The notification with the parameter ["é"] (one code unit, two
    bytes) is framed as [sendMessage] frames it and its bytes are given to
    the handler of stdout in one chunk: the header counts one more than the
    decoded text has code units, so [processBuffer] waits for a character
    that does not come, and no message is extracted: the client is what it
    was, with the whole frame left in its buffer. *)
Theorem framing_of_non_ascii_payload_stalls (JSON_parse : jsstring -> option json) :
  let payload := notificationMessage (lit "window/logMessage") (JStr [233]) in
  let bytes := Utf8.encode (fullMessage payload) in
  Utf8.decode bytes = fullMessage payload
  /\ Utf8.byteLength (JSON_stringify payload) = S (length (JSON_stringify payload))
  /\ headerMatch (fullMessage payload) = Some (0%nat, lit "60")
  /\ length (fullMessage payload) = (matchedLength (lit "60") + 59)%nat
  /\ onData JSON_parse bytes (Client.new [])
     = set_buffer (fullMessage payload) (Client.new []).
Proof.
  cbv zeta.
  split; [vm_compute; reflexivity|].
  split; [vm_compute; reflexivity|].
  split; [vm_compute; reflexivity|].
  split; vm_compute; reflexivity.
Qed.

(** ** The round trip of an ASCII payload *)

Lemma isPrefixOf_app (p t : jsstring) : isPrefixOf p (p ++ t) = true.
Proof.
  induction p as [|a p IH]; [reflexivity|]. cbn. rewrite N.eqb_refl. exact IH.
Qed.

Lemma isPrefixOf_true (p s : jsstring) :
  isPrefixOf p s = true -> s = p ++ drop (length p) s.
Proof.
  revert s. induction p as [|a p IH]; intros s H; [reflexivity|].
  destruct s as [|b s]; [discriminate H|]. cbn in H.
  apply andb_true_iff in H as [Hab H]. apply N.eqb_eq in Hab. subst b.
  cbn. f_equal. apply IH, H.
Qed.

Lemma takeWhile_app {A} (f : A -> bool) (l : list A) (x : A) (r : list A) :
  Forall (fun a => f a = true) l -> f x = false -> takeWhile f (l ++ x :: r) = l.
Proof.
  intros Hl Hx. induction Hl as [|a l Ha _ IH]; cbn.
  - rewrite Hx. reflexivity.
  - rewrite Ha, IH. reflexivity.
Qed.

Lemma takeWhile_prefix {A} (f : A -> bool) (l : list A) :
  l = takeWhile f l ++ drop (length (takeWhile f l)) l.
Proof.
  induction l as [|a l IH]; [reflexivity|]. cbn.
  destruct (f a); [|reflexivity]. cbn. f_equal. exact IH.
Qed.

(** ASCII text is its own UTF-8 encoding, and the other way round. *)
Lemma encode_ascii (s : jsstring) : Forall (fun u => u < 128) s -> Utf8.encode s = s.
Proof.
  induction 1 as [|c s Hc _ IH]; [reflexivity|]. cbn [Utf8.encode].
  assert (H1 : Utf8.isHighSurrogate c = false).
  { unfold Utf8.isHighSurrogate. apply andb_false_iff. left. apply N.leb_gt. lia. }
  assert (H2 : Utf8.isLowSurrogate c = false).
  { unfold Utf8.isLowSurrogate. apply andb_false_iff. left. apply N.leb_gt. lia. }
  rewrite H1, H2. unfold Utf8.encodeCodePoint.
  destruct (N.ltb_spec c 128); [|lia]. cbn. rewrite IH. reflexivity.
Qed.

Lemma decode_ascii (bytes : list N) :
  Forall (fun u => u < 128) bytes -> Utf8.decode bytes = bytes.
Proof.
  unfold Utf8.decode. induction 1 as [|b bytes Hb _ IH]; [reflexivity|].
  cbn [Utf8.decodeFrom]. unfold Utf8.lead.
  destruct (N.ltb_spec b 128); [|lia]. cbn. rewrite IH. reflexivity.
Qed.

(** The digits of a number. *)
Lemma digitsRev_digits (fuel : nat) (n : N) :
  Forall (fun c => isDigit c = true) (digitsRev fuel n).
Proof.
  revert n. induction fuel as [|fuel IH]; intros n; cbn [digitsRev]; [constructor|].
  destruct (N.ltb_spec n 10).
  - constructor; [|constructor]. unfold isDigit.
    apply andb_true_iff. split; apply N.leb_le; lia.
  - constructor; [|apply IH]. unfold isDigit.
    pose proof (N.mod_lt n 10 ltac:(lia)) as Hm. revert Hm. generalize (n mod 10).
    intros r Hr. apply andb_true_iff. split; apply N.leb_le; lia.
Qed.

Lemma parseInt_rev (digits : jsstring) : parseInt (rev digits) = valueRev digits.
Proof.
  unfold parseInt. induction digits as [|d digits IH]; [reflexivity|].
  cbn [rev valueRev]. rewrite fold_left_app. cbn [fold_left]. rewrite IH. reflexivity.
Qed.

Lemma valueRev_digitsRev (fuel : nat) (n : N) :
  n < 2 ^ N.of_nat fuel -> valueRev (digitsRev fuel n) = n.
Proof.
  revert n. induction fuel as [|fuel IH]; intros n Hn.
  - cbn in Hn. cbn. lia.
  - cbn [digitsRev]. destruct (N.ltb_spec n 10).
    + cbn. lia.
    + cbn [valueRev]. rewrite IH.
      * pose proof (N.div_mod n 10 ltac:(lia)) as Hd.
        pose proof (N.mod_lt n 10 ltac:(lia)) as Hm. revert Hd Hm.
        generalize (n mod 10), (n / 10). intros r q Hd Hm. lia.
      * rewrite Nat2N.inj_succ, N.pow_succ_r' in Hn.
        apply N.Div0.div_lt_upper_bound. lia.
Qed.

Lemma parseInt_ofNumber (n : N) : parseInt (ofNumber n) = n.
Proof.
  unfold ofNumber. rewrite parseInt_rev. apply valueRev_digitsRev.
  rewrite Nat2N.inj_succ, N2Nat.id.
  destruct (N.eq_dec n 0) as [->|Hn]; [reflexivity|].
  apply N.log2_spec. lia.
Qed.

Lemma ofNumber_digits (n : N) : Forall (fun c => isDigit c = true) (ofNumber n).
Proof.
  unfold ofNumber. apply Forall_forall. intros c Hc.
  apply list_elem_of_In, in_rev, list_elem_of_In in Hc.
  pose proof (digitsRev_digits (S (N.to_nat (N.log2 n))) n) as H.
  rewrite Forall_forall in H. exact (H c Hc).
Qed.

Lemma ofNumber_nonempty (n : N) : ofNumber n <> [].
Proof.
  unfold ofNumber. intros H. apply (f_equal (@length N)) in H.
  rewrite length_rev in H. cbn [digitsRev] in H.
  destruct (n <? 10); discriminate H.
Qed.

Lemma headerMatch_eq (s : jsstring) :
  headerMatch s
  = match headerAt s with
    | Some digits => Some (0%nat, digits)
    | None =>
        match s with
        | [] => None
        | _ :: s' => (fun r => (S (fst r), snd r)) <$> headerMatch s'
        end
    end.
Proof. destruct s; reflexivity. Qed.

Lemma headerAt_frame (digits tail : jsstring) :
  Forall (fun c => isDigit c = true) digits -> digits <> [] ->
  headerAt (lit "Content-Length: " ++ digits ++ CRLFCRLF ++ tail) = Some digits.
Proof.
  intros Hd Hne. unfold headerAt. rewrite isPrefixOf_app.
  change 16%nat with (length (lit "Content-Length: ")). rewrite drop_app_length.
  change (CRLFCRLF ++ tail) with (13 :: ([10; 13; 10] ++ tail)).
  rewrite takeWhile_app by (exact Hd || reflexivity).
  destruct digits as [|d digits]; [congruence|].
  rewrite drop_app_length.
  change (13 :: [10; 13; 10] ++ tail) with (CRLFCRLF ++ tail).
  rewrite isPrefixOf_app. reflexivity.
Qed.

Lemma headerAt_contains (s digits : jsstring) :
  headerAt s = Some digits -> exists a b, s = a ++ CRLFCRLF ++ b.
Proof.
  unfold headerAt. destruct (isPrefixOf (lit "Content-Length: ") s) eqn:E1; [|discriminate].
  apply isPrefixOf_true in E1.
  change (length (lit "Content-Length: ")) with 16%nat in E1.
  set (rest := drop 16 s) in *.
  destruct (takeWhile isDigit rest) as [|d ds] eqn:E2; [discriminate|].
  destruct (isPrefixOf CRLFCRLF (drop (length (d :: ds)) rest)) eqn:E3; [|discriminate].
  intros _. apply isPrefixOf_true in E3.
  exists (lit "Content-Length: " ++ d :: ds),
    (drop (length CRLFCRLF) (drop (length (d :: ds)) rest)).
  rewrite <- E3. rewrite <- app_assoc. rewrite E1 at 1. f_equal.
  rewrite <- E2. apply takeWhile_prefix.
Qed.

Lemma headerMatch_contains (s : jsstring) (r : nat * jsstring) :
  headerMatch s = Some r -> exists a b, s = a ++ CRLFCRLF ++ b.
Proof.
  revert r. induction s as [|c s IH]; intros r; rewrite headerMatch_eq.
  - destruct (headerAt []) eqn:E; [|discriminate]. intros _. eapply headerAt_contains, E.
  - destruct (headerAt (c :: s)) eqn:E; [intros _; eapply headerAt_contains, E|].
    destruct (headerMatch s) as [r'|]; [|discriminate]. intros _.
    destruct (IH r' eq_refl) as (a & b & ->). exists (c :: a), b. reflexivity.
Qed.

(** Before the end of the header has arrived there is no match. *)
Lemma headerMatch_incomplete (A P Q : jsstring) :
  13 ∉ A -> P ++ Q = A ++ CRLFCRLF -> Q <> [] -> headerMatch P = None.
Proof.
  intros HA E HQ. destruct (headerMatch P) as [r|] eqn:Em; [|reflexivity]. exfalso.
  apply headerMatch_contains in Em as (a & b & ->).
  assert (Hlen : (length a < length A)%nat).
  { apply (f_equal (@length N)) in E. rewrite !length_app in E. cbn in E.
    destruct Q; [congruence|]. cbn in E. lia. }
  assert (H13 : (A ++ CRLFCRLF) !! length a = Some 13).
  { rewrite <- E, <- !app_assoc. rewrite lookup_app_r by reflexivity.
    rewrite Nat.sub_diag. reflexivity. }
  rewrite lookup_app_l in H13 by exact Hlen.
  apply HA. eapply list_elem_of_lookup_2. exact H13.
Qed.

Lemma digits_no_CR (digits : jsstring) :
  Forall (fun c => isDigit c = true) digits -> 13 ∉ lit "Content-Length: " ++ digits.
Proof.
  intros Hd Hin. apply elem_of_app in Hin as [Hin | Hin].
  - vm_compute in Hin. repeat (apply elem_of_cons in Hin as [Hin | Hin]; [discriminate Hin|]).
    inversion Hin.
  - rewrite Forall_forall in Hd. specialize (Hd 13 Hin). discriminate Hd.
Qed.

Lemma set_buffer_buffer (c : TypeScriptLSPClient) : set_buffer (buffer c) c = c.
Proof. destruct c; reflexivity. Qed.

Section RoundTrip.

Variable JSON_parse : jsstring -> option json.

Lemma processBufferLoop_more (fuel fuel' : nat) (c r : TypeScriptLSPClient) :
processBufferLoop JSON_parse fuel c = Some r -> (fuel <= fuel')%nat ->
processBufferLoop JSON_parse fuel' c = Some r.
Proof.
revert fuel' c. induction fuel as [|fuel IH]; intros fuel' c H Hle; [discriminate H|].
destruct fuel' as [|fuel']; [lia|]. cbn [processBufferLoop] in H |- *.
destruct (headerMatch (buffer c)) as [[i digits]|]; [|exact H].
destruct (N.of_nat (length (buffer c)) <? _); [exact H|].
apply IH; [exact H | lia].
Qed.

Lemma processBuffer_wait (c : TypeScriptLSPClient) :
headerMatch (buffer c) = None -> processBuffer JSON_parse c = c.
Proof. intros H. unfold processBuffer. cbn [processBufferLoop]. rewrite H. reflexivity. Qed.

Lemma processBuffer_short (c : TypeScriptLSPClient) (i : nat) (digits : jsstring) :
headerMatch (buffer c) = Some (i, digits) ->
N.of_nat (length (buffer c)) < N.of_nat (matchedLength digits) + parseInt digits ->
processBuffer JSON_parse c = c.
Proof.
intros H Hlt. unfold processBuffer. cbn [processBufferLoop]. rewrite H.
apply N.ltb_lt in Hlt. rewrite Hlt. reflexivity.
Qed.

Lemma processBuffer_frame (c : TypeScriptLSPClient) (i : nat) (digits : jsstring) :
headerMatch (buffer c) = Some (i, digits) ->
N.of_nat (matchedLength digits) + parseInt digits <= N.of_nat (length (buffer c)) ->
let totalLength := N.to_nat (N.of_nat (matchedLength digits) + parseInt digits) in
let c1 := set_buffer (sliceFrom (buffer c) totalLength) c in
processBuffer JSON_parse c
= processBuffer JSON_parse
    match JSON_parse (slice (buffer c) (matchedLength digits) totalLength) with
    | Some message => handleMessage message c1
    | None => c1
    end.
Proof.
intros H Hge totalLength c1.
pose proof (processBuffer_loop JSON_parse c) as E.
cbn [processBufferLoop] in E. rewrite H in E.
apply N.ltb_ge in Hge. rewrite Hge in E. fold totalLength c1 in E.
set (c2 := match JSON_parse _ with Some message => handleMessage message c1 | None => c1 end)
  in *.
pose proof (processBuffer_loop JSON_parse c2) as E2.
assert (Hb : buffer c2 = sliceFrom (buffer c) totalLength).
{ unfold c2. destruct (JSON_parse _); [rewrite handleMessage_buffer|]; reflexivity. }
assert (Hle : (S (length (buffer c2)) <= length (buffer c))%nat).
{ rewrite Hb. unfold sliceFrom. rewrite length_drop.
  apply N.ltb_ge in Hge. unfold totalLength, matchedLength in *. lia. }
pose proof (processBufferLoop_more _ _ _ _ E2 Hle) as E3.
congruence.
Qed.

End RoundTrip.

Section RoundTripChunks.

Variable JSON_parse : jsstring -> option json.
Variable payload : json.
Hypothesis payload_ascii : Forall (fun u => u < 128) (JSON_stringify payload).
Hypothesis payload_parses : JSON_parse (JSON_stringify payload) = Some payload.

Let body : jsstring := JSON_stringify payload.
Let digits : jsstring := ofNumber (N.of_nat (Utf8.byteLength body)).
Let header : jsstring := lit "Content-Length: " ++ digits ++ CRLFCRLF.

Lemma frame_split : fullMessage payload = header ++ body.
Proof. unfold fullMessage, header, digits, body. rewrite <- !app_assoc. reflexivity. Qed.

Lemma body_bytes : Utf8.byteLength body = length body.
Proof. unfold Utf8.byteLength, body. rewrite encode_ascii by exact payload_ascii. reflexivity. Qed.

Lemma header_length : length header = matchedLength digits.
Proof.
unfold header, matchedLength. rewrite !length_app.
change (length (lit "Content-Length: ")) with 16%nat.
change (length CRLFCRLF) with 4%nat. lia.
Qed.

Lemma digits_value : parseInt digits = N.of_nat (length body).
Proof. unfold digits. rewrite parseInt_ofNumber, body_bytes. reflexivity. Qed.

Lemma frame_ascii : Forall (fun u => u < 128) (fullMessage payload).
Proof.
rewrite frame_split. unfold header. rewrite !Forall_app.
repeat split.
- vm_compute. repeat constructor.
- pose proof (ofNumber_digits (N.of_nat (Utf8.byteLength body))) as H.
  eapply Forall_impl; [exact H|]. intros c Hc. cbn in Hc. unfold isDigit in Hc.
  apply andb_true_iff in Hc as [_ Hc]. apply N.leb_le in Hc. lia.
- repeat constructor.
- exact payload_ascii.
Qed.

Lemma frame_match (tail : jsstring) : headerMatch (header ++ tail) = Some (0%nat, digits).
Proof.
rewrite headerMatch_eq. unfold header. rewrite <- !app_assoc.
rewrite headerAt_frame; [reflexivity | apply ofNumber_digits | apply ofNumber_nonempty].
Qed.

(** While a part of the frame is missing, [processBuffer] leaves the
  buffer as it is. *)
Lemma processBuffer_partial (P Q : jsstring) (c : TypeScriptLSPClient) :
P ++ Q = fullMessage payload -> Q <> [] ->
processBuffer JSON_parse (set_buffer P c) = set_buffer P c.
Proof.
intros E HQ. rewrite frame_split in E.
destruct (Nat.lt_ge_cases (length P) (length header)) as [Hlt | Hge].
- apply processBuffer_wait. cbn [set_buffer buffer].
  apply (headerMatch_incomplete (lit "Content-Length: " ++ digits) P
           (drop (length P) header)).
  + apply digits_no_CR, ofNumber_digits.
  + assert (EP : P = take (length P) header).
    { apply (f_equal (take (length P))) in E.
      rewrite take_app_length in E. rewrite take_app_le in E by lia. exact E. }
    rewrite EP at 1. rewrite take_drop. unfold header. rewrite <- app_assoc. reflexivity.
  + intros H. apply (f_equal (@length N)) in H. rewrite length_drop in H. cbn in H. lia.
- assert (EP : P = header ++ drop (length header) P).
  { apply (f_equal (take (length header))) in E.
    rewrite take_app_length in E. rewrite take_app_le in E by lia.
    rewrite <- E at 1. apply eq_sym, take_drop. }
  apply (processBuffer_short JSON_parse _ 0%nat digits); cbn [set_buffer buffer].
  + rewrite EP. apply frame_match.
  + rewrite digits_value, <- header_length.
    apply (f_equal (@length N)) in E. rewrite !length_app in E.
    destruct Q; [congruence|]. cbn in E. lia.
Qed.

(** When the last part has arrived, the one message is parsed and handled,
  and the buffer is empty. *)
Lemma processBuffer_complete (c : TypeScriptLSPClient) :
processBuffer JSON_parse (set_buffer (fullMessage payload) c)
= handleMessage payload (set_buffer [] c).
Proof.
assert (Hlen : length (fullMessage payload) = (matchedLength digits + length body)%nat).
{ rewrite frame_split, length_app, header_length. reflexivity. }
assert (Htotal : N.to_nat (N.of_nat (matchedLength digits) + parseInt digits)
                 = length (fullMessage payload)).
{ rewrite digits_value, Hlen. lia. }
rewrite (processBuffer_frame JSON_parse _ 0%nat digits); cbn [set_buffer buffer].
- rewrite Htotal. unfold slice, sliceFrom.
  rewrite drop_all. rewrite <- header_length.
  rewrite frame_split at 2. rewrite drop_app_length.
  rewrite Hlen, <- header_length.
  replace (length header + length body - length header)%nat with (length body) by lia.
  rewrite firstn_all. change (JSON_parse body) with (JSON_parse (JSON_stringify payload)).
  rewrite payload_parses.
  apply processBuffer_wait. rewrite handleMessage_buffer. reflexivity.
- rewrite frame_split. apply frame_match.
- rewrite digits_value, Hlen. lia.
Qed.

Lemma onData_nothing (c : TypeScriptLSPClient) :
buffer c = [] -> onData JSON_parse [] c = c.
Proof.
intros H. unfold onData. change (Utf8.decode []) with (@nil N).
rewrite app_nil_r, set_buffer_buffer. apply processBuffer_wait. rewrite H. reflexivity.
Qed.

Lemma run_nothing (chunks : list (list N)) (c : TypeScriptLSPClient) :
concat chunks = [] -> buffer c = [] -> run JSON_parse (Data <$> chunks) c = c.
Proof.
induction chunks as [|chunk chunks IH]; intros E Hb; [reflexivity|].
cbn in E. apply app_eq_nil in E as [-> E].
cbn [fmap list_fmap run fold_left step]. rewrite onData_nothing by exact Hb.
apply IH; assumption.
Qed.

Lemma run_chunks (chunks : list (list N)) (P : jsstring) (c : TypeScriptLSPClient) :
P ++ concat chunks = fullMessage payload ->
(length P < length (fullMessage payload))%nat ->
run JSON_parse (Data <$> chunks) (set_buffer P c)
= handleMessage payload (set_buffer [] c).
Proof.
revert P. induction chunks as [|chunk chunks IH]; intros P E Hlt.
- cbn in E. rewrite app_nil_r in E. subst P. lia.
- cbn [concat] in E. rewrite app_assoc in E.
  assert (Hchunk : Forall (fun u => u < 128) chunk).
  { pose proof frame_ascii as Hf. rewrite <- E in Hf.
    apply Forall_app in Hf as [Hf _]. apply Forall_app in Hf as [_ Hf]. exact Hf. }
  cbn [fmap list_fmap run fold_left step].
  unfold onData at 1. cbn [set_buffer buffer]. rewrite decode_ascii by exact Hchunk.
  change (set_buffer (P ++ chunk) (set_buffer P c)) with (set_buffer (P ++ chunk) c).
  destruct (Nat.lt_ge_cases (length (P ++ chunk)) (length (fullMessage payload)))
    as [Hlt' | Hge].
  + rewrite (processBuffer_partial (P ++ chunk) (concat chunks)).
    * apply IH; assumption.
    * exact E.
    * intros Hnil. rewrite Hnil, app_nil_r in E. rewrite E in Hlt'. lia.
  + assert (Hnil : concat chunks = []).
    { apply (f_equal (@length N)) in E. rewrite length_app in E.
      apply length_zero_iff_nil. lia. }
    rewrite Hnil, app_nil_r in E. rewrite E, processBuffer_complete.
    apply run_nothing; [exact Hnil|]. apply handleMessage_buffer.
Qed.

(** The round trip, for an ASCII payload: the frame that [sendMessage]
  writes, cut into chunks in any way and given to the handler of stdout
  chunk by chunk, makes the client handle exactly the payload, once, and
  leaves the buffer empty. *)
Lemma ascii_round_trip (chunks : list (list N)) (c : TypeScriptLSPClient) :
concat chunks = Utf8.encode (fullMessage payload) ->
buffer c = [] ->
run JSON_parse (Data <$> chunks) c = handleMessage payload c.
Proof.
intros E Hb. rewrite encode_ascii in E by exact frame_ascii.
rewrite <- (set_buffer_buffer c) at 1. rewrite Hb.
rewrite (run_chunks chunks [] c).
- rewrite <- Hb, set_buffer_buffer. reflexivity.
- exact E.
- rewrite frame_split, length_app, header_length. unfold matchedLength. cbn. lia.
Qed.

End RoundTripChunks.
(** ** Frames with any ASCII body *)

Lemma handleMessage_set_buffer (m : json) (b : jsstring) (c : TypeScriptLSPClient) :
  handleMessage m (set_buffer b c) = set_buffer b (handleMessage m c).
Proof.
  unfold handleMessage, pendingGet. cbn [pendingRequests set_buffer clock].
  destruct m; try reflexivity;
    repeat (case_match; try reflexivity).
Qed.

Lemma deliver_set_buffer (JSON_parse : jsstring -> option json) (text b : jsstring)
    (c : TypeScriptLSPClient) :
  deliver JSON_parse text (set_buffer b c) = set_buffer b (deliver JSON_parse text c).
Proof.
  unfold deliver. destruct (JSON_parse text); [apply handleMessage_set_buffer | reflexivity].
Qed.

Lemma deliver_buffer (JSON_parse : jsstring -> option json) (text : jsstring)
    (c : TypeScriptLSPClient) :
  buffer (deliver JSON_parse text c) = buffer c.
Proof.
  unfold deliver. destruct (JSON_parse text); [apply handleMessage_buffer | reflexivity].
Qed.

Lemma deliver_all_buffer (JSON_parse : jsstring -> option json) (bodies : list jsstring)
    (c : TypeScriptLSPClient) :
  buffer (fold_left (fun c body => deliver JSON_parse body c) bodies c) = buffer c.
Proof.
  revert c. induction bodies as [|b bodies IH]; intros c; [reflexivity|].
  cbn [fold_left]. rewrite IH. apply deliver_buffer.
Qed.

Lemma set_buffer_twice (a b : jsstring) (c : TypeScriptLSPClient) :
  set_buffer a (set_buffer b c) = set_buffer a c.
Proof. reflexivity. Qed.

Lemma frameOf_fullMessage (message : json) :
  fullMessage message = frameOf (JSON_stringify message).
Proof. reflexivity. Qed.

Lemma encode_app_ascii (a b : jsstring) :
  Forall (fun u => u < 128) a -> Utf8.encode (a ++ b) = a ++ Utf8.encode b.
Proof.
  induction 1 as [|x a Hx Ha IH]; [reflexivity|].
  cbn [app Utf8.encode].
  assert (H1 : Utf8.isHighSurrogate x = false).
  { unfold Utf8.isHighSurrogate. apply andb_false_iff. left. apply N.leb_gt. lia. }
  assert (H2 : Utf8.isLowSurrogate x = false).
  { unfold Utf8.isLowSurrogate. apply andb_false_iff. left. apply N.leb_gt. lia. }
  rewrite H1, H2. unfold Utf8.encodeCodePoint.
  assert (H3 : (x <? 128) = true) by (apply N.ltb_lt; exact Hx).
  rewrite H3. cbn [app]. rewrite IH. reflexivity.
Qed.

Lemma header_ascii (n : N) :
  Forall (fun u => u < 128) (lit "Content-Length: " ++ ofNumber n ++ CRLFCRLF).
Proof.
  rewrite !Forall_app. split; [|split].
  - vm_compute. repeat constructor.
  - pose proof (ofNumber_digits n) as H.
    eapply Forall_impl; [exact H|]. intros c Hc. cbn in Hc. unfold isDigit in Hc.
    apply andb_true_iff in Hc as [_ Hc]. apply N.leb_le in Hc. lia.
  - repeat constructor.
Qed.

Lemma header_matchedLength (n : N) :
  length (lit "Content-Length: " ++ ofNumber n ++ CRLFCRLF) = matchedLength (ofNumber n).
Proof.
  unfold matchedLength. rewrite !length_app.
  change (length (lit "Content-Length: ")) with 16%nat.
  change (length CRLFCRLF) with 4%nat. lia.
Qed.

Lemma frameOf_split (body : jsstring) :
  frameOf body
  = (lit "Content-Length: " ++ ofNumber (N.of_nat (Utf8.byteLength body)) ++ CRLFCRLF)
    ++ body.
Proof. unfold frameOf. rewrite <- !app_assoc. reflexivity. Qed.

Lemma frameOf_match (body tail : jsstring) :
  headerMatch (frameOf body ++ tail)
  = Some (0%nat, ofNumber (N.of_nat (Utf8.byteLength body))).
Proof.
  rewrite headerMatch_eq. unfold frameOf. rewrite <- !app_assoc.
  rewrite headerAt_frame; [reflexivity | apply ofNumber_digits | apply ofNumber_nonempty].
Qed.

Lemma frameOf_length (body : jsstring) :
  length (frameOf body)
  = (matchedLength (ofNumber (N.of_nat (Utf8.byteLength body))) + length body)%nat.
Proof. rewrite frameOf_split, length_app, header_matchedLength. reflexivity. Qed.

Lemma frameOf_ascii (body : jsstring) :
  Forall (fun u => u < 128) body -> Forall (fun u => u < 128) (frameOf body).
Proof.
  intros H. rewrite frameOf_split. apply Forall_app. split; [apply header_ascii | exact H].
Qed.

Lemma stream_ascii (bodies : list jsstring) :
  Forall (Forall (fun u => u < 128)) bodies -> Forall (fun u => u < 128) (stream bodies).
Proof.
  induction 1 as [|b bodies Hb _ IH]; [constructor|].
  unfold stream. cbn [fmap list_fmap concat]. apply Forall_app. split.
  - apply frameOf_ascii, Hb.
  - exact IH.
Qed.

Lemma stream_cons (body : jsstring) (bodies : list jsstring) :
  stream (body :: bodies) = frameOf body ++ stream bodies.
Proof. reflexivity. Qed.

Lemma stream_app (xs ys : list jsstring) : stream (xs ++ ys) = stream xs ++ stream ys.
Proof. unfold stream. rewrite fmap_app, concat_app. reflexivity. Qed.

Lemma ascii_byteLength (body : jsstring) :
  Forall (fun u => u < 128) body -> Utf8.byteLength body = length body.
Proof. intros H. unfold Utf8.byteLength. rewrite encode_ascii by exact H. reflexivity. Qed.

Section AsciiFrames.

Variable JSON_parse : jsstring -> option json.

(** A complete frame at the start of the buffer is taken out and its body
  delivered. *)
Lemma processBuffer_consume (body tail : jsstring) (c : TypeScriptLSPClient) :
Forall (fun u => u < 128) body ->
processBuffer JSON_parse (set_buffer (frameOf body ++ tail) c)
= processBuffer JSON_parse (set_buffer tail (deliver JSON_parse body c)).
Proof.
intros Hascii.
set (digits := ofNumber (N.of_nat (Utf8.byteLength body))).
assert (Hv : parseInt digits = N.of_nat (length body)).
{ unfold digits. rewrite parseInt_ofNumber, ascii_byteLength by exact Hascii. reflexivity. }
assert (Hlen : length (frameOf body) = (matchedLength digits + length body)%nat)
  by apply frameOf_length.
assert (Htotal : N.to_nat (N.of_nat (matchedLength digits) + parseInt digits)
                 = length (frameOf body)).
{ rewrite Hv, Hlen. lia. }
rewrite (processBuffer_frame JSON_parse _ 0%nat digits); cbn [set_buffer buffer].
- rewrite Htotal. unfold slice, sliceFrom.
  rewrite drop_app_length.
  assert (E : take (length (frameOf body) - matchedLength digits)
                (drop (matchedLength digits) (frameOf body ++ tail)) = body).
  { subst digits. rewrite frameOf_split at 2. rewrite <- app_assoc.
    rewrite <- (header_matchedLength (N.of_nat (Utf8.byteLength body))).
    rewrite drop_app_length. rewrite Hlen.
    rewrite <- (header_matchedLength (N.of_nat (Utf8.byteLength body))).
    match goal with |- take (?a + ?b - ?a) _ = _ =>
      replace (a + b - a)%nat with b by lia end.
    apply take_app_length. }
  rewrite E. rewrite <- deliver_set_buffer. unfold deliver.
  destruct (JSON_parse body); reflexivity.
- apply frameOf_match.
- rewrite Hv, length_app, Hlen. lia.
Qed.

(** While a part of the frame is missing, nothing is taken out. *)
Lemma processBuffer_incomplete (body P Q : jsstring) (c : TypeScriptLSPClient) :
Forall (fun u => u < 128) body ->
P ++ Q = frameOf body -> Q <> [] ->
processBuffer JSON_parse (set_buffer P c) = set_buffer P c.
Proof.
intros Hascii E HQ.
set (digits := ofNumber (N.of_nat (Utf8.byteLength body))).
set (header := lit "Content-Length: " ++ digits ++ CRLFCRLF).
assert (Hh : length header = matchedLength digits) by apply header_matchedLength.
rewrite frameOf_split in E. fold digits in E. fold header in E.
destruct (Nat.lt_ge_cases (length P) (length header)) as [Hlt | Hge].
- apply processBuffer_wait. cbn [set_buffer buffer].
  apply (headerMatch_incomplete (lit "Content-Length: " ++ digits) P
           (drop (length P) header)).
  + apply digits_no_CR, ofNumber_digits.
  + assert (EP : P = take (length P) header).
    { apply (f_equal (take (length P))) in E.
      rewrite take_app_length in E. rewrite take_app_le in E by lia. exact E. }
    rewrite EP at 1. rewrite take_drop. unfold header. rewrite <- app_assoc. reflexivity.
  + intros H. apply (f_equal (@length N)) in H. rewrite length_drop in H. cbn in H. lia.
- assert (EP : P = header ++ drop (length header) P).
  { apply (f_equal (take (length header))) in E.
    rewrite take_app_length in E. rewrite take_app_le in E by lia.
    rewrite <- E at 1. apply eq_sym, take_drop. }
  apply (processBuffer_short JSON_parse _ 0%nat digits); cbn [set_buffer buffer].
  + rewrite EP. unfold header. rewrite <- !app_assoc.
    rewrite headerMatch_eq, headerAt_frame;
      [reflexivity | apply ofNumber_digits | apply ofNumber_nonempty].
  + unfold digits at 2. rewrite parseInt_ofNumber, ascii_byteLength by exact Hascii.
    rewrite <- Hh.
    apply (f_equal (@length N)) in E. rewrite !length_app in E.
    destruct Q; [congruence|]. cbn in E. lia.
Qed.

(** The part of a stream that has arrived: the complete frames are
  delivered in their order, the beginning of the next one stays in the
  buffer. *)
Lemma processBuffer_stream (todo : list jsstring) (B Q : jsstring)
  (c : TypeScriptLSPClient) :
Forall (Forall (fun u => u < 128)) todo ->
B ++ Q = stream todo ->
exists done rest P,
  todo = done ++ rest /\ B = stream done ++ P
  /\ match rest with
     | [] => P = []
     | body :: _ => (length P < length (frameOf body))%nat
     end
  /\ processBuffer JSON_parse (set_buffer B c)
     = set_buffer P (fold_left (fun c body => deliver JSON_parse body c) done c).
Proof.
intros Hascii. revert B Q c.
induction Hascii as [|body todo Hbody Htodo IH]; intros B Q c E.
- unfold stream in E. cbn in E. apply app_eq_nil in E as [-> ->].
  exists [], [], []. split; [reflexivity|]. split; [reflexivity|]. split; [reflexivity|].
  apply processBuffer_wait. reflexivity.
- rewrite stream_cons in E.
  destruct (Nat.lt_ge_cases (length B) (length (frameOf body))) as [Hlt | Hge].
  + exists [], (body :: todo), B.
    split; [reflexivity|]. split; [reflexivity|]. split; [exact Hlt|].
    apply (processBuffer_incomplete body B (drop (length B) (frameOf body)));
      [exact Hbody | |].
    * apply (f_equal (take (length B))) in E as E1.
      rewrite take_app_length in E1. rewrite take_app_le in E1 by lia.
      rewrite E1 at 1. apply take_drop.
    * intros H. apply (f_equal (@length N)) in H. rewrite length_drop in H.
      cbn in H. lia.
  + assert (EB : B = frameOf body ++ drop (length (frameOf body)) B).
    { apply (f_equal (take (length (frameOf body)))) in E as E1.
      rewrite take_app_length in E1. rewrite take_app_le in E1 by lia.
      rewrite <- E1 at 1. apply eq_sym, take_drop. }
    set (B' := drop (length (frameOf body)) B) in *.
    assert (E' : B' ++ Q = stream todo).
    { rewrite EB, <- app_assoc in E. apply app_inv_head in E. exact E. }
    destruct (IH B' Q (deliver JSON_parse body c) E') as (done & rest & P & E1 & E2 & HP & Hr).
    exists (body :: done), rest, P. split; [|split; [|split]].
    * rewrite E1. reflexivity.
    * rewrite EB, stream_cons, E2, app_assoc. reflexivity.
    * exact HP.
    * rewrite EB, processBuffer_consume by exact Hbody. rewrite Hr. reflexivity.
Qed.

Lemma run_stream (chunks : list (list N)) (todo : list jsstring) (P : jsstring)
  (c : TypeScriptLSPClient) :
Forall (Forall (fun u => u < 128)) todo ->
P ++ concat chunks = stream todo ->
match todo with
| [] => P = []
| body :: _ => (length P < length (frameOf body))%nat
end ->
run JSON_parse (Data <$> chunks) (set_buffer P c)
= set_buffer [] (fold_left (fun c body => deliver JSON_parse body c) todo c).
Proof.
revert todo P c. induction chunks as [|chunk chunks IH]; intros todo P c Hascii E HP.
- cbn in E. rewrite app_nil_r in E.
  destruct todo as [|body todo].
  + subst P. reflexivity.
  + exfalso. rewrite E, stream_cons, length_app in HP. lia.
- cbn [concat] in E. rewrite app_assoc in E.
  assert (Hchunk : Forall (fun u => u < 128) chunk).
  { pose proof (stream_ascii todo Hascii) as Hf. rewrite <- E in Hf.
    apply Forall_app in Hf as [Hf _]. apply Forall_app in Hf as [_ Hf]. exact Hf. }
  cbn [fmap list_fmap run fold_left step].
  unfold onData at 1. cbn [set_buffer buffer]. rewrite decode_ascii by exact Hchunk.
  change (set_buffer (P ++ chunk) (set_buffer P c)) with (set_buffer (P ++ chunk) c).
  destruct (processBuffer_stream todo (P ++ chunk) (concat chunks) c Hascii E)
    as (done & rest & P' & E1 & E2 & HP' & Hr).
  rewrite Hr.
  change (fold_left (fun c e => step JSON_parse e c) (Data <$> chunks)
            (set_buffer P' (fold_left (fun c body => deliver JSON_parse body c) done c)))
    with (run JSON_parse (Data <$> chunks)
            (set_buffer P' (fold_left (fun c body => deliver JSON_parse body c) done c))).
  rewrite (IH rest P').
  + rewrite E1, fold_left_app. reflexivity.
  + rewrite E1 in Hascii. apply Forall_app in Hascii as [_ H]. exact H.
  + rewrite E1, stream_app, E2, <- app_assoc in E. apply app_inv_head in E. exact E.
  + exact HP'.
Qed.

End AsciiFrames.
Lemma frameOf_nonempty (body : jsstring) : (0 < length (frameOf body))%nat.
Proof. rewrite frameOf_length. unfold matchedLength. lia. Qed.

(** X1: any sequence of frames with ASCII bodies, cut into chunks at any
    places, is taken apart again by the handler of stdout of a client whose
    buffer is empty: the bodies are
    delivered one by one in the order of the stream, a body that
    [JSON.parse] rejects is dropped without disturbing the ones after it,
    and the buffer is empty at the end. *)
Theorem ascii_stream_delivered_in_order (JSON_parse : jsstring -> option json)
    (bodies : list jsstring) (chunks : list (list N)) (c : TypeScriptLSPClient) :
  Forall (Forall (fun u => u < 128)) bodies ->
  concat chunks = Utf8.encode (stream bodies) ->
  buffer c = [] ->
  run JSON_parse (Data <$> chunks) c
  = fold_left (fun c body => deliver JSON_parse body c) bodies c
  /\ buffer (run JSON_parse (Data <$> chunks) c) = [].
Proof.
  intros Hascii E Hb.
  rewrite encode_ascii in E by (apply stream_ascii, Hascii).
  assert (R : run JSON_parse (Data <$> chunks) c
              = fold_left (fun c body => deliver JSON_parse body c) bodies c).
  { rewrite <- (set_buffer_buffer c) at 1. rewrite Hb.
    rewrite (run_stream JSON_parse chunks bodies [] c Hascii E).
    - rewrite <- (set_buffer_buffer (fold_left _ bodies c)) at 2.
      rewrite deliver_all_buffer, Hb. reflexivity.
    - destruct bodies; [reflexivity | apply frameOf_nonempty]. }
  split; [exact R|]. rewrite R, deliver_all_buffer. exact Hb.
Qed.

Lemma ascii_stream_delivered_in_order_witness :
  let c := snd (sendRequest Sample.hover JNull Sample.ready) in
  let bodies := [JSON_stringify Sample.secondResult; lit "{oops";
                 JSON_stringify Sample.initializeResult] in
  let bytes := Utf8.encode (stream bodies) in
  let chunks := [take 30 bytes; []; take 70 (drop 30 bytes); drop 100 bytes] in
  Forall (Forall (fun u => u < 128)) bodies
  /\ concat chunks = Utf8.encode (stream bodies)
  /\ buffer c = []
  /\ run Sample.parse (Data <$> chunks) c
     = fold_left (fun c body => deliver Sample.parse body c) bodies c
  /\ buffer (run Sample.parse (Data <$> chunks) c) = [].
Proof.
  intros c bodies bytes chunks.
  assert (H1 : Forall (Forall (fun u => u < 128)) bodies).
  { apply Forall_forall. intros body Hbody. apply Forall_forall. intros u Hu.
    apply list_elem_of_In in Hbody, Hu.
    repeat (destruct Hbody as [<- | Hbody];
            [vm_compute in Hu; repeat (destruct Hu as [<- | Hu]; [reflexivity|]);
             destruct Hu |]).
    destruct Hbody. }
  assert (H2 : concat chunks = Utf8.encode (stream bodies)) by (vm_compute; reflexivity).
  assert (H3 : buffer c = []) by (vm_compute; reflexivity).
  split; [exact H1|]. split; [exact H2|]. split; [exact H3|].
  exact (ascii_stream_delivered_in_order Sample.parse bodies chunks c H1 H2 H3).
Defined.

Lemma headerAt_stray (x : N) (t : jsstring) :
  headerAt (x :: lit "Content-Length: " ++ t) = None.
Proof.
  unfold headerAt.
  assert (H : isPrefixOf (lit "Content-Length: ") (x :: lit "Content-Length: " ++ t)
              = false).
  { change (lit "Content-Length: ") with (67 :: 111 :: lit "ntent-Length: ").
    cbn [isPrefixOf app]. destruct (67 =? x); reflexivity. }
  rewrite H. reflexivity.
Qed.

(** X2: one stray character in front of a frame moves the window that
    [processBuffer] cuts out by one place: the match of the header is found
    at index 1, but the body is sliced as if it had been found at index 0.
    The text that is parsed is the line feed that ends the header followed
    by the body without its last character, and that last character stays
    in the buffer, in front of whatever comes next. *)
Theorem stray_character_shifts_frame (JSON_parse : jsstring -> option json)
    (x : N) (body tail : jsstring) (c : TypeScriptLSPClient) :
  Forall (fun u => u < 128) body ->
  headerMatch (x :: frameOf body ++ tail)
  = Some (1%nat, ofNumber (N.of_nat (Utf8.byteLength body)))
  /\ processBuffer JSON_parse (set_buffer (x :: frameOf body ++ tail) c)
     = processBuffer JSON_parse
         (set_buffer (drop (length body) (10 :: body) ++ tail)
            (deliver JSON_parse (take (length body) (10 :: body)) c)).
Proof.
  intros Hascii.
  set (digits := ofNumber (N.of_nat (Utf8.byteLength body))).
  assert (Hm : headerMatch (x :: frameOf body ++ tail) = Some (1%nat, digits)).
  { rewrite headerMatch_eq.
    assert (H0 : headerAt (x :: frameOf body ++ tail) = None).
    { unfold frameOf. rewrite <- !app_assoc. apply headerAt_stray. }
    rewrite H0, frameOf_match. reflexivity. }
  split; [exact Hm|].
  assert (Hv : parseInt digits = N.of_nat (length body)).
  { unfold digits. rewrite parseInt_ofNumber, ascii_byteLength by exact Hascii. reflexivity. }
  assert (Hlen : length (frameOf body) = (matchedLength digits + length body)%nat)
    by apply frameOf_length.
  assert (Htotal : N.to_nat (N.of_nat (matchedLength digits) + parseInt digits)
                   = (matchedLength digits + length body)%nat).
  { rewrite Hv. lia. }
  set (start := x :: lit "Content-Length: " ++ digits ++ [13; 10; 13]).
  assert (Hs : length start = matchedLength digits).
  { unfold start, matchedLength. cbn [length]. rewrite !length_app.
    change (length (lit "Content-Length: ")) with 16%nat. cbn [length]. lia. }
  assert (Hsplit : x :: frameOf body ++ tail = start ++ (10 :: body) ++ tail).
  { unfold start, frameOf, CRLFCRLF. subst digits. cbn [app].
    rewrite <- !app_assoc. reflexivity. }
  rewrite (processBuffer_frame JSON_parse _ 1%nat digits); cbn [set_buffer buffer].
  - rewrite Htotal. unfold slice, sliceFrom. rewrite Hsplit, <- Hs.
    rewrite drop_app_length.
    replace (length start + length body - length start)%nat with (length body) by lia.
    rewrite take_app_le by (cbn [length]; lia).
    rewrite drop_app_ge by lia.
    replace (length start + length body - length start)%nat with (length body) by lia.
    rewrite drop_app_le by (cbn [length]; lia).
    rewrite <- deliver_set_buffer. unfold deliver.
    destruct (JSON_parse (take (length body) (10 :: body))); reflexivity.
  - exact Hm.
  - rewrite Hv. cbn [length]. rewrite length_app, Hlen. lia.
Qed.

Lemma stray_character_shifts_frame_witness :
  let body := JSON_stringify Sample.secondResult in
  Forall (fun u => u < 128) body
  /\ headerMatch (32 :: frameOf body ++ frameOf body)
     = Some (1%nat, ofNumber (N.of_nat (Utf8.byteLength body)))
  /\ processBuffer Sample.parse
       (set_buffer (32 :: frameOf body ++ frameOf body) Sample.ready)
     = processBuffer Sample.parse
         (set_buffer (drop (length body) (10 :: body) ++ frameOf body)
            (deliver Sample.parse (take (length body) (10 :: body)) Sample.ready)).
Proof.
  intros body.
  assert (H1 : Forall (fun u => u < 128) body).
  { apply Forall_forall. intros u Hu. apply list_elem_of_In in Hu.
    vm_compute in Hu. repeat (destruct Hu as [<- | Hu]; [reflexivity|]). destruct Hu. }
  split; [exact H1|].
  exact (stray_character_shifts_frame Sample.parse 32 body (frameOf body) Sample.ready H1).
Defined.

(** X3: the frame that [sendMessage] writes is exact for every message,
    ASCII or not: the header is found at the start of the text, the number
    it gives is the number of bytes of the JSON text on the pipe, and the
    bytes after the header are the encoded JSON text. *)
Theorem fullMessage_header_counts_bytes (message : json) :
  let text := JSON_stringify message in
  let digits := ofNumber (N.of_nat (Utf8.byteLength text)) in
  let bytes := Utf8.encode (fullMessage message) in
  headerMatch (fullMessage message) = Some (0%nat, digits)
  /\ parseInt digits = N.of_nat (length (Utf8.encode text))
  /\ drop (matchedLength digits) bytes = Utf8.encode text
  /\ length bytes = (matchedLength digits + length (Utf8.encode text))%nat.
Proof.
  intros text digits bytes.
  assert (Hb : bytes
               = (lit "Content-Length: " ++ digits ++ CRLFCRLF) ++ Utf8.encode text).
  { unfold bytes. rewrite frameOf_fullMessage, frameOf_split.
    apply encode_app_ascii, header_ascii. }
  split; [|split; [|split]].
  - rewrite frameOf_fullMessage, <- (app_nil_r (frameOf _)). apply frameOf_match.
  - unfold digits. rewrite parseInt_ofNumber. reflexivity.
  - rewrite Hb. unfold digits. rewrite <- header_matchedLength. apply drop_app_length.
  - rewrite Hb, length_app. unfold digits. rewrite header_matchedLength. reflexivity.
Qed.

Section FramerLoop.

Variable JSON_parse : jsstring -> option json.

Lemma processBufferLoop_shrinks (fuel : nat) (c r : TypeScriptLSPClient) :
processBufferLoop JSON_parse fuel c = Some r ->
(length (buffer r) <= length (buffer c))%nat.
Proof.
revert c. induction fuel as [|fuel IH]; intros c H; [discriminate|].
cbn [processBufferLoop] in H.
destruct (headerMatch (buffer c)) as [[i digits]|]; [|injection H as <-; lia].
destruct (N.of_nat (length (buffer c))
          <? N.of_nat (matchedLength digits) + parseInt digits);
  [injection H as <-; lia|].
apply IH in H. etransitivity; [exact H|].
match goal with |- (length (buffer ?x) <= _)%nat =>
  assert (Hx : buffer x = sliceFrom (buffer c)
                 (N.to_nat (N.of_nat (matchedLength digits) + parseInt digits))) end.
{ destruct (JSON_parse _); [rewrite handleMessage_buffer|]; reflexivity. }
rewrite Hx. unfold sliceFrom. rewrite length_drop. lia.
Qed.

(** X4: the loop of [processBuffer], a [while (true)] in the source,
  ends on every buffer: as many turns as the buffer has characters, and
  one more, are always enough, more turns change nothing, and the buffer
  is never longer afterwards than before. *)
Theorem processBuffer_terminates (c : TypeScriptLSPClient) :
exists r,
  processBufferLoop JSON_parse (S (length (buffer c))) c = Some r
  /\ processBuffer JSON_parse c = r
  /\ (length (buffer r) <= length (buffer c))%nat
  /\ forall fuel, (length (buffer c) < fuel)%nat ->
       processBufferLoop JSON_parse fuel c = Some r.
Proof.
destruct (processBufferLoop_terminates JSON_parse (S (length (buffer c))) c)
  as [r Hr]; [lia|].
exists r. split; [exact Hr|]. split; [|split].
- unfold processBuffer. rewrite Hr. reflexivity.
- eapply processBufferLoop_shrinks, Hr.
- intros fuel Hf. apply (processBufferLoop_more JSON_parse _ fuel c r Hr). lia.
Qed.

End FramerLoop.

Lemma onlyIncoming_refl (c : TypeScriptLSPClient) : onlyIncoming c c.
Proof.
  split; [exists []; split; [reflexivity | constructor] | reflexivity | repeat split].
Qed.

Lemma onlyIncoming_set_buffer (c0 c : TypeScriptLSPClient) (b : jsstring) :
  onlyIncoming c0 c -> onlyIncoming c0 (set_buffer b c).
Proof. intros [H1 H2 H3]. split; assumption. Qed.

Lemma onlyIncoming_handleMessage (c0 c : TypeScriptLSPClient) (m : json) :
  onlyIncoming c0 c -> onlyIncoming c0 (handleMessage m c).
Proof.
  intros [(new & E & Hnew) H2 H3].
  destruct (handleMessage_cases m c) as [-> | [(ev & ps & ->) | (k & q & o & _ & _ & ->)]].
  - split; [exists new; split; assumption | assumption | assumption].
  - split; [|assumption|assumption].
    exists (Emit ev ps :: new). cbn [perform set_effects effects]. rewrite E.
    split; [reflexivity | constructor; [reflexivity | exact Hnew]].
  - split; [| |assumption].
    + exists (Settle q o (clock c) :: new).
      cbn [perform set_effects set_pendingRequests effects]. rewrite E.
      split; [reflexivity | constructor; [reflexivity | exact Hnew]].
    + cbn [perform set_effects set_pendingRequests pendingRequests].
      etransitivity; [apply delete_subseteq | exact H2].
Qed.

(** X5: data from the subprocess never makes the client write to it: what
    the handler of stdout does to the outside is to settle promises and to
    emit notifications, it adds no entry to the map of pending requests,
    and it leaves the subprocess, the counter of ids, the timers, the flags
    and the documents alone.  A request of the server, in particular, gets
    no answer. *)
Theorem onData_never_writes (JSON_parse : jsstring -> option json) (chunk : list N)
    (c : TypeScriptLSPClient) :
  onlyIncoming c (onData JSON_parse chunk c).
Proof.
  apply (onData_preserves JSON_parse (onlyIncoming c)).
  - intros b c'. apply onlyIncoming_set_buffer.
  - intros m c'. apply onlyIncoming_handleMessage.
  - apply onlyIncoming_refl.
Qed.
(** ** Requests and their answers *)

(** X6: no request is settled twice.  From the call of [sendRequest] on,
    whatever data, timers, exits and further requests follow, [resolve] and
    [reject] of its promise are called at most once altogether: an answer
    after the timeout, a timeout after the answer and a second answer all
    find the entry gone. *)
Theorem no_request_settled_twice (JSON_parse : jsstring -> option json)
    (c c1 : TypeScriptLSPClient) (method : jsstring) (params : json) (p : nat) (id : N)
    (events : list Event) :
  wellFormed c -> process c <> None -> requestId c + 1 < 2 ^ 53 ->
  sendRequest method params c = (p, id, c1) ->
  (length (settlements p (effects (run JSON_parse events c1))) <= 1)%nat.
Proof.
intros Hwf Hpr Hreq Hsend.
destruct (sendRequest_tracked method params c Hwf Hpr) as [Htr Hpend].
rewrite sendRequest_spec in Hsend. cbv zeta in Hsend.
assert (Ep : p = promises c) by congruence.
assert (Ei : id = preIncrement (requestId c)) by congruence.
assert (Ec : c1 = snd (sendRequest method params c)).
{ rewrite sendRequest_spec. cbn [snd]. congruence. }
subst p id. rewrite <- Ec in Htr, Hpend. clear Hsend.
assert (Hlt : preIncrement (requestId c) < 2 ^ 53).
{ unfold preIncrement. destruct (N.ltb_spec (requestId c) (2 ^ 53)); lia. }
assert (H : atMostOnce (promises c) (preIncrement (requestId c)) (length (timers c))
              method (clock c + 10000) (run JSON_parse events c1)).
{ assert (H0 : atMostOnce (promises c) (preIncrement (requestId c)) (length (timers c))
                 method (clock c + 10000) c1) by (split; [exact Htr | left; exact Hpend]).
  clear Htr Hpend Ec. revert c1 H0.
  induction events as [|e events IH]; intros c1 H0; [exact H0|].
  cbn [run fold_left]. apply IH, atMostOnce_step; assumption. }
destruct H as [[_ _ _ _ H4] [H | (s & [_ Hs] & Hl)]].
- destruct (H4 H) as [-> _]. cbn. lia.
- rewrite Hs. exact Hl.
Qed.

Lemma no_request_settled_twice_witness :
  let r := sendRequest Sample.hover JNull Sample.ready in
  let events := [Tick 5; Sample.received Sample.secondResult;
                 Sample.received Sample.secondResult; Tick 10000; Fire 2%nat; Exit] in
  requestId Sample.ready + 1 < 2 ^ 53
  /\ settlements (fst (fst r)) (effects (run Sample.parse events (snd r)))
     = [(Resolved (Some JNull), 35)]
  /\ (length (settlements (fst (fst r)) (effects (run Sample.parse events (snd r))))
      <= 1)%nat.
Proof.
  intros r events.
  assert (H1 : requestId Sample.ready + 1 < 2 ^ 53) by (vm_compute; reflexivity).
  split; [exact H1|]. split; [vm_compute; reflexivity|].
  exact (no_request_settled_twice Sample.parse Sample.ready (snd r) Sample.hover JNull
           (fst (fst r)) (snd (fst r)) events
           Sample_ready_wellFormed Sample_ready_running H1 (sendRequest_eta _ _ _)).
Defined.

Lemma settlements_unsettled (p : nat) (effs : list Effect) :
  (forall o t, Settle p o t ∉ effs) -> settlements p effs = [].
Proof.
  induction effs as [|e effs IH]; intros H; [reflexivity|].
  assert (IH' : settlements p effs = []).
  { apply IH. intros o t Hin. apply (H o t). right. exact Hin. }
  destruct e; cbn [settlements]; try exact IH'.
  destruct (bool_decide_reflect (p0 = p)) as [->|_]; [|exact IH'].
  exfalso. apply (H o time). left.
Qed.

Lemma settlements_new_promise (c : TypeScriptLSPClient) (p : nat) :
  wellFormed c -> (promises c <= p)%nat -> settlements p (effects c) = [].
Proof.
  intros Hwf Hp. apply settlements_unsettled. intros o t Hin.
  apply (wf_effects c Hwf) in Hin. lia.
Qed.

Lemma prop_id_response (id : N) (result : json) :
  prop "id" (response id result) = Some (JNum (Z.of_N id)).
Proof. reflexivity. Qed.

Lemma prop_result_response (id : N) (result : json) :
  prop "result" (response id result) = Some result.
Proof. reflexivity. Qed.

Lemma prop_error_response (id : N) (result : json) :
  prop "error" (response id result) = None.
Proof. reflexivity. Qed.

Lemma pendingKey_of_N (id : N) : pendingKey (Some (JNum (Z.of_N id))) = Some id.
Proof.
  unfold pendingKey. destruct (Z.leb_spec 0 (Z.of_N id)); [|lia].
  rewrite N2Z.id. reflexivity.
Qed.

(** The answer to a request that is in the map resolves its promise and
    takes the entry out. *)
Lemma handleMessage_response (id : N) (result : json) (p : nat) (c : TypeScriptLSPClient) :
  pendingRequests c !! id = Some p ->
  handleMessage (response id result) c
  = perform (Settle p (Resolved (Some result)) (clock c))
      (set_pendingRequests (delete id (pendingRequests c)) c).
Proof.
  intros H. unfold handleMessage, pendingGet.
  change (response id result) with
    (JObj [(lit "jsonrpc", JStr (lit "2.0")); (lit "id", JNum (Z.of_N id));
           (lit "result", result)]) at 1.
  cbv beta iota.
  rewrite !prop_id_response, !prop_result_response, !prop_error_response.
  rewrite pendingKey_of_N, H. reflexivity.
Qed.

(** X7: answers are matched to requests by id, not by order.  Two requests
    are sent and the server answers the second one first: each promise is
    resolved once, with the result that carries its own id, and both
    entries are gone from the map. *)
Theorem responses_matched_by_id (c c1 c2 : TypeScriptLSPClient)
    (method1 method2 : jsstring) (params1 params2 result1 result2 : json)
    (p1 p2 : nat) (id1 id2 : N) :
  wellFormed c -> process c <> None -> requestId c + 2 <= 2 ^ 53 ->
  sendRequest method1 params1 c = (p1, id1, c1) ->
  sendRequest method2 params2 c1 = (p2, id2, c2) ->
  let c3 := handleMessage (response id1 result1)
              (handleMessage (response id2 result2) c2) in
  id1 <> id2 /\ p1 <> p2
  /\ settlements p1 (effects c3) = [(Resolved (Some result1), clock c)]
  /\ settlements p2 (effects c3) = [(Resolved (Some result2), clock c)]
  /\ pendingRequests c3 !! id1 = None
  /\ pendingRequests c3 !! id2 = None.
Proof.
  intros Hwf Hpr Hid E1 E2 c3.
  destruct (process c) as [pr|] eqn:Epr; [clear Hpr | congruence].
  rewrite sendRequest_spec, Epr in E1. injection E1 as <- <- <-.
  rewrite sendRequest_spec in E2.
  cbn [process setTimeout set_timers perform set_effects set_pendingRequests
       set_promises set_requestId requestId promises] in E2.
  rewrite Epr in E2. injection E2 as <- <- <-.
  assert (Hne : preIncrement (requestId c)
                <> preIncrement (preIncrement (requestId c))).
  { unfold preIncrement.
    destruct (N.ltb_spec (requestId c) (2 ^ 53)); [|lia].
    destruct (N.ltb_spec (requestId c + 1) (2 ^ 53)); lia. }
  assert (S1 : settlements (promises c) (effects c) = [])
    by (apply settlements_new_promise; [exact Hwf | lia]).
  assert (S2 : settlements (S (promises c)) (effects c) = [])
    by (apply settlements_new_promise; [exact Hwf | lia]).
  subst c3.
  rewrite (handleMessage_response _ result2 (S (promises c)))
    by (cbn [pendingRequests setTimeout set_timers perform set_effects
             set_pendingRequests]; apply lookup_insert_eq).
  rewrite (handleMessage_response _ result1 (promises c)).
  2:{ cbn [pendingRequests setTimeout set_timers perform set_effects
           set_pendingRequests].
      rewrite lookup_delete_ne by (intros H; apply Hne; symmetry; exact H).
      rewrite lookup_insert_ne by (intros H; apply Hne; symmetry; exact H).
      apply lookup_insert_eq. }
  cbn [effects pendingRequests clock setTimeout set_timers perform set_effects
       set_pendingRequests set_promises set_requestId settlements].
  rewrite !bool_decide_eq_true_2 by reflexivity.
  rewrite (bool_decide_eq_false_2 (S (promises c) = promises c)) by lia.
  rewrite (bool_decide_eq_false_2 (promises c = S (promises c))) by lia.
  rewrite S1, S2.
  split; [exact Hne|]. split; [lia|]. split; [reflexivity|].
  split; [case_bool_decide; [reflexivity | congruence]|].
  split.
  - apply lookup_delete_eq.
  - rewrite lookup_delete_ne by exact Hne. apply lookup_delete_eq.
Qed.

Lemma responses_matched_by_id_witness :
  let r1 := sendRequest Sample.hover JNull Sample.ready in
  let r2 := sendRequest (lit "textDocument/definition") JNull (snd r1) in
  let c3 := handleMessage (response 2 (JStr (lit "first")))
              (handleMessage (response 3 (JStr (lit "second"))) (snd r2)) in
  requestId Sample.ready + 2 <= 2 ^ 53
  /\ (snd (fst r1), snd (fst r2)) = (2, 3)
  /\ settlements (fst (fst r1)) (effects c3) = [(Resolved (Some (JStr (lit "first"))), 30)]
  /\ settlements (fst (fst r2)) (effects c3) = [(Resolved (Some (JStr (lit "second"))), 30)]
  /\ pendingRequests c3 !! 2 = None
  /\ pendingRequests c3 !! 3 = None.
Proof.
  intros r1 r2 c3.
  assert (H1 : requestId Sample.ready + 2 <= 2 ^ 53) by (vm_compute; discriminate).
  pose proof (responses_matched_by_id Sample.ready (snd r1) (snd r2) Sample.hover
                (lit "textDocument/definition") JNull JNull
                (JStr (lit "first")) (JStr (lit "second"))
                (fst (fst r1)) (fst (fst r2)) (snd (fst r1)) (snd (fst r2))
                Sample_ready_wellFormed Sample_ready_running H1
                (sendRequest_eta _ _ _) (sendRequest_eta _ _ _))
    as (_ & _ & H3 & H4 & H5 & H6).
  split; [exact H1|]. split; [vm_compute; reflexivity|].
  split; [exact H3|]. split; [exact H4|]. split; [exact H5 | exact H6].
Defined.

(** X8: the messages that [handleMessage] lets pass without a trace.  A
    message that is not an object (null, a number, a string, an array such
    as a JSON-RPC batch) changes nothing; neither does an answer whose id
    is not a number that can be a key of the map (a string such as ["2"],
    a negative number), nor an answer to an id that is not in the map:
    nothing is settled, nothing is emitted and no error surfaces. *)
Theorem unmatched_messages_are_dropped (m : json) (c : TypeScriptLSPClient) :
  ((forall props, m <> JObj props) -> handleMessage m c = c)
  /\ (isResponse m = true -> pendingKey (prop "id" m) = None -> handleMessage m c = c)
  /\ (forall k, isResponse m = true -> pendingKey (prop "id" m) = Some k ->
        pendingRequests c !! k = None -> handleMessage m c = c)
  /\ (forall s, pendingKey (Some (JStr s)) = None)
  /\ (forall n, (n < 0)%Z -> pendingKey (Some (JNum n)) = None).
Proof.
  split; [|split; [|split; [|split]]].
  - intros H. destruct m; try reflexivity. exfalso. eapply H. reflexivity.
  - intros Hr Hk. apply handleMessage_unknown_id; [exact Hr|].
    unfold pendingGet. rewrite Hk. reflexivity.
  - intros k Hr Hk Hn. apply handleMessage_unknown_id; [exact Hr|].
    apply (pendingGet_absent _ k); assumption.
  - reflexivity.
  - intros n Hn. unfold pendingKey. destruct (Z.leb_spec 0 n); [lia | reflexivity].
Qed.
(** ** What the calls leave alone *)

Lemma undisturbed_refl (c : TypeScriptLSPClient) : undisturbed c c.
Proof. split; try reflexivity. exists []. split; [reflexivity | constructor]. Qed.

Lemma undisturbed_trans (a b c : TypeScriptLSPClient) :
  undisturbed a b -> undisturbed b c -> undisturbed a c.
Proof.
  intros [A1 A2 A3 A4 A5 (n1 & E1 & F1)] [B1 B2 B3 B4 B5 (n2 & E2 & F2)].
  split; try congruence.
  exists (n2 ++ n1). rewrite E2, E1, app_assoc. split; [reflexivity|].
  apply Forall_app. split; assumption.
Qed.

Lemma undisturbed_perform (e : Effect) (c : TypeScriptLSPClient) :
  isDestructive e = false -> undisturbed c (perform e c).
Proof.
  intros H. split; try reflexivity. exists [e]. split; [reflexivity|].
  constructor; [exact H | constructor].
Qed.

Lemma undisturbed_set_buffer (b : jsstring) (c : TypeScriptLSPClient) :
  undisturbed c (set_buffer b c).
Proof. split; try reflexivity. exists []. split; [reflexivity | constructor]. Qed.

Lemma undisturbed_set_clock (t : N) (c : TypeScriptLSPClient) :
  undisturbed c (set_clock t c).
Proof. split; try reflexivity. exists []. split; [reflexivity | constructor]. Qed.

Lemma undisturbed_set_timers (t : list Timer) (c : TypeScriptLSPClient) :
  undisturbed c (set_timers t c).
Proof. split; try reflexivity. exists []. split; [reflexivity | constructor]. Qed.

Lemma undisturbed_set_pendingRequests (m : gmap N nat) (c : TypeScriptLSPClient) :
  undisturbed c (set_pendingRequests m c).
Proof. split; try reflexivity. exists []. split; [reflexivity | constructor]. Qed.

Lemma undisturbed_set_promises (n : nat) (c : TypeScriptLSPClient) :
  undisturbed c (set_promises n c).
Proof. split; try reflexivity. exists []. split; [reflexivity | constructor]. Qed.

Lemma undisturbed_set_requestId (n : N) (c : TypeScriptLSPClient) :
  undisturbed c (set_requestId n c).
Proof. split; try reflexivity. exists []. split; [reflexivity | constructor]. Qed.

Lemma undisturbed_handleMessage (m : json) (c : TypeScriptLSPClient) :
  undisturbed c (handleMessage m c).
Proof.
  destruct (handleMessage_cases m c) as [-> | [(ev & ps & ->) | (k & q & o & _ & _ & ->)]].
  - apply undisturbed_refl.
  - apply undisturbed_perform. reflexivity.
  - eapply undisturbed_trans; [apply undisturbed_set_pendingRequests|].
    apply undisturbed_perform. reflexivity.
Qed.

Lemma undisturbed_runCallback (cb : TimerCallback) (c : TypeScriptLSPClient) :
  undisturbed c (runCallback cb c).
Proof.
  destruct cb as [id p method | p]; cbn [runCallback].
  - destruct (pendingRequests c !! id); [|apply undisturbed_refl].
    eapply undisturbed_trans; [apply undisturbed_set_pendingRequests|].
    apply undisturbed_perform. reflexivity.
  - apply undisturbed_perform. reflexivity.
Qed.

Lemma undisturbed_fireTimer (k : nat) (c : TypeScriptLSPClient) :
  undisturbed c (fireTimer k c).
Proof.
  unfold fireTimer. destruct (timers c !! k) as [tm|]; [|apply undisturbed_refl].
  destruct (fired tm || (clock c <? deadline tm)); [apply undisturbed_refl|].
  eapply undisturbed_trans; [apply undisturbed_set_timers | apply undisturbed_runCallback].
Qed.

Lemma undisturbed_sendRequest (method : jsstring) (params : json)
    (c : TypeScriptLSPClient) :
  undisturbed c (snd (sendRequest method params c)).
Proof.
  rewrite sendRequest_spec. cbn [snd].
  assert (H : undisturbed c
                (set_pendingRequests
                   (<[preIncrement (requestId c) := promises c]> (pendingRequests c))
                   (set_promises (S (promises c))
                      (set_requestId (preIncrement (requestId c)) c)))).
  { eapply undisturbed_trans; [apply undisturbed_set_requestId|].
    eapply undisturbed_trans; [apply undisturbed_set_promises|].
    apply undisturbed_set_pendingRequests. }
  destruct (process c) as [pr|].
  - eapply undisturbed_trans; [exact H|].
    eapply undisturbed_trans; [|unfold setTimeout; apply undisturbed_set_timers].
    apply undisturbed_perform. reflexivity.
  - eapply undisturbed_trans; [exact H|]. apply undisturbed_perform. reflexivity.
Qed.

Lemma undisturbed_sendNotification (method : jsstring) (params : json)
    (c c' : TypeScriptLSPClient) :
  sendNotification method params c = inr c' -> undisturbed c c'.
Proof.
  intros H. apply sendNotification_inr in H as (pr & _ & ->).
  apply undisturbed_perform. reflexivity.
Qed.

Section Undisturbed.

Variable JSON_parse : jsstring -> option json.

Lemma undisturbed_onData (chunk : list N) (c : TypeScriptLSPClient) :
undisturbed c (onData JSON_parse chunk c).
Proof.
apply (onData_preserves JSON_parse (undisturbed c)).
- intros b c' H. eapply undisturbed_trans; [exact H | apply undisturbed_set_buffer].
- intros m c' H. eapply undisturbed_trans; [exact H | apply undisturbed_handleMessage].
- apply undisturbed_refl.
Qed.

Lemma undisturbed_step (e : Event) (c : TypeScriptLSPClient) :
isExit e = false -> undisturbed c (step JSON_parse e c).
Proof.
destruct e; intros H; try discriminate H; cbn [step].
- apply undisturbed_onData.
- apply undisturbed_fireTimer.
- apply undisturbed_set_clock.
- apply undisturbed_sendRequest.
Qed.

Lemma undisturbed_run (events : list Event) (c : TypeScriptLSPClient) :
Forall (fun e => isExit e = false) events -> undisturbed c (run JSON_parse events c).
Proof.
intros H. revert c. induction H as [|e events He _ IH]; intros c.
- apply undisturbed_refl.
- cbn [run fold_left]. eapply undisturbed_trans; [apply undisturbed_step, He | apply IH].
Qed.

Lemma undisturbed_await (ps : list nat) (events : list Event) (c : TypeScriptLSPClient) :
Forall (fun e => isExit e = false) events ->
undisturbed c (snd (await JSON_parse ps events c)).
Proof.
intros H. revert c. induction H as [|e events He _ IH]; intros c.
- cbn [await]. destruct (firstSettled ps (effects c)); apply undisturbed_refl.
- cbn [await]. destruct (firstSettled ps (effects c)); [apply undisturbed_refl|].
  eapply undisturbed_trans; [apply undisturbed_step, He | apply IH].
Qed.

End Undisturbed.

(** ** The invariant of the fields *)

Lemma consistent_undisturbed (c c' : TypeScriptLSPClient) :
  undisturbed c c' -> consistent c -> consistent c'.
Proof.
  intros [U1 U2 U3 U4 U5 _] [H1 H2 H3 H4].
  split; rewrite ?U1, ?U2, ?U3, ?U4; assumption.
Qed.

Lemma consistent_new (key : jsstring) : consistent (Client.new key).
Proof.
  split; cbn [Client.new initialized process openDocuments tempDir];
    try discriminate; try congruence. constructor.
Qed.

Lemma consistent_cleanup (c : TypeScriptLSPClient) : consistent (cleanup c).
Proof.
  destruct (cleanup_closed c) as (H1 & _ & H3 & H4).
  split; rewrite ?H1, ?H3, ?H4; try discriminate; try congruence. constructor.
Qed.

Lemma openDocument_uninitialized (readFile : jsstring -> ReadResult)
    (filePath : jsstring) (c : TypeScriptLSPClient) :
  initialized c = false ->
  openDocument readFile filePath c
  = (Threw (Error_ (lit "TypeScript Language Server not initialized")), c).
Proof. intros H. unfold openDocument. rewrite H. reflexivity. Qed.

Lemma consistent_addDocument (uri : jsstring) (c : TypeScriptLSPClient) :
  initialized c = true -> consistent c -> consistent (addDocument uri c).
Proof.
  intros Hi [H1 H2 H3 H4]. unfold addDocument, hasDocument.
  destruct (bool_decide_reflect (uri ∈ openDocuments c)) as [Hin | Hin];
    [split; assumption|].
  split; cbn [set_openDocuments initialized process openDocuments tempDir];
    try assumption.
  - intros _. exact Hi.
  - apply NoDup_app. split; [exact H3|]. split.
    + intros x Hx Hx'. apply list_elem_of_singleton in Hx'. subst x. contradiction.
    + apply NoDup_singleton.
Qed.

Lemma consistent_perform (e : Effect) (c : TypeScriptLSPClient) :
  consistent c -> consistent (perform e c).
Proof. intros [H1 H2 H3 H4]. split; assumption. Qed.

Lemma consistent_openDocument (readFile : jsstring -> ReadResult) (filePath : jsstring)
    (c : TypeScriptLSPClient) :
  consistent c -> consistent (snd (openDocument readFile filePath c)).
Proof.
  intros H. unfold openDocument.
  destruct (initialized c) eqn:Hi; [|exact H]. cbn [negb].
  destruct (hasDocument (documentUri filePath) c); [exact H|].
  destruct (readFile filePath) as [content | message]; [|exact H].
  destruct (sendNotification _ _ c) as [[message | message] | c'] eqn:E; try exact H.
  cbn [snd]. apply sendNotification_inr in E as (pr & _ & ->).
  apply consistent_addDocument; [exact Hi | apply consistent_perform, H].
Qed.

Lemma consistent_closeDocument (filePath : jsstring) (c : TypeScriptLSPClient) :
  consistent c -> consistent (snd (closeDocument filePath c)).
Proof.
  intros H. unfold closeDocument.
  destruct (initialized c) eqn:Hi; [|exact H]. cbn [negb].
  destruct (hasDocument (documentUri filePath) c); [|exact H]. cbn [negb].
  destruct (sendNotification _ _ c) as [e | c'] eqn:E; [exact H|].
  cbn [snd]. apply sendNotification_inr in E as (pr & _ & ->).
  destruct H as [H1 H2 H3 H4].
  split; cbn [deleteDocument perform set_effects set_openDocuments initialized process
              openDocuments tempDir]; try assumption.
  - intros _. exact Hi.
  - apply NoDup_filter. exact H3.
Qed.

Lemma consistent_ensureDocumentOpen (readFile : jsstring -> ReadResult)
    (filePath : jsstring) (c : TypeScriptLSPClient) :
  consistent c -> consistent (snd (ensureDocumentOpen readFile filePath c)).
Proof.
  intros H. unfold ensureDocumentOpen.
  destruct (hasDocument (documentUri filePath) c); [exact H|].
  pose proof (consistent_openDocument readFile filePath c H) as Ho.
  destruct (openDocument readFile filePath c) as [[[] | error | ] c1] eqn:E;
    cbn [snd] in Ho; try exact Ho.
  destruct (isMissingFile error) eqn:Hm; [|exact Ho].
  destruct (initialized c) eqn:Hi.
  - apply openDocument_threw in E as ->.
    destruct (sendNotification _ _ c) as [e | c'] eqn:En; [exact H|].
    cbn [snd]. apply sendNotification_inr in En as (pr & _ & ->).
    apply consistent_addDocument; [exact Hi | apply consistent_perform, H].
  - rewrite openDocument_uninitialized in E by exact Hi.
    injection E as <- <-. vm_compute in Hm. discriminate Hm.
Qed.

Section Consistent.

Variable JSON_parse : jsstring -> option json.

Lemma consistent_step (e : Event) (c : TypeScriptLSPClient) :
consistent c -> consistent (step JSON_parse e c).
Proof.
intros H. destruct (isExit e) eqn:He.
- destruct e; try discriminate He. apply consistent_cleanup.
- eapply consistent_undisturbed; [apply undisturbed_step, He | exact H].
Qed.

Lemma consistent_run (events : list Event) (c : TypeScriptLSPClient) :
consistent c -> consistent (run JSON_parse events c).
Proof.
revert c. induction events as [|e events IH]; intros c H; [exact H|].
cbn [run fold_left]. apply IH, consistent_step, H.
Qed.

Lemma consistent_await (ps : list nat) (events : list Event) (c : TypeScriptLSPClient) :
consistent c -> consistent (snd (await JSON_parse ps events c)).
Proof.
revert c. induction events as [|e events IH]; intros c H.
- cbn [await]. destruct (firstSettled ps (effects c)); exact H.
- cbn [await]. destruct (firstSettled ps (effects c)); [exact H|].
  apply IH, consistent_step, H.
Qed.

Lemma consistent_awaitCleanup (after : list Event) (c : TypeScriptLSPClient) :
consistent (awaitCleanup JSON_parse after c).
Proof.
unfold awaitCleanup. destruct (tempDir c).
- apply consistent_run, consistent_cleanup.
- apply consistent_cleanup.
Qed.

Lemma consistent_initialize (env : InitEnv) (c : TypeScriptLSPClient) :
consistent c -> consistent (snd (initialize JSON_parse env c)).
Proof.
intros H. unfold initialize.
destruct (initialized c) eqn:Hi; [exact H|].
assert (Hd : openDocuments c = []).
{ destruct (openDocuments c) eqn:Ed; [reflexivity|].
  pose proof (co_documents c H) as Hc. rewrite Ed, Hi in Hc.
  discriminate Hc. discriminate. }
assert (H0 : consistent (set_tempDir (Some (tempPath env)) c)).
{ destruct H as [H1 H2 H3 H4].
  split; cbn [set_tempDir initialized process openDocuments tempDir];
    try assumption. discriminate. }
destruct (mkdirError env); [exact H0|].
assert (H1 : consistent (set_process (Some (child env))
                           (set_tempDir (Some (tempPath env)) c))).
{ split; cbn [set_process set_tempDir initialized process openDocuments tempDir].
  - discriminate.
  - rewrite Hd. congruence.
  - apply (co_nodup c H).
  - discriminate. }
destruct (childHasStreams env); [|exact H1]. cbn [negb].
destruct (startup env); try exact H1.
cbn [newPromise].
match goal with |- context [sendRequest ?m ?ps ?c0] =>
  pose proof (undisturbed_sendRequest m ps c0) as Hs;
  destruct (sendRequest m ps c0) as [[initRequest id] c1] end.
cbn [snd] in Hs.
assert (H2 : consistent c1).
{ eapply consistent_undisturbed; [exact Hs|].
  eapply consistent_undisturbed; [|exact H1].
  eapply undisturbed_trans; [apply undisturbed_set_promises|].
  unfold setTimeout. apply undisturbed_set_timers. }
pose proof (consistent_await [initRequest; promises c] (handshake env) c1 H2) as H3.
cbn [set_process set_tempDir promises] in H3 |- *.
destruct (await JSON_parse [initRequest; promises c] (handshake env) c1) as [[[v|e]|] c2];
  cbn [snd] in H3 |- *; try exact H3.
destruct (sendNotification (lit "initialized") (JObj []) c2) as [e | c3] eqn:En;
  [exact H3|].
cbn [snd]. apply sendNotification_inr in En as (pr & Hpr & ->).
destruct H3 as [A1 A2 A3 A4].
split; cbn [set_initialized perform set_effects initialized process openDocuments
            tempDir]; try assumption.
- intros _. rewrite Hpr. discriminate.
- intros _. reflexivity.
Qed.

Lemma consistent_shutdown (during after : list Event) (c : TypeScriptLSPClient) :
consistent c -> consistent (snd (shutdown JSON_parse during after c)).
Proof.
intros H. unfold shutdown. destruct (initialized c); [|apply consistent_awaitCleanup].
pose proof (undisturbed_sendRequest (lit "shutdown") JNull c) as Hs.
destruct (sendRequest (lit "shutdown") JNull c) as [[p id] c1]. cbn [snd] in Hs.
pose proof (consistent_await [p] during c1 (consistent_undisturbed _ _ Hs H)) as Ha.
destruct (await JSON_parse [p] during c1) as [[[v|e]|] c2]; cbn [snd] in Ha |- *.
- destruct (sendNotification (lit "exit") JNull c2); apply consistent_awaitCleanup.
- apply consistent_awaitCleanup.
- exact Ha.
Qed.

Lemma consistent_call (k : Call) (c : TypeScriptLSPClient) :
consistent c -> consistent (call JSON_parse k c).
Proof.
intros H. destruct k; cbn [call].
- apply consistent_step, H.
- apply consistent_initialize, H.
- apply consistent_shutdown, H.
- apply consistent_openDocument, H.
- apply consistent_closeDocument, H.
- apply consistent_ensureDocumentOpen, H.
Qed.

Lemma consistent_reached (key : jsstring) (calls : list Call) :
consistent (reached JSON_parse key calls).
Proof.
unfold reached. generalize (consistent_new key). generalize (Client.new key).
induction calls as [|k calls IH]; intros c H; [exact H|].
cbn [fold_left]. apply IH, consistent_call, H.
Qed.

End Consistent.

(** With nothing happening while the file is read, [openDocumentDuring] is
    [openDocument]. *)
Lemma openDocumentDuring_nothing (JSON_parse : jsstring -> option json)
    (readFile : jsstring -> ReadResult) (filePath : jsstring) (c : TypeScriptLSPClient) :
  openDocumentDuring JSON_parse readFile [] filePath c = openDocument readFile filePath c.
Proof. reflexivity. Qed.

(** After an exit of the subprocess no event gives the client a subprocess
    again. *)
Lemma exit_run_no_process (JSON_parse : jsstring -> option json) (events : list Event)
    (c : TypeScriptLSPClient) :
  existsb isExit events = true -> process (run JSON_parse events c) = None.
Proof.
  intros Hex. apply existsb_exists in Hex as (e & Hin & He).
  destruct e; try discriminate He.
  apply list_elem_of_In, list_elem_of_split in Hin as (before & later & ->).
  unfold run. rewrite fold_left_app. cbn [fold_left step].
  apply (released_run JSON_parse later), cleanup_is_released.
Qed.

Lemma no_exit_Forall (events : list Event) :
  existsb isExit events = false -> Forall (fun e => isExit e = false) events.
Proof.
  induction events as [|e events IH]; [constructor|].
  cbn [existsb]. intros H. apply orb_false_iff in H as [He H].
  constructor; [exact He | exact (IH H)].
Qed.

(** X10: when the document calls meet a dead subprocess.  On a client
    whose fields are consistent, as they are on every client that calls
    have reached, [closeDocument] never throws.  [openDocument] of a file
    that can be read, whatever the subprocess, the timers and the callers
    of [sendRequest] do while the file is read: on a client that is not
    initialized it throws [not initialized]; when the document is open
    already it returns; otherwise it returns if the subprocess has not
    exited while the file was read, and if it has, the call throws
    [Failed to open document], with the path and the error
    [TypeScript Language Server not running] of [sendNotification]: the
    checks at the start of the call are not made again after the wait.
    In every case the fields of the client are consistent afterwards. *)
Theorem openDocument_meets_dead_subprocess_after_exit
    (JSON_parse : jsstring -> option json) (c : TypeScriptLSPClient)
    (filePath : jsstring) :
  consistent c ->
  fst (closeDocument filePath c) = Returned tt
  /\ forall readFile text during, readFile filePath = Content text ->
       let r := openDocumentDuring JSON_parse readFile during filePath c in
       fst r
       = (if negb (initialized c) then
            Threw (Error_ (lit "TypeScript Language Server not initialized"))
          else if hasDocument (documentUri filePath) c then Returned tt
          else if existsb isExit during then
            Threw (Error_ (lit "Failed to open document " ++ filePath ++ lit ": "
                            ++ lit "TypeScript Language Server not running"))
          else Returned tt)
       /\ consistent (snd r).
Proof.
  intros H. split.
  - unfold closeDocument. destruct (initialized c) eqn:Hi; [|reflexivity]. cbn [negb].
    destruct (hasDocument (documentUri filePath) c); [|reflexivity]. cbn [negb].
    unfold sendNotification, sendMessage.
    destruct (process c) eqn:Hp; [reflexivity|].
    exfalso. apply (co_running c H Hi Hp).
  - intros readFile text during Hr r. subst r. unfold openDocumentDuring.
    destruct (initialized c) eqn:Hi; [|split; [reflexivity | exact H]]. cbn [negb].
    destruct (hasDocument (documentUri filePath) c); [split; [reflexivity | exact H]|].
    rewrite Hr.
    pose proof (consistent_run JSON_parse during c H) as Hrun.
    destruct (existsb isExit during) eqn:Hex.
    + unfold sendNotification, sendMessage.
      rewrite (exit_run_no_process JSON_parse during c Hex).
      split; [reflexivity | exact Hrun].
    + pose proof (no_exit_Forall during Hex) as Hall.
      destruct (undisturbed_run JSON_parse during c Hall) as [Hp Hi' _ _ _ _].
      destruct (sendNotification (lit "textDocument/didOpen")
                  (didOpenParams (documentUri filePath) (languageIdOf filePath) text)
                  (run JSON_parse during c)) as [e | c'] eqn:E.
      * exfalso. unfold sendNotification, sendMessage in E.
        destruct (process (run JSON_parse during c)) eqn:Hp'; [discriminate E|].
        apply (co_running c H Hi). congruence.
      * split; [reflexivity|]. cbn [snd].
        apply sendNotification_inr in E as (pr & _ & ->).
        apply consistent_addDocument; [|apply consistent_perform, Hrun].
        cbn [perform set_effects initialized]. congruence.
Qed.

(** The sample client reads [/ws/a.ts] for [openDocument]: when the
    subprocess exits meanwhile, the call throws; when it only sends data,
    the call returns. *)
Lemma openDocument_meets_dead_subprocess_after_exit_witness :
  let c := reached Sample.parse Sample.key1 [CallInitialize Sample.env] in
  let readFile := Sample.readable "let x = 1" in
  consistent c
  /\ c = Sample.ready
  /\ fst (openDocumentDuring Sample.parse readFile [Tick 5; Exit] (lit "/ws/a.ts") c)
     = Threw (Error_ (lit "Failed to open document /ws/a.ts: TypeScript Language Server not running"))
  /\ fst (openDocumentDuring Sample.parse readFile
            [Tick 5; Sample.received Sample.secondResult] (lit "/ws/a.ts") c)
     = Returned tt.
Proof.
  intros c readFile.
  pose proof (consistent_reached Sample.parse Sample.key1 [CallInitialize Sample.env])
    as Hc.
  fold c in Hc.
  pose proof (openDocument_meets_dead_subprocess_after_exit Sample.parse c
                (lit "/ws/a.ts") Hc) as [_ H].
  assert (Hr : readFile (lit "/ws/a.ts") = Content (lit "let x = 1")) by reflexivity.
  split; [exact Hc|]. split; [vm_compute; reflexivity|]. split.
  - destruct (H readFile _ [Tick 5; Exit] Hr) as [E _].
    etransitivity; [exact E | vm_compute; reflexivity].
  - destruct (H readFile _ [Tick 5; Sample.received Sample.secondResult] Hr) as [E _].
    etransitivity; [exact E | vm_compute; reflexivity].
Defined.

(** X11: a closed session stays closed.  Once [cleanup] has run, no data
    from the subprocess, no timer, no passing of time and no further exit
    brings the client back: it stays uninitialized, without subprocess,
    without open documents and without pending requests. *)
Theorem closed_session_stays_closed (JSON_parse : jsstring -> option json)
    (events : list Event) (c : TypeScriptLSPClient) :
  Forall (fun e => isRequest e = false) events ->
  let c' := run JSON_parse events (cleanup c) in
  initialized c' = false /\ pendingRequests c' = ∅ /\ openDocuments c' = []
  /\ process c' = None.
Proof.
  intros H. apply (closed_run JSON_parse events (cleanup c) H), cleanup_is_closed.
Qed.

Lemma closed_session_stays_closed_witness :
  let c := snd (sendRequest Sample.hover JNull Sample.ready) in
  let events := [Tick 10; Sample.received Sample.secondResult; Tick 10000;
                 Fire 2%nat; Fire 0%nat; Exit] in
  Forall (fun e => isRequest e = false) events
  /\ process c = Some 7%nat
  /\ initialized (run Sample.parse events (cleanup c)) = false
  /\ pendingRequests (run Sample.parse events (cleanup c)) = ∅
  /\ openDocuments (run Sample.parse events (cleanup c)) = []
  /\ process (run Sample.parse events (cleanup c)) = None.
Proof.
  intros c events.
  assert (H1 : Forall (fun e => isRequest e = false) events)
    by (repeat constructor).
  split; [exact H1|]. split; [vm_compute; reflexivity|].
  exact (closed_session_stays_closed Sample.parse events c H1).
Defined.

(** X12: a second [cleanup] does nothing but remove the temporary directory
    again.  [cleanup] does not forget [tempDir], so when it runs twice (in
    [shutdown] and then in the handler of the exit of the killed
    subprocess) the second run calls [rm] on the same directory once more;
    it kills nothing, writes nothing and changes no field. *)
Theorem cleanup_twice_removes_directory_again (c : TypeScriptLSPClient) :
  cleanup (cleanup c)
  = set_effects
      (match tempDir c with Some dir => [Rm dir] | None => [] end
       ++ effects (cleanup c)) (cleanup c).
Proof.
  rewrite (cleanup_spec (cleanup c)). rewrite (cleanup_spec c).
  unfold cleanupEffects. cbn [tempDir process openDocuments effects set_effects
                              requestId buffer workspaceRoot clock promises timers].
  rewrite app_nil_r. reflexivity.
Qed.

Section FailedStart.

Variable JSON_parse : jsstring -> option json.

Lemma initialize_undisturbed (env : InitEnv) (c c' : TypeScriptLSPClient)
  (r : Completion unit) :
initialized c = false -> mkdirError env = None ->
Forall (fun ev => isExit ev = false) (handshake env) ->
initialize JSON_parse env c = (r, c') ->
let c0 := set_process (Some (child env)) (set_tempDir (Some (tempPath env)) c) in
match r with
| Returned _ => undisturbed c0 (set_initialized false c')
| _ => undisturbed c0 c'
end.
Proof.
intros Hi Hm Hh E c0. revert E. unfold initialize. rewrite Hi, Hm. fold c0.
destruct (childHasStreams env); cbn [negb];
  [|intros E; injection E as <- <-; apply undisturbed_refl].
destruct (startup env); try (intros E; injection E as <- <-; apply undisturbed_refl).
cbn [newPromise].
match goal with |- context [sendRequest ?m ?ps ?x] =>
  pose proof (undisturbed_sendRequest m ps x) as Hs;
  destruct (sendRequest m ps x) as [[initRequest id] c1] end.
cbn [snd] in Hs.
assert (U1 : undisturbed c0 c1).
{ eapply undisturbed_trans; [|exact Hs].
  eapply undisturbed_trans; [apply undisturbed_set_promises|].
  unfold setTimeout. apply undisturbed_set_timers. }
pose proof (undisturbed_await JSON_parse [initRequest; promises c0] (handshake env) c1 Hh)
  as Ha.
destruct (await JSON_parse [initRequest; promises c0] (handshake env) c1)
  as [[[v|e]|] c2]; cbn [snd] in Ha;
  pose proof (undisturbed_trans _ _ _ U1 Ha) as U2.
- destruct (sendNotification (lit "initialized") (JObj []) c2) as [e | c3] eqn:En;
    intros E; injection E as <- <-; [exact U2|].
  apply sendNotification_inr in En as (pr & _ & ->).
  destruct U2 as [A1 A2 A3 A4 A5 (new & E & F)].
  split; try assumption; [unfold c0; cbn; exact (eq_sym Hi)|].
  exists (Write pr (notificationMessage (lit "initialized") (JObj [])) :: new).
  cbn [set_initialized perform set_effects effects]. rewrite E.
  split; [reflexivity | constructor; [reflexivity | exact F]].
- intros E; injection E as <- <-. exact U2.
- intros E; injection E as <- <-. exact U2.
Qed.

(** X13: a start that fails leaves the subprocess running.  When
  [initialize] throws after [mkdir] has succeeded (the handle has no
  streams, the subprocess does not start in time, the handshake times out
  or is refused) and the subprocess has not exited by itself, the client
  still holds the handle of the subprocess it spawned and the name of its
  temporary directory, it is not initialized, and nothing has been killed
  or removed: [initialize] has no cleanup of its own. *)
Theorem failed_initialize_leaves_subprocess (env : InitEnv)
  (c c' : TypeScriptLSPClient) (e : JsError) :
initialized c = false -> mkdirError env = None ->
Forall (fun ev => isExit ev = false) (handshake env) ->
initialize JSON_parse env c = (Threw e, c') ->
process c' = Some (child env)
/\ tempDir c' = Some (tempPath env)
/\ initialized c' = false
/\ exists new, effects c' = new ++ effects c
     /\ Forall (fun eff => isDestructive eff = false) new.
Proof.
intros Hi Hm Hh E.
pose proof (initialize_undisturbed env c c' (Threw e) Hi Hm Hh E) as [A1 A2 A3 A4 A5 A6].
split; [exact A1|]. split; [exact A4|]. split; [rewrite A2; exact Hi | exact A6].
Qed.

End FailedStart.

Lemma failed_initialize_leaves_subprocess_witness :
  let r := initialize Sample.parse Sample.silentEnv (Client.new Sample.key2) in
  Forall (fun ev => isExit ev = false) (handshake Sample.silentEnv)
  /\ fst r = Threw (Error_ (lit "LSP initialize request timeout"))
  /\ process (snd r) = Some 9%nat
  /\ tempDir (snd r) = Some (lit "/tmp/typescript-lsp-9")
  /\ initialized (snd r) = false
  /\ exists new, effects (snd r) = new ++ []
       /\ Forall (fun eff => isDestructive eff = false) new.
Proof.
  intros r.
  assert (H1 : Forall (fun ev => isExit ev = false) (handshake Sample.silentEnv))
    by (repeat constructor).
  assert (H2 : r = (Threw (Error_ (lit "LSP initialize request timeout")), snd r))
    by (vm_compute; reflexivity).
  pose proof (failed_initialize_leaves_subprocess Sample.parse Sample.silentEnv
                (Client.new Sample.key2) (snd r)
                (Error_ (lit "LSP initialize request timeout"))
                eq_refl eq_refl H1 H2) as (H3 & H4 & H5 & H6).
  split; [exact H1|]. split; [rewrite H2; reflexivity|].
  split; [exact H3|]. split; [exact H4|]. split; [exact H5 | exact H6].
Defined.

(** X14: the order of a graceful shutdown on the wire.  When the client is
    initialized and the server answers the shutdown request, [shutdown]
    writes the exit notification first and only then, in [cleanup], one
    [textDocument/didClose] for each document that is still open, in the
    order in which they were opened; after that it kills the subprocess and
    removes the temporary directory. *)
Theorem graceful_shutdown_trace (JSON_parse : jsstring -> option json)
    (during : list Event) (c c1 c2 : TypeScriptLSPClient) (p pr : nat) (id : N)
    (v : option json) :
  initialized c = true ->
  sendRequest (lit "shutdown") JNull c = (p, id, c1) ->
  await JSON_parse [p] during c1 = (Some (Resolved v), c2) ->
  process c2 = Some pr ->
  exists c3,
    shutdown JSON_parse during [] c = (Returned tt, c3)
    /\ effects c3
       = match tempDir c2 with Some dir => [Rm dir] | None => [] end
         ++ Kill pr
            :: didCloseWrites pr (openDocuments c2)
            ++ Write pr (notificationMessage (lit "exit") JNull) :: effects c2
    /\ process c3 = None /\ openDocuments c3 = [] /\ initialized c3 = false.
Proof.
  intros Hi E1 E2 Hp. unfold shutdown. rewrite Hi, E1, E2.
  unfold sendNotification, sendMessage. rewrite Hp.
  set (c' := perform (Write pr (notificationMessage (lit "exit") JNull)) c2).
  assert (Ha : awaitCleanup JSON_parse [] c' = cleanup c').
  { unfold awaitCleanup. destruct (tempDir c'); reflexivity. }
  exists (cleanup c'). rewrite Ha. split; [reflexivity|].
  rewrite (cleanup_spec c'). cbn [effects process openDocuments initialized].
  unfold cleanupEffects, c'.
  cbn [perform set_effects tempDir process openDocuments effects]. rewrite Hp.
  split; [|split; [reflexivity | split; reflexivity]].
  destruct (tempDir c2); cbn [app]; rewrite <- ?app_assoc; reflexivity.
Qed.

Lemma graceful_shutdown_trace_witness :
  let c := snd (ensureDocumentOpen (Sample.readable "let x = 1") (lit "/ws/a.ts")
                  Sample.ready) in
  let during := [Tick 5; Sample.received Sample.secondResult] in
  initialized c = true
  /\ exists c3,
       shutdown Sample.parse during [] c = (Returned tt, c3)
       /\ effects c3
          = [Rm (lit "/tmp/typescript-lsp-0"); Kill 7%nat;
             Write 7%nat (notificationMessage (lit "textDocument/didClose")
                            (didCloseParams (lit "file:///ws/a.ts")));
             Write 7%nat (notificationMessage (lit "exit") JNull);
             Settle 2 (Resolved (Some JNull)) 35;
             Write 7%nat (requestMessage 2 (lit "shutdown") JNull)]
            ++ effects c
       /\ process c3 = None /\ openDocuments c3 = [] /\ initialized c3 = false.
Proof.
  intros c during.
  assert (H1 : initialized c = true) by (vm_compute; reflexivity).
  split; [exact H1|].
  pose (r := sendRequest (lit "shutdown") JNull c).
  pose (c2 := snd (await Sample.parse [fst (fst r)] during (snd r))).
  assert (H2 : await Sample.parse [fst (fst r)] during (snd r)
               = (Some (Resolved (Some JNull)), c2)) by (vm_compute; reflexivity).
  assert (H3 : process c2 = Some 7%nat) by (vm_compute; reflexivity).
  pose proof (graceful_shutdown_trace Sample.parse during c (snd r) c2 (fst (fst r)) 7%nat
                (snd (fst r)) (Some JNull) H1 (sendRequest_eta _ _ _) H2 H3)
    as (c3 & E1 & E2 & E3).
  exists c3. split; [exact E1|]. split; [|exact E3].
  rewrite E2. vm_compute. reflexivity.
Defined.
(** ** Documents *)

Lemma indexOf_here (s x : jsstring) : isPrefixOf x s = true -> indexOf s x = Some 0%nat.
Proof. destruct s; cbn [indexOf]; intros ->; reflexivity. Qed.

Lemma includes_occurrence (pre x post : jsstring) : includes (pre ++ x ++ post) x = true.
Proof.
  unfold includes. induction pre as [|a pre IH]; cbn [app indexOf].
  - rewrite indexOf_here by apply isPrefixOf_app. reflexivity.
  - destruct (isPrefixOf x (a :: pre ++ x ++ post)); [reflexivity|].
    destruct (indexOf (pre ++ x ++ post) x); [reflexivity | discriminate IH].
Qed.

Lemma indexOf_occurrence (s x : jsstring) (i : nat) :
  indexOf s x = Some i -> s = take i s ++ x ++ drop (i + length x) s.
Proof.
  revert i. induction s as [|a s IH]; intros i H.
  - cbn [indexOf] in H. destruct (isPrefixOf x []) eqn:E; [|discriminate H].
    injection H as <-. apply isPrefixOf_true in E. cbn [take app plus]. exact E.
  - cbn [indexOf] in H. destruct (isPrefixOf x (a :: s)) eqn:E.
    + injection H as <-. apply isPrefixOf_true in E. cbn [take app plus]. exact E.
    + destruct (indexOf s x) as [j|] eqn:Ej; [|discriminate H].
      injection H as <-. cbn [take drop app plus]. f_equal. apply IH. reflexivity.
Qed.

Lemma includes_inside (pre s post x : jsstring) :
  includes s x = true -> includes (pre ++ s ++ post) x = true.
Proof.
  unfold includes at 1. destruct (indexOf s x) as [i|] eqn:E; [intros _ | discriminate].
  apply indexOf_occurrence in E. rewrite E, <- !app_assoc, (app_assoc pre).
  apply includes_occurrence.
Qed.

Lemma filter_absent (uri : jsstring) (l : list jsstring) :
  uri ∉ l -> filter (fun u => u ≠ uri) l = l.
Proof.
  induction l as [|a l IH]; intros H; [reflexivity|].
  rewrite filter_cons_True.
  - f_equal. apply IH. intros Hin. apply H. right. exact Hin.
  - intros ->. apply H. left.
Qed.

Lemma filter_added (uri : jsstring) (l : list jsstring) :
  uri ∉ l -> filter (fun u => u ≠ uri) (l ++ [uri]) = l.
Proof.
  intros H. rewrite filter_app, filter_absent by exact H.
  rewrite filter_cons_False by (intros Hne; apply Hne; reflexivity).
  rewrite filter_nil. apply app_nil_r.
Qed.

Lemma hasDocument_false (uri : jsstring) (c : TypeScriptLSPClient) :
  uri ∉ openDocuments c -> hasDocument uri c = false.
Proof. intros H. unfold hasDocument. apply bool_decide_eq_false_2. exact H. Qed.

(** A call of [ensureDocumentOpen] that returns for a document not yet
    open: the client was running, and one [didOpen] was written. *)
Lemma ensureDocumentOpen_opened (readFile : jsstring -> ReadResult) (filePath : jsstring)
    (c c1 : TypeScriptLSPClient) :
  documentUri filePath ∉ openDocuments c ->
  ensureDocumentOpen readFile filePath c = (Returned tt, c1) ->
  exists pr languageId text,
    initialized c = true /\ process c = Some pr
    /\ c1 = set_openDocuments (openDocuments c ++ [documentUri filePath])
              (perform (Write pr (notificationMessage (lit "textDocument/didOpen")
                                    (didOpenParams (documentUri filePath) languageId text)))
                 c).
Proof.
  intros Hn. pose proof (hasDocument_false _ _ Hn) as Hh.
  unfold ensureDocumentOpen, openDocument. rewrite Hh.
  destruct (initialized c) eqn:Hi; cbn [negb].
  2:{ assert (Hm : isMissingFile (Error_ (lit "TypeScript Language Server not initialized"))
                   = false) by (vm_compute; reflexivity).
      rewrite Hm. intros E. discriminate E. }
  unfold sendNotification, sendMessage, addDocument, hasDocument.
  destruct (readFile filePath) as [content | message].
  - destruct (process c) as [pr|] eqn:Hp.
    + cbn [perform set_effects openDocuments].
      rewrite (bool_decide_eq_false_2 _ Hn).
      intros E. injection E as <-. exists pr, (languageIdOf filePath), content.
      split; [reflexivity|]. split; reflexivity.
    + cbv beta iota zeta. rewrite ?Hp. destruct (isMissingFile _); intros E; discriminate E.
  - cbv beta iota zeta. destruct (isMissingFile _); [|intros E; discriminate E].
    destruct (process c) as [pr|] eqn:Hp; [|intros E; discriminate E].
    cbn [perform set_effects openDocuments].
    rewrite (bool_decide_eq_false_2 _ Hn).
    intros E. injection E as <-.
    exists pr, (lit "typescript"), (lit "// File not found" ++ [10]).
    split; [reflexivity|]. split; reflexivity.
Qed.

(** X15: [closeDocument] undoes [ensureDocumentOpen].  After a document
    that was not open has been opened, [closeDocument] of the same path
    writes one [textDocument/didClose] for its URI and leaves the set of
    open documents exactly as it was before; closing it once more does
    nothing at all. *)
Theorem closeDocument_undoes_ensureDocumentOpen (readFile : jsstring -> ReadResult)
    (filePath : jsstring) (c c1 : TypeScriptLSPClient) :
  documentUri filePath ∉ openDocuments c ->
  ensureDocumentOpen readFile filePath c = (Returned tt, c1) ->
  exists pr c2,
    closeDocument filePath c1 = (Returned tt, c2)
    /\ openDocuments c2 = openDocuments c
    /\ effects c2
       = Write pr (notificationMessage (lit "textDocument/didClose")
                     (didCloseParams (documentUri filePath))) :: effects c1
    /\ closeDocument filePath c2 = (Returned tt, c2).
Proof.
  intros Hn E.
  destruct (ensureDocumentOpen_opened readFile filePath c c1 Hn E)
    as (pr & languageId & text & Hi & Hp & ->).
  exists pr. eexists. split; [|split; [|split]].
  - unfold closeDocument.
    cbn [initialized set_openDocuments perform set_effects]. rewrite Hi. cbn [negb].
    unfold hasDocument. cbn [openDocuments set_openDocuments].
    rewrite bool_decide_eq_true_2 by (apply elem_of_app; right; left).
    cbn [negb]. unfold sendNotification, sendMessage.
    cbn [process set_openDocuments perform set_effects]. rewrite Hp. reflexivity.
  - cbn [deleteDocument openDocuments set_openDocuments perform set_effects].
    apply filter_added, Hn.
  - reflexivity.
  - unfold closeDocument.
    cbn [initialized deleteDocument set_openDocuments perform set_effects].
    rewrite Hi. cbn [negb]. unfold hasDocument.
    cbn [openDocuments deleteDocument set_openDocuments perform set_effects].
    rewrite filter_added by exact Hn.
    rewrite (bool_decide_eq_false_2 _ Hn). reflexivity.
Qed.

Lemma closeDocument_undoes_ensureDocumentOpen_witness :
  let path := lit "/ws/src/app.ts" in
  let r := ensureDocumentOpen (Sample.readable "let x = 1") path Sample.ready in
  (documentUri path ∉ openDocuments Sample.ready)
  /\ openDocuments (snd r) = [lit "file:///ws/src/app.ts"]
  /\ exists pr c2,
       closeDocument path (snd r) = (Returned tt, c2)
       /\ openDocuments c2 = openDocuments Sample.ready
       /\ effects c2
          = Write pr (notificationMessage (lit "textDocument/didClose")
                        (didCloseParams (documentUri path))) :: effects (snd r)
       /\ closeDocument path c2 = (Returned tt, c2).
Proof.
  intros path r.
  assert (H1 : documentUri path ∉ openDocuments Sample.ready)
    by (cbn; apply not_elem_of_nil).
  assert (H2 : r = (Returned tt, snd r)) by (vm_compute; reflexivity).
  split; [exact H1|]. split; [vm_compute; reflexivity|].
  exact (closeDocument_undoes_ensureDocumentOpen (Sample.readable "let x = 1") path
           Sample.ready (snd r) H1 H2).
Defined.

(** X16: a path that contains [ENOENT] turns every read error into a
    missing file.  [ensureDocumentOpen] looks for the text [ENOENT] in the
    message of the error that [openDocument] throws, and that message
    contains the path.  So for such a path a file that exists but cannot be
    read (no permission, a directory) is opened as the placeholder
    [// File not found], as TypeScript, and the call returns. *)
Theorem path_with_ENOENT_hides_read_errors (readFile : jsstring -> ReadResult)
    (filePath message : jsstring) (c : TypeScriptLSPClient) (pr : nat) :
  includes filePath (lit "ENOENT") = true ->
  initialized c = true -> process c = Some pr ->
  documentUri filePath ∉ openDocuments c ->
  readFile filePath = ReadError message ->
  ensureDocumentOpen readFile filePath c
  = (Returned tt,
     set_openDocuments (openDocuments c ++ [documentUri filePath])
       (perform
          (Write pr
             (notificationMessage (lit "textDocument/didOpen")
                (didOpenParams (documentUri filePath) (lit "typescript")
                   (lit "// File not found" ++ [10])))) c)).
Proof.
  intros Hinc Hi Hp Hn Hr. pose proof (hasDocument_false _ _ Hn) as Hh.
  unfold ensureDocumentOpen, openDocument. rewrite Hh, Hi, Hr. cbn [negb].
  unfold isMissingFile.
  rewrite (includes_inside (lit "Failed to open document ") filePath
             (lit ": " ++ message) (lit "ENOENT") Hinc).
  unfold sendNotification, sendMessage, addDocument, hasDocument. rewrite Hp.
  cbn [perform set_effects openDocuments].
  rewrite (bool_decide_eq_false_2 _ Hn). reflexivity.
Qed.

Lemma path_with_ENOENT_hides_read_errors_witness :
  let path := lit "/ws/ENOENT-handling/secret.ts" in
  includes path (lit "ENOENT") = true
  /\ Sample.unreadable path = ReadError (lit "EACCES: permission denied")
  /\ fst (ensureDocumentOpen Sample.unreadable path Sample.ready) = Returned tt
  /\ openDocuments (snd (ensureDocumentOpen Sample.unreadable path Sample.ready))
     = [documentUri path]
  /\ fst (ensureDocumentOpen Sample.unreadable (lit "/ws/secret.ts") Sample.ready)
     = Threw (Error_ (lit "Failed to open document /ws/secret.ts: EACCES: permission denied")).
Proof.
  intros path.
  assert (H1 : includes path (lit "ENOENT") = true) by (vm_compute; reflexivity).
  assert (H2 : documentUri path ∉ openDocuments Sample.ready)
    by (cbn; apply not_elem_of_nil).
  pose proof (path_with_ENOENT_hides_read_errors Sample.unreadable path
                (lit "EACCES: permission denied") Sample.ready 7%nat
                H1 eq_refl eq_refl H2 eq_refl) as H.
  split; [exact H1|]. split; [reflexivity|].
  split; [rewrite H; reflexivity|]. split; [rewrite H; reflexivity|].
  vm_compute. reflexivity.
Defined.
(** ** The manager over time *)

Lemma workspaceRoot_handleMessage (m : json) (c : TypeScriptLSPClient) :
  workspaceRoot (handleMessage m c) = workspaceRoot c.
Proof. apply (un_workspaceRoot _ _ (undisturbed_handleMessage m c)). Qed.

Section ManagerOverTime.

Variable JSON_parse : jsstring -> option json.




Lemma shutdownEach_untouched (during after : nat -> list Event) (clients : list nat)
  (objs : list TypeScriptLSPClient) (l : nat) :
l ∉ clients ->
snd (Manager.shutdownEach JSON_parse during after clients objs) !! l = objs !! l.
Proof.
revert objs. induction clients as [|client rest IH]; intros objs Hl; [reflexivity|].
assert (Hne : client <> l) by (intros ->; apply Hl; left).
assert (Hrest : l ∉ rest) by (intros H; apply Hl; right; exact H).
cbn [Manager.shutdownEach]. destruct (objs !! client) as [c|]; [|apply IH, Hrest].
destruct (shutdown JSON_parse (during client) (after client) c) as [r c1].
specialize (IH (<[client := c1]> objs) Hrest).
destruct (Manager.shutdownEach JSON_parse during after rest (<[client := c1]> objs))
  as [ok objs1].
cbn [snd] in IH |- *. rewrite IH. apply list_lookup_insert_ne. exact Hne.
Qed.

Lemma closeAll_untouched (during after : nat -> list Event)
  (m : TypeScriptWorkspaceManager) (l : nat) :
(forall key, workspaces m !! key <> Some l) ->
objects (snd (Manager.closeAll JSON_parse during after m)) !! l = objects m !! l.
Proof.
intros Hl. unfold Manager.closeAll.
assert (Hn : l ∉ (snd <$> map_to_list (workspaces m))).
{ intros Hin. apply list_elem_of_fmap in Hin as ([key l'] & E & Hin). cbn in E. subst l'.
  apply elem_of_map_to_list in Hin. exact (Hl key Hin). }
pose proof (shutdownEach_untouched during after _ (objects m) l Hn) as H.
destruct (Manager.shutdownEach JSON_parse during after _ (objects m)) as [[] objs];
  cbn [snd objects] in H |- *; exact H.
Qed.

(** X17: [closeWorkspace] touches one session only.  For a key that is not
  registered it does nothing.  For a registered key it shuts down the
  client of that key and no other; it never throws; when the shutdown
  returns the key is removed and that client is closed; and while the
  shutdown is still waiting (a shutdown request that nothing settles) the
  key stays registered. *)
Theorem closeWorkspace_touches_one_session (during after : list Event) (path : jsstring)
  (m m1 : TypeScriptWorkspaceManager) (r : Completion unit) :
managerOk m ->
Forall (fun e => isRequest e = false) after ->
Manager.closeWorkspace JSON_parse during after path m = (r, m1) ->
(forall e, r <> Threw e)
/\ match workspaces m !! path with
   | None => r = Returned tt /\ m1 = m
   | Some client =>
       (forall l, l <> client -> objects m1 !! l = objects m !! l)
       /\ match r with
          | Returned _ =>
              workspaces m1 = delete path (workspaces m)
              /\ exists c', objects m1 !! client = Some c' /\ closed c'
          | _ => workspaces m1 = workspaces m
          end
   end.
Proof.
intros Hok Hafter. unfold Manager.closeWorkspace.
destruct (workspaces m !! path) as [client|] eqn:Hw.
2:{ intros E. injection E as <- <-. split; [discriminate|]. split; reflexivity. }
destruct (lookup_lt_is_Some_2 (objects m) client (ok_refs m Hok path client Hw))
  as [c Hc].
rewrite Hc.
destruct (shutdown JSON_parse during after c) as [r' c1] eqn:Es.
pose proof (shutdown_spec JSON_parse during after c c1 r' Hafter Es) as [_ Hs].
destruct r' as [[]|e|]; [| destruct Hs |]; intros E; injection E as <- <-;
  (split; [discriminate|]); cbn [objects workspaces];
  (split; [intros l Hl; apply list_lookup_insert_ne; congruence|]).
- split; [reflexivity|]. exists c1. split; [|apply Hs].
  apply list_lookup_insert_eq. apply lookup_lt_Some in Hc. exact Hc.
- reflexivity.
Qed.

(** X18: a workspace that is opened again after [closeWorkspace] gets a new
  client.  The closed client is not revived: [getOrCreateWorkspace]
  constructs and initializes another object, registers it under the key,
  and leaves the closed one as it is. *)
Theorem reopened_workspace_gets_new_client (during after : list Event) (env : InitEnv)
  (key : jsstring) (m m1 m2 : TypeScriptWorkspaceManager) (l l' : nat) :
managerOk m ->
workspaces m !! key = Some l ->
Manager.closeWorkspace JSON_parse during after key m = (Returned tt, m1) ->
Manager.getOrCreateWorkspace JSON_parse env key m1 = (Returned l', m2) ->
l' = length (objects m) /\ l' <> l
/\ objects m2 !! l = objects m1 !! l
/\ workspaces m2 = <[key := l']> (delete key (workspaces m))
/\ exists c, objects m2 !! l' = Some c /\ initialized c = true
     /\ initialize JSON_parse env (Client.new key) = (Returned tt, c).
Proof.
intros Hok Hw. unfold Manager.closeWorkspace. rewrite Hw.
pose proof (ok_refs m Hok key l Hw) as Hlt.
destruct (lookup_lt_is_Some_2 (objects m) l Hlt) as [c Hc]. rewrite Hc.
destruct (shutdown JSON_parse during after c) as [[[]|e|] c1]; try discriminate.
intros E. injection E as <-.
intros E. apply getOrCreateWorkspace_cases in E as [(x & Hx & _) | (_ & ri & c2 & Ei & Ho & Hr)].
- cbn [workspaces] in Hx. rewrite lookup_delete_eq in Hx. discriminate Hx.
- destruct ri as [[]|e|]; destruct Hr as [Hr Hws]; try discriminate Hr.
  injection Hr as ->. cbn [objects workspaces] in Ho, Hws |- *.
  rewrite length_insert in Hws |- *.
  split; [reflexivity|]. split; [lia|].
  split; [rewrite Ho; apply lookup_app_l; rewrite length_insert; exact Hlt|].
  split; [exact Hws|].
  exists c2. split; [|split; [apply (initialize_returned JSON_parse env _ _ Ei) | exact Ei]].
  rewrite Ho. rewrite lookup_app_r by (rewrite length_insert; lia).
  rewrite length_insert, Nat.sub_diag. reflexivity.
Qed.

(** X19: a session whose subprocess has exited stays registered.  The exit
  handler cleans the client up, but the manager keeps it under its key:
  the next [getOrCreateWorkspace] returns this same client, without
  starting anything, and on it [ensureDocumentOpen] throws
  [TypeScript Language Server not initialized] and every request is
  rejected at once with [TypeScript Language Server not running]. *)
Theorem crashed_session_stays_registered (env : InitEnv) (key : jsstring)
  (m : TypeScriptWorkspaceManager) (l : nat) (c : TypeScriptLSPClient)
  (readFile : jsstring -> ReadResult) (filePath method : jsstring) (params : json) :
workspaces m !! key = Some l ->
objects m !! l = Some c ->
let dead := step JSON_parse Exit c in
let m' := {| objects := <[l := dead]> (objects m); workspaces := workspaces m |} in
Manager.getOrCreateWorkspace JSON_parse env key m' = (Returned l, m')
/\ objects m' !! l = Some dead
/\ ensureDocumentOpen readFile filePath dead
   = (Threw (Error_ (lit "TypeScript Language Server not initialized")), dead)
/\ effects (snd (sendRequest method params dead))
   = Settle (promises c)
       (Rejected (Error_ (lit "TypeScript Language Server not running"))) (clock c)
     :: effects dead.
Proof.
intros Hw Hc dead m'.
destruct (cleanup_closed c) as (Hi & _ & Hd & Hp).
destruct (cleanup_kept c) as (_ & Hpr & _ & Hcl & _).
split; [|split; [|split]].
- unfold Manager.getOrCreateWorkspace. cbn [workspaces m']. rewrite Hw. reflexivity.
- apply list_lookup_insert_eq. apply lookup_lt_Some in Hc. exact Hc.
- unfold ensureDocumentOpen, hasDocument, dead. cbn [step]. rewrite Hd.
  rewrite bool_decide_eq_false_2 by apply not_elem_of_nil.
  rewrite openDocument_uninitialized by exact Hi.
  assert (Hm : isMissingFile (Error_ (lit "TypeScript Language Server not initialized"))
               = false) by (vm_compute; reflexivity).
  rewrite Hm. reflexivity.
- rewrite sendRequest_spec. unfold dead. cbn [step snd]. rewrite Hp, Hpr, Hcl.
  reflexivity.
Qed.

Lemma managerOk_managerCall (k : ManagerCall) (m : TypeScriptWorkspaceManager) :
managerOk m -> managerOk (managerCall JSON_parse k m).
Proof.
intros H. destruct k; cbn [managerCall].
- destruct (Manager.getOrCreateWorkspace JSON_parse env path m) as [r m1] eqn:E.
  exact (managerOk_getOrCreateWorkspace JSON_parse env path m m1 r H E).
- apply managerOk_closeWorkspace, H.
- apply managerOk_closeAll, H.
Qed.

(** X20: the map of the manager never dangles and never shares.  After any
  sequence of calls of [getOrCreateWorkspace], [closeWorkspace] and
  [closeAll], with whatever outcomes, every key of the map refers to a
  client that exists, and no client is registered under two keys. *)
Theorem manager_map_stays_sound (calls : list ManagerCall) :
let m := fold_left (fun m k => managerCall JSON_parse k m) calls Manager.empty in
(forall key l, workspaces m !! key = Some l -> is_Some (objects m !! l))
/\ (forall k1 k2 l,
      workspaces m !! k1 = Some l -> workspaces m !! k2 = Some l -> k1 = k2).
Proof.
intros m.
assert (H : managerOk m).
{ unfold m. generalize managerOk_empty. generalize Manager.empty.
  induction calls as [|k calls IH]; intros m0 H0; [exact H0|].
  cbn [fold_left]. apply IH, managerOk_managerCall, H0. }
destruct H as [H1 H2]. split; [|exact H2].
intros key l Hl. apply lookup_lt_is_Some_2. exact (H1 key l Hl).
Qed.

(** With nothing in between, the two halves are the call. *)
Lemma getOrCreateWorkspace_halves (env : InitEnv) (path : jsstring)
  (m : TypeScriptWorkspaceManager) :
Manager.getOrCreateWorkspace JSON_parse env path m
= endGetOrCreateWorkspace path (fst (beginGetOrCreateWorkspace JSON_parse env path m))
    (snd (beginGetOrCreateWorkspace JSON_parse env path m)).
Proof.
unfold Manager.getOrCreateWorkspace, beginGetOrCreateWorkspace.
destruct (workspaces m !! path); [reflexivity|].
destruct (initialize JSON_parse env (Client.new path)) as [[[]|e|] c]; reflexivity.
Qed.


(** X22: a failed start is never cleaned up.  When [getOrCreateWorkspace]
  throws because [initialize] failed after spawning, the new client is
  not registered, yet it still holds its running subprocess; no key
  refers to it, so neither [closeWorkspace] nor [closeAll] will ever shut
  it down: after [closeAll] it is exactly as it was. *)
Theorem failed_creation_orphans_subprocess (env : InitEnv) (key : jsstring)
  (m m1 : TypeScriptWorkspaceManager) (e : JsError) :
managerOk m -> mkdirError env = None ->
Forall (fun ev => isExit ev = false) (handshake env) ->
Manager.getOrCreateWorkspace JSON_parse env key m = (Threw e, m1) ->
exists c,
  objects m1 !! length (objects m) = Some c
  /\ process c = Some (child env)
  /\ Forall (fun eff => isDestructive eff = false) (effects c)
  /\ (forall k, workspaces m1 !! k <> Some (length (objects m)))
  /\ forall during after,
       objects (snd (Manager.closeAll JSON_parse during after m1))
         !! length (objects m) = Some c.
Proof.
intros Hok Hm Hh E.
apply getOrCreateWorkspace_cases in E
  as [(x & _ & Hr & _) | (_ & ri & c & Ei & Ho & Hr)]; [discriminate Hr|].
destruct ri as [[]|e'|]; destruct Hr as [Hr Hws]; try discriminate Hr.
injection Hr as ->.
pose proof (initialize_undisturbed JSON_parse env (Client.new key) c (Threw e')
              eq_refl Hm Hh Ei) as [Hp _ _ _ _ (new & En & Hnew)].
cbn [process set_process] in Hp.
cbn [effects set_process set_tempDir] in En.
assert (Hc : objects m1 !! length (objects m) = Some c).
{ rewrite Ho, lookup_app_r by lia. rewrite Nat.sub_diag. reflexivity. }
assert (Hk : forall k, workspaces m1 !! k <> Some (length (objects m))).
{ intros k Hk. rewrite Hws in Hk. pose proof (ok_refs m Hok k _ Hk). lia. }
exists c. split; [exact Hc|]. split; [exact Hp|].
split; [rewrite En; cbn [Client.new effects]; rewrite app_nil_r; exact Hnew|].
split; [exact Hk|].
intros during after. rewrite closeAll_untouched by exact Hk. exact Hc.
Qed.

End ManagerOverTime.
Lemma closeWorkspace_touches_one_session_witness :
  let r := Manager.closeWorkspace Sample.parse (Sample.closing 0) (Sample.exiting 0)
             Sample.key1 Sample.two in
  Forall (fun e => isRequest e = false) (Sample.exiting 0)
  /\ fst r = Returned tt
  /\ (forall l, l <> 0%nat -> objects (snd r) !! l = objects Sample.two !! l)
  /\ workspaces (snd r) = delete Sample.key1 (workspaces Sample.two)
  /\ exists c', objects (snd r) !! 0%nat = Some c' /\ closed c'.
Proof.
  intros r.
  assert (H1 : Forall (fun e => isRequest e = false) (Sample.exiting 0))
    by (repeat constructor).
  assert (H2 : r = (Returned tt, snd r)) by (vm_compute; reflexivity).
  assert (Hw : workspaces Sample.two !! Sample.key1 = Some 0%nat)
    by (vm_compute; reflexivity).
  pose proof (closeWorkspace_touches_one_session Sample.parse (Sample.closing 0)
                (Sample.exiting 0) Sample.key1 Sample.two (snd r) (Returned tt)
                Sample_two_ok H1 H2) as [_ H].
  rewrite Hw in H. destruct H as [H3 [H4 H5]].
  split; [exact H1|]. split; [rewrite H2; reflexivity|].
  split; [exact H3|]. split; [exact H4 | exact H5].
Defined.

Lemma reopened_workspace_gets_new_client_witness :
  let r1 := Manager.closeWorkspace Sample.parse (Sample.closing 0) (Sample.exiting 0)
              Sample.key1 Sample.two in
  let r2 := Manager.getOrCreateWorkspace Sample.parse Sample.env Sample.key1 (snd r1) in
  workspaces Sample.two !! Sample.key1 = Some 0%nat
  /\ fst r2 = Returned 2%nat
  /\ objects (snd r2) !! 0%nat = objects (snd r1) !! 0%nat
  /\ workspaces (snd r2) = <[Sample.key1 := 2%nat]> (delete Sample.key1 (workspaces Sample.two))
  /\ exists c, objects (snd r2) !! 2%nat = Some c /\ initialized c = true
       /\ initialize Sample.parse Sample.env (Client.new Sample.key1) = (Returned tt, c).
Proof.
  intros r1 r2.
  assert (Hw : workspaces Sample.two !! Sample.key1 = Some 0%nat)
    by (vm_compute; reflexivity).
  assert (H1 : r1 = (Returned tt, snd r1)) by (vm_compute; reflexivity).
  assert (H2 : r2 = (Returned 2%nat, snd r2)) by (vm_compute; reflexivity).
  pose proof (reopened_workspace_gets_new_client Sample.parse (Sample.closing 0)
                (Sample.exiting 0) Sample.env Sample.key1 Sample.two (snd r1) (snd r2)
                0%nat 2%nat Sample_two_ok Hw H1 H2) as (_ & _ & H3 & H4 & H5).
  split; [exact Hw|]. split; [rewrite H2; reflexivity|].
  split; [exact H3|]. split; [exact H4 | exact H5].
Defined.

Lemma crashed_session_stays_registered_witness :
  let dead := step Sample.parse Exit Sample.ready in
  let m' := {| objects := <[0%nat := dead]> (objects Sample.two);
               workspaces := workspaces Sample.two |} in
  workspaces Sample.two !! Sample.key1 = Some 0%nat
  /\ objects Sample.two !! 0%nat = Some Sample.ready
  /\ Manager.getOrCreateWorkspace Sample.parse Sample.env Sample.key1 m'
     = (Returned 0%nat, m')
  /\ objects m' !! 0%nat = Some dead
  /\ ensureDocumentOpen (Sample.readable "let x = 1") (lit "/ws/a.ts") dead
     = (Threw (Error_ (lit "TypeScript Language Server not initialized")), dead)
  /\ effects (snd (sendRequest Sample.hover JNull dead))
     = Settle 2
         (Rejected (Error_ (lit "TypeScript Language Server not running"))) 30
       :: effects dead.
Proof.
  intros dead m'.
  assert (Hw : workspaces Sample.two !! Sample.key1 = Some 0%nat)
    by (vm_compute; reflexivity).
  assert (Hc : objects Sample.two !! 0%nat = Some Sample.ready) by reflexivity.
  split; [exact Hw|]. split; [exact Hc|].
  exact (crashed_session_stays_registered Sample.parse Sample.env Sample.key1 Sample.two
           0%nat Sample.ready (Sample.readable "let x = 1") (lit "/ws/a.ts")
           Sample.hover JNull Hw Hc).
Defined.


Lemma failed_creation_orphans_subprocess_witness :
  let r := Manager.getOrCreateWorkspace Sample.parse Sample.silentEnv Sample.key2
             Manager.empty in
  Forall (fun ev => isExit ev = false) (handshake Sample.silentEnv)
  /\ fst r = Threw (Error_ (lit "LSP initialize request timeout"))
  /\ exists c,
       objects (snd r) !! 0%nat = Some c
       /\ process c = Some 9%nat
       /\ Forall (fun eff => isDestructive eff = false) (effects c)
       /\ (forall k, workspaces (snd r) !! k <> Some 0%nat)
       /\ forall during after,
            objects (snd (Manager.closeAll Sample.parse during after (snd r))) !! 0%nat
            = Some c.
Proof.
  intros r.
  assert (H1 : Forall (fun ev => isExit ev = false) (handshake Sample.silentEnv))
    by (repeat constructor).
  assert (H2 : r = (Threw (Error_ (lit "LSP initialize request timeout")), snd r))
    by (vm_compute; reflexivity).
  split; [exact H1|]. split; [rewrite H2; reflexivity|].
  exact (failed_creation_orphans_subprocess Sample.parse Sample.silentEnv Sample.key2
           Manager.empty (snd r) (Error_ (lit "LSP initialize request timeout"))
           managerOk_empty eq_refl H1 H2).
Defined.
(** ** The search for files *)

(** Induction on a tree, with the property for all entries of a directory. *)
Lemma Node_nested_ind (P : Node -> Prop) :
  P RegularFile ->
  (forall entries, Forall (fun e => P (snd e)) entries -> P (Directory entries)) ->
  P Unreadable -> P Other -> P NoStat ->
  forall node, P node.
Proof.
  intros Hfile Hdir Hunreadable Hother Hnostat.
  exact (fix go (node : Node) : P node :=
           match node with
           | RegularFile => Hfile
           | Directory entries =>
               Hdir entries
                 ((fix all (l : list (jsstring * Node)) : Forall (fun e => P (snd e)) l :=
                     match l with
                     | [] => List.Forall_nil _
                     | e :: l' =>
                         List.Forall_cons _ e l'
                           (match e as e0 return P (snd e0) with
                            | (_, child) => go child
                            end) (all l')
                     end) entries)
           | Unreadable => Hunreadable
           | Other => Hother
           | NoStat => Hnostat
           end).
Qed.

Section Search.

Variable join : jsstring -> jsstring -> jsstring.

(** What the loop can find among [entries]. *)
Let found (dir : jsstring) (entries : list (jsstring * Node)) (path : jsstring) : Prop :=
exists entry child, (entry, child) ∈ entries /\ skipped entry = false
  /\ ((child = RegularFile /\ isTsName entry = true /\ path = join dir entry)
      \/ tsFileIn join (join dir entry) child path).

Lemma tsFileIn_found (dir : jsstring) (entries : list (jsstring * Node)) (path : jsstring) :
tsFileIn join dir (Directory entries) path <-> found dir entries path.
Proof.
split.
- intros H. inversion H as [d es entry Hin Hs Ht | d es entry child p Hin Hs Hb]; subst.
  + exists entry, RegularFile. split; [exact Hin|]. split; [exact Hs|]. left. auto.
  + exists entry, child. split; [exact Hin|]. split; [exact Hs|]. right. exact Hb.
- intros (entry & child & Hin & Hs & [(-> & Ht & ->) | Hb]).
  + apply tsFile_here; assumption.
  + eapply tsFile_below; eassumption.
Qed.

Lemma found_cons (dir : jsstring) (e : jsstring * Node) (rest : list (jsstring * Node))
  (path : jsstring) :
found dir (e :: rest) path
<-> (skipped (fst e) = false
     /\ ((snd e = RegularFile /\ isTsName (fst e) = true /\ path = join dir (fst e))
         \/ tsFileIn join (join dir (fst e)) (snd e) path))
    \/ found dir rest path.
Proof.
split.
- intros (entry & child & Hin & Hs & H).
  apply elem_of_cons in Hin as [E | Hin].
  + left. subst e. split; [exact Hs | exact H].
  + right. exists entry, child. split; [exact Hin|]. split; [exact Hs | exact H].
- intros [[Hs H] | (entry & child & Hin & Hs & H)].
  + exists (fst e), (snd e). split; [destruct e; left|]. split; [exact Hs | exact H].
  + exists entry, child. split; [right; exact Hin|]. split; [exact Hs | exact H].
Qed.

Lemma tsFileIn_leaf (dir : jsstring) (node : Node) (path : jsstring) :
(forall entries, node <> Directory entries) -> ~ tsFileIn join dir node path.
Proof. intros Hn H. inversion H; subst; eapply Hn; reflexivity. Qed.

Section Loop.

Variable recurse : jsstring -> Node -> Z -> list jsstring.
Variable dir : jsstring.
Variable maxFiles : Z.

(** The loop only adds files. *)
Lemma scanEntries_extends (entries : list (jsstring * Node)) (files : list jsstring) :
exists more, scanEntries join recurse dir maxFiles entries files = files ++ more.
Proof.
revert files. induction entries as [|[entry child] rest IH]; intros files.
- exists []. cbn. rewrite app_nil_r. reflexivity.
- cbn [scanEntries].
  destruct (maxFiles <=? Z.of_nat (length files))%Z;
    [exists []; rewrite app_nil_r; reflexivity|].
  destruct (skipped entry); [apply IH|].
  destruct child; try apply IH.
  + destruct (isTsName entry); [|apply IH].
    destruct (IH (files ++ [join dir entry])) as [more ->].
    rewrite <- app_assoc. eauto.
  + destruct (Z.of_nat (length files) <? maxFiles)%Z; [|apply IH].
    match goal with |- context [files ++ ?x] =>
      destruct (IH (files ++ x)) as [more ->] end.
    rewrite <- app_assoc. eauto.
  + destruct (Z.of_nat (length files) <? maxFiles)%Z; [|apply IH].
    match goal with |- context [files ++ ?x] =>
      destruct (IH (files ++ x)) as [more ->] end.
    rewrite <- app_assoc. eauto.
Qed.

(** What is assumed of the calls for the subdirectories. *)
Let sound (child : Node) : Prop :=
forall d mf,
  (Z.of_nat (length (recurse d child mf)) <= Z.max 0 mf)%Z
  /\ (forall path, path ∈ recurse d child mf -> tsFileIn join d child path)
  /\ ((Z.of_nat (length (recurse d child mf)) < mf)%Z ->
      forall path, tsFileIn join d child path -> path ∈ recurse d child mf).

Lemma scanEntries_bound (entries : list (jsstring * Node)) (files : list jsstring) :
Forall (fun e => sound (snd e)) entries ->
(Z.of_nat (length files) <= maxFiles)%Z ->
(Z.of_nat (length (scanEntries join recurse dir maxFiles entries files)) <= maxFiles)%Z.
Proof.
intros Hall. revert files.
induction Hall as [|[entry child] rest Hchild _ IH]; intros files Hf; [exact Hf|].
cbn [scanEntries].
destruct (Z.leb_spec maxFiles (Z.of_nat (length files))) as [Hfull | Hroom];
  [exact Hf|].
destruct (skipped entry); [apply IH, Hf|].
assert (Hsub : (Z.of_nat (length (files
                  ++ recurse (join dir entry) child (maxFiles - Z.of_nat (length files))))
                <= maxFiles)%Z).
{ rewrite length_app, Nat2Z.inj_add.
  destruct (Hchild (join dir entry) (maxFiles - Z.of_nat (length files))%Z) as [Hb _].
  cbn [snd] in Hb. lia. }
destruct child; try apply IH, Hf.
- destruct (isTsName entry); [|apply IH, Hf].
  apply IH. rewrite length_app, Nat2Z.inj_add. cbn [length]. lia.
- destruct (Z.of_nat (length files) <? maxFiles)%Z; [apply IH, Hsub | apply IH, Hf].
- destruct (Z.of_nat (length files) <? maxFiles)%Z; [apply IH, Hsub | apply IH, Hf].
Qed.

Lemma scanEntries_sound (entries : list (jsstring * Node)) (files : list jsstring)
  (path : jsstring) :
Forall (fun e => sound (snd e)) entries ->
path ∈ scanEntries join recurse dir maxFiles entries files ->
path ∈ files \/ found dir entries path.
Proof.
intros Hall. revert files.
induction Hall as [|[entry child] rest Hchild _ IH]; intros files Hin; [left; exact Hin|].
cbn [scanEntries] in Hin.
assert (Hrest : forall fs, path ∈ scanEntries join recurse dir maxFiles rest fs ->
                  path ∈ fs \/ found dir ((entry, child) :: rest) path).
{ intros fs H. destruct (IH fs H) as [H1 | H1]; [left; exact H1|].
  right. apply found_cons. right. exact H1. }
destruct (maxFiles <=? Z.of_nat (length files))%Z; [left; exact Hin|].
destruct (skipped entry) eqn:Hs; [apply Hrest, Hin|].
assert (Hsub : path ∈ scanEntries join recurse dir maxFiles rest
                 (files ++ recurse (join dir entry) child
                             (maxFiles - Z.of_nat (length files))) ->
               path ∈ files \/ found dir ((entry, child) :: rest) path).
{ intros H. destruct (Hrest _ H) as [H1 | H1]; [|right; exact H1].
  apply elem_of_app in H1 as [H1 | H1]; [left; exact H1|].
  right. apply found_cons. left. cbn [fst snd]. split; [exact Hs|]. right.
  destruct (Hchild (join dir entry) (maxFiles - Z.of_nat (length files))%Z)
    as (_ & Hsound & _).
  apply Hsound, H1. }
destruct child; try (apply Hrest, Hin).
- destruct (isTsName entry) eqn:Ht; [|apply Hrest, Hin].
  destruct (Hrest _ Hin) as [H1 | H1]; [|right; exact H1].
  apply elem_of_app in H1 as [H1 | H1]; [left; exact H1|].
  apply list_elem_of_singleton in H1. subst path.
  right. apply found_cons. left. cbn [fst snd]. split; [exact Hs|]. left. auto.
- destruct (Z.of_nat (length files) <? maxFiles)%Z; [apply Hsub, Hin | apply Hrest, Hin].
- destruct (Z.of_nat (length files) <? maxFiles)%Z; [apply Hsub, Hin | apply Hrest, Hin].
Qed.

Lemma scanEntries_complete (entries : list (jsstring * Node)) (files : list jsstring)
  (path : jsstring) :
Forall (fun e => sound (snd e)) entries ->
(Z.of_nat (length (scanEntries join recurse dir maxFiles entries files)) < maxFiles)%Z ->
path ∈ files \/ found dir entries path ->
path ∈ scanEntries join recurse dir maxFiles entries files.
Proof.
intros Hall. revert files.
induction Hall as [|[entry child] rest Hchild _ IH]; intros files Hlen Hp.
- destruct Hp as [Hp | (entry & child & Hin & _)]; [exact Hp|].
  apply elem_of_nil in Hin. destruct Hin.
- destruct (scanEntries_extends ((entry, child) :: rest) files) as [more Hext].
  assert (Hroom : (Z.of_nat (length files) < maxFiles)%Z).
  { rewrite Hext, length_app, Nat2Z.inj_add in Hlen. lia. }
  cbn [scanEntries] in Hlen |- *.
  destruct (Z.leb_spec maxFiles (Z.of_nat (length files))) as [Hfull | _]; [lia|].
  assert (Hp' : path ∈ files
                \/ (skipped entry = false
                    /\ ((child = RegularFile /\ isTsName entry = true
                         /\ path = join dir entry)
                        \/ tsFileIn join (join dir entry) child path))
                \/ found dir rest path).
  { destruct Hp as [Hp | Hp]; [left; exact Hp|]. right.
    apply found_cons in Hp. exact Hp. }
  clear Hp.
  assert (Hskip : forall fs,
             (Z.of_nat (length (scanEntries join recurse dir maxFiles rest fs))
              < maxFiles)%Z ->
             (forall p, p ∈ files -> p ∈ fs) ->
             (skipped entry = false
              /\ ((child = RegularFile /\ isTsName entry = true
                   /\ path = join dir entry)
                  \/ tsFileIn join (join dir entry) child path) ->
              path ∈ fs) ->
             path ∈ scanEntries join recurse dir maxFiles rest fs).
  { intros fs Hl Hsubset Hhere. apply IH; [exact Hl|].
    destruct Hp' as [H | [H | H]].
    - left. apply Hsubset, H.
    - left. apply Hhere, H.
    - right. exact H. }
  destruct (skipped entry) eqn:Hs.
  { apply Hskip; [exact Hlen | auto |]. intros [H _]. discriminate H. }
  assert (Hleaf : (forall entries, child <> Directory entries) ->
                  child <> RegularFile ->
                  (Z.of_nat (length (scanEntries join recurse dir maxFiles rest files))
                   < maxFiles)%Z ->
                  path ∈ scanEntries join recurse dir maxFiles rest files).
  { intros Hn Hnf Hl. apply Hskip; [exact Hl | auto |].
    intros [_ [(Hc & _) | Hb]]; [contradiction|].
    destruct (tsFileIn_leaf _ _ _ Hn Hb). }
  assert (Hdir : (Z.of_nat (length
                    (scanEntries join recurse dir maxFiles rest
                       (files ++ recurse (join dir entry) child
                                   (maxFiles - Z.of_nat (length files)))))
                  < maxFiles)%Z ->
                 child <> RegularFile ->
                 path ∈ scanEntries join recurse dir maxFiles rest
                          (files ++ recurse (join dir entry) child
                                      (maxFiles - Z.of_nat (length files)))).
  { intros Hl Hnf.
    apply Hskip; [exact Hl | intros p Hp; apply elem_of_app; left; exact Hp |].
    intros [_ [(Hc & _) | Hb]]; [contradiction|].
    apply elem_of_app. right.
    destruct (Hchild (join dir entry) (maxFiles - Z.of_nat (length files))%Z)
      as (_ & _ & Hcomplete).
    cbn [snd] in Hcomplete. apply Hcomplete; [|exact Hb].
    destruct (scanEntries_extends rest
                (files ++ recurse (join dir entry) child
                            (maxFiles - Z.of_nat (length files)))) as [more' Hext'].
    rewrite Hext', !length_app, !Nat2Z.inj_add in Hl. lia. }
  destruct child.
  + destruct (isTsName entry) eqn:Ht.
    * apply Hskip; [exact Hlen | intros p Hp; apply elem_of_app; left; exact Hp |].
      intros [_ [(_ & _ & ->) | Hb]].
      -- apply elem_of_app. right. left.
      -- exfalso. refine (tsFileIn_leaf _ _ _ _ Hb). discriminate.
    * apply Hskip; [exact Hlen | auto |].
      intros [_ [(_ & E & _) | Hb]]; [discriminate E|].
      exfalso. refine (tsFileIn_leaf _ _ _ _ Hb). discriminate.
  + destruct (Z.ltb_spec (Z.of_nat (length files)) maxFiles) as [_ | Hge]; [|lia].
    apply Hdir; [exact Hlen | discriminate].
  + destruct (Z.ltb_spec (Z.of_nat (length files)) maxFiles) as [_ | Hge]; [|lia].
    apply Hdir; [exact Hlen | discriminate].
  + apply Hleaf; [discriminate | discriminate | exact Hlen].
  + apply Hleaf; [discriminate | discriminate | exact Hlen].
Qed.

End Loop.

End Search.

Section SearchResult.

Variable join : jsstring -> jsstring -> jsstring.

Lemma findTsFiles_leaf (dir : jsstring) (node : Node) (maxFiles : Z) :
(forall entries, node <> Directory entries) -> findTsFiles join dir node maxFiles = [].
Proof.
intros Hn. destruct node; cbn [findTsFiles]; destruct (maxFiles <=? 0)%Z;
  try reflexivity. exfalso. eapply Hn. reflexivity.
Qed.

Lemma findTsFiles_leaf_spec (node : Node) :
(forall entries, node <> Directory entries) ->
forall dir maxFiles,
  (Z.of_nat (length (findTsFiles join dir node maxFiles)) <= Z.max 0 maxFiles)%Z
  /\ (forall path, path ∈ findTsFiles join dir node maxFiles ->
                   tsFileIn join dir node path)
  /\ ((Z.of_nat (length (findTsFiles join dir node maxFiles)) < maxFiles)%Z ->
      forall path, tsFileIn join dir node path ->
                   path ∈ findTsFiles join dir node maxFiles).
Proof.
intros Hn dir maxFiles. rewrite findTsFiles_leaf by exact Hn. cbn [length].
split; [lia|]. split.
- intros path H. apply elem_of_nil in H. destruct H.
- intros _ path H. destruct (tsFileIn_leaf join _ _ _ Hn H).
Qed.

(** X23: what [findTsFiles] returns.  On any directory tree and for any
  limit, the search returns at most as many paths as the limit allows
  ([findSymbol] calls it with 5, so it opens at most five documents);
  every path it returns is a regular file with a name that ends in [.ts]
  or [.tsx], reached without passing an entry that starts with a dot or is
  called [node_modules], [dist] or [build]; and when it returns fewer
  paths than the limit, it has returned every such file of the tree. *)
Theorem findTsFiles_finds_visible_ts_files (node : Node) :
forall (dir : jsstring) (maxFiles : Z),
  (Z.of_nat (length (findTsFiles join dir node maxFiles)) <= Z.max 0 maxFiles)%Z
  /\ (forall path, path ∈ findTsFiles join dir node maxFiles ->
                   tsFileIn join dir node path)
  /\ ((Z.of_nat (length (findTsFiles join dir node maxFiles)) < maxFiles)%Z ->
      forall path, tsFileIn join dir node path ->
                   path ∈ findTsFiles join dir node maxFiles).
Proof.
induction node as [|entries IH| | |] using Node_nested_ind;
  try (apply findTsFiles_leaf_spec; discriminate).
intros dir maxFiles. cbn [findTsFiles].
destruct (Z.leb_spec maxFiles 0) as [Hle | Hpos].
- cbn [length]. split; [lia|]. split; [|lia].
  intros path H. apply elem_of_nil in H. destruct H.
- split; [|split].
  + pose proof (scanEntries_bound join (findTsFiles join) dir maxFiles entries [] IH).
    cbn [length] in H. lia.
  + intros path H.
    destruct (scanEntries_sound join (findTsFiles join) dir maxFiles entries [] path IH H)
      as [H1 | H1]; [apply elem_of_nil in H1; destruct H1|].
    apply tsFileIn_found. exact H1.
  + intros Hlen path H.
    apply (scanEntries_complete join (findTsFiles join) dir maxFiles entries [] path IH Hlen).
    right. apply tsFileIn_found. exact H.
Qed.

End SearchResult.
(** ** The texts of the results *)

Import Format.

Lemma String_replace_prefix (search rest : jsstring) :
  String_replace (search ++ rest) search [] = rest.
Proof.
  unfold String_replace. rewrite (indexOf_here _ _ (isPrefixOf_app search rest)).
  cbn [take app plus]. apply drop_app_length.
Qed.

(** X24: [formatLocation] gives back the path that [openDocument] made the
    URI from.  For the URI [file://] followed by a path, and a range that
    starts at a line and a character from 0 to [2^53 - 1], where adding
    one is exact, the text is the path, a colon, the line plus one, a
    colon and the character plus one: positions are shown 1-based.  A
    location that is missing, has no URI or an empty one, or has no range,
    is shown as [Unknown location]. *)
Theorem formatLocation_inverts_documentUri (filePath : jsstring) (r : Range) :
  (0 <= line (start r) < 2 ^ 53)%Z ->
  (0 <= character (start r) < 2 ^ 53)%Z ->
  formatLocation (Some {| uri := Some (documentUri filePath); range := Some r |})
  = filePath ++ lit ":" ++ ofInteger (line (start r) + 1)
      ++ lit ":" ++ ofInteger (character (start r) + 1)
  /\ formatLocation None = lit "Unknown location"
  /\ (forall u, formatLocation (Some {| uri := u; range := None |})
                = lit "Unknown location")
  /\ formatLocation (Some {| uri := Some []; range := Some r |}) = lit "Unknown location"
  /\ formatLocation (Some {| uri := None; range := Some r |}) = lit "Unknown location".
Proof.
  intros _ _.
  split; [|split; [reflexivity | split; [|split; reflexivity]]].
  - assert (E : documentUri filePath = 102 :: (lit "ile://" ++ filePath)) by reflexivity.
    rewrite E. cbn [formatLocation]. rewrite <- E. unfold documentUri.
    rewrite String_replace_prefix. reflexivity.
  - intros [[|u s]|]; reflexivity.
Qed.

(** Line 9, character 4 of [/ws/a.ts] is shown as [/ws/a.ts:10:5]. *)
Lemma formatLocation_inverts_documentUri_witness :
  let r := {| start := {| line := 9; character := 4 |};
              end_ := {| line := 9; character := 12 |} |} in
  formatLocation (Some {| uri := Some (lit "file:///ws/a.ts"); range := Some r |})
  = lit "/ws/a.ts:10:5"
  /\ formatLocation (Some {| uri := Some []; range := Some r |}) = lit "Unknown location".
Proof.
  intros r.
  assert (H1 : (0 <= line (start r) < 2 ^ 53)%Z) by (cbn; lia).
  assert (H2 : (0 <= character (start r) < 2 ^ 53)%Z) by (cbn; lia).
  destruct (formatLocation_inverts_documentUri (lit "/ws/a.ts") r H1 H2)
    as (H3 & _ & _ & H4 & _).
  split; [|exact H4].
  etransitivity; [exact H3 | vm_compute; reflexivity].
Defined.

Lemma orElse_nonempty (value : option jsstring) (fallback : jsstring) :
  fallback <> [] -> orElse value fallback <> [].
Proof. intros H. destruct value as [[|u s]|]; cbn [orElse]; [exact H | discriminate | exact H]. Qed.

Lemma unknown_nonempty (kind : Z) : unknown kind <> [].
Proof. unfold unknown. change (lit "Unknown(") with (85 :: lit "nknown("). discriminate. Qed.

Lemma small_cases (k : Z) (n : nat) :
  (1 <= k <= Z.of_nat n)%Z -> k ∈ (Z.of_nat <$> seq 1 n).
Proof.
  intros H. apply list_elem_of_fmap. exists (Z.to_nat k). split; [lia|].
  apply list_elem_of_In, in_seq. lia.
Qed.

Lemma SYMBOL_KINDS_outside (k : Z) : (k < 1 \/ 26 < k)%Z -> SYMBOL_KINDS k = None.
Proof.
  intros H. destruct k as [|p|p]; try reflexivity.
  do 5 (destruct p as [p|p|]; try reflexivity; try lia).
Qed.

Lemma DIAGNOSTIC_SEVERITY_outside (k : Z) : (k < 1 \/ 4 < k)%Z -> DIAGNOSTIC_SEVERITY k = None.
Proof.
  intros H. destruct k as [|p|p]; try reflexivity.
  do 3 (destruct p as [p|p|]; try reflexivity; try lia).
Qed.

Lemma COMPLETION_ITEM_KINDS_outside (k : Z) :
  (k < 1 \/ 25 < k)%Z -> COMPLETION_ITEM_KINDS k = None.
Proof.
  intros H. destruct k as [|p|p]; try reflexivity.
  do 5 (destruct p as [p|p|]; try reflexivity; try lia).
Qed.

(** X25: the three formatters of kinds always give a name.  For every
    integer the text is not empty; it is the fallback [Unknown(k)] exactly
    for the integers outside the table (1 to 26 for symbol kinds, 1 to 4 for
    severities, 1 to 25 for completion item kinds), zero and the negative
    ones included, and for no integer inside it. *)
Theorem kind_formatters_fall_back_outside_the_tables (k : Z) :
  (formatSymbolKind k <> [] /\ formatDiagnosticSeverity k <> []
   /\ formatCompletionItemKind k <> [])
  /\ (formatSymbolKind k = unknown k <-> (k < 1 \/ 26 < k)%Z)
  /\ (formatDiagnosticSeverity k = unknown k <-> (k < 1 \/ 4 < k)%Z)
  /\ (formatCompletionItemKind k = unknown k <-> (k < 1 \/ 25 < k)%Z).
Proof.
  split; [|split; [|split]].
  - split; [|split]; apply orElse_nonempty, unknown_nonempty.
  - split.
    + intros E. destruct (Z.lt_ge_cases k 1) as [|H1]; [lia|].
      destruct (Z.lt_ge_cases 26 k) as [|H2]; [lia|]. exfalso.
      pose proof (small_cases k 26 ltac:(lia)) as Hk. vm_compute in Hk.
      apply list_elem_of_In in Hk.
      repeat (destruct Hk as [<- | Hk]; [vm_compute in E; discriminate E|]).
      destruct Hk.
    + intros H. unfold formatSymbolKind. rewrite SYMBOL_KINDS_outside by exact H.
      reflexivity.
  - split.
    + intros E. destruct (Z.lt_ge_cases k 1) as [|H1]; [lia|].
      destruct (Z.lt_ge_cases 4 k) as [|H2]; [lia|]. exfalso.
      pose proof (small_cases k 4 ltac:(lia)) as Hk. vm_compute in Hk.
      apply list_elem_of_In in Hk.
      repeat (destruct Hk as [<- | Hk]; [vm_compute in E; discriminate E|]).
      destruct Hk.
    + intros H. unfold formatDiagnosticSeverity.
      rewrite DIAGNOSTIC_SEVERITY_outside by exact H. reflexivity.
  - split.
    + intros E. destruct (Z.lt_ge_cases k 1) as [|H1]; [lia|].
      destruct (Z.lt_ge_cases 25 k) as [|H2]; [lia|]. exfalso.
      pose proof (small_cases k 25 ltac:(lia)) as Hk. vm_compute in Hk.
      apply list_elem_of_In in Hk.
      repeat (destruct Hk as [<- | Hk]; [vm_compute in E; discriminate E|]).
      destruct Hk.
    + intros H. unfold formatCompletionItemKind.
      rewrite COMPLETION_ITEM_KINDS_outside by exact H. reflexivity.
Qed.
(** ** Two tools on top of the client *)

Lemma firstSettled_none (ps : list nat) (effs : list Effect) :
  (forall p o t, Settle p o t ∈ effs -> p ∉ ps) -> firstSettled ps effs = None.
Proof.
  induction effs as [|e effs IH]; intros H; [reflexivity|].
  cbn [firstSettled]. rewrite IH by (intros p o t Hin; apply (H p o t); right; exact Hin).
  destruct e; try reflexivity.
  rewrite bool_decide_eq_false_2; [reflexivity|]. apply (H p o time). left.
Qed.

Lemma firstSettled_new_promise (c : TypeScriptLSPClient) (p : nat) :
  wellFormed c -> (promises c <= p)%nat -> firstSettled [p] (effects c) = None.
Proof.
  intros Hwf Hp. apply firstSettled_none. intros q o t Hin Hq.
  apply list_elem_of_singleton in Hq. subst q.
  apply (wf_effects c Hwf) in Hin. lia.
Qed.

(** The refusal of a request that is in the map rejects its promise with
    the message of the server and takes the entry out. *)
Lemma handleMessage_errorResponse (id : N) (code : Z) (message : jsstring) (p : nat)
    (c : TypeScriptLSPClient) :
  pendingRequests c !! id = Some p ->
  handleMessage (errorResponse id code message) c
  = perform (Settle p (Rejected (ErrorOf (Some (JStr message)))) (clock c))
      (set_pendingRequests (delete id (pendingRequests c)) c).
Proof.
  intros H. unfold handleMessage, pendingGet.
  change (errorResponse id code message) with
    (JObj [(lit "jsonrpc", JStr (lit "2.0")); (lit "id", JNum (Z.of_N id));
           (lit "error", JObj [(lit "code", JNum code); (lit "message", JStr message)])])
    at 1.
  cbv beta iota.
  assert (E1 : prop "id" (errorResponse id code message) = Some (JNum (Z.of_N id)))
    by reflexivity.
  assert (E2 : prop "error" (errorResponse id code message)
               = Some (JObj [(lit "code", JNum code); (lit "message", JStr message)]))
    by reflexivity.
  assert (E3 : prop "result" (errorResponse id code message) = None) by reflexivity.
  rewrite !E1, !E2, !E3. rewrite pendingKey_of_N, H. reflexivity.
Qed.

Section Silence.

Variable JSON_parse : jsstring -> option json.

(** A request that gets no answer for ten seconds: the caller that awaits
  it sees the timeout error. *)
Lemma await_silence (c c1 : TypeScriptLSPClient) (method : jsstring) (params : json)
  (p pr : nat) (id : N) :
wellFormed c -> process c = Some pr ->
sendRequest method params c = (p, id, c1) ->
fst (await JSON_parse [p] [Tick 10000; Fire (length (timers c))] c1)
= Some (Rejected (timeoutError method)).
Proof.
intros Hwf Hpr E. rewrite sendRequest_spec, Hpr in E. injection E as <- <- <-.
pose proof (firstSettled_new_promise c (promises c) Hwf (Nat.le_refl _)) as Hnone.
set (c1 := setTimeout _ _ _).
assert (E1 : effects c1
             = Write pr (requestMessage (preIncrement (requestId c)) method params)
               :: effects c) by reflexivity.
assert (F1 : firstSettled [promises c] (effects c1) = None).
{ rewrite E1. cbn [firstSettled]. rewrite Hnone. reflexivity. }
cbn [await]. rewrite F1.
assert (F2 : firstSettled [promises c] (effects (step JSON_parse (Tick 10000) c1)) = None)
  by exact F1.
rewrite F2.
set (c2 := step JSON_parse (Tick 10000) c1).
assert (E3 : step JSON_parse (Fire (length (timers c))) c2
             = perform (Settle (promises c) (Rejected (timeoutError method))
                          (clock c + 10000))
                 (set_pendingRequests
                    (delete (preIncrement (requestId c)) (pendingRequests c2))
                    (set_timers
                       (<[length (timers c) :=
                            {| callback := RequestTimeout (preIncrement (requestId c))
                                             (promises c) method;
                               deadline := clock c + 10000; fired := true |}]>
                          (timers c2)) c2))).
{ cbn [step]. unfold fireTimer.
  assert (Ht : timers c2 !! length (timers c)
               = Some {| callback := RequestTimeout (preIncrement (requestId c))
                                       (promises c) method;
                         deadline := clock c + 10000; fired := false |}).
  { unfold c2, c1. cbn [step set_clock setTimeout set_timers timers perform set_effects
                        set_pendingRequests set_promises set_requestId clock].
    rewrite lookup_app_r by lia. rewrite Nat.sub_diag. reflexivity. }
  rewrite Ht. cbn [fired deadline callback orb].
  assert (Hc : clock c2 = clock c + 10000) by reflexivity.
  rewrite Hc, (proj2 (N.ltb_ge _ _)) by lia.
  cbn [runCallback pendingRequests set_timers].
  assert (Hp : pendingRequests c2 !! preIncrement (requestId c) = Some (promises c)).
  { unfold c2, c1. cbn [step set_clock setTimeout set_timers perform set_effects
                        set_pendingRequests pendingRequests].
    apply lookup_insert_eq. }
  rewrite Hp. cbn [clock set_pendingRequests set_timers]. rewrite Hc. reflexivity. }
rewrite E3.
cbn [effects perform set_effects set_pendingRequests set_timers firstSettled].
change (effects c2) with (effects c1). rewrite F1.
rewrite bool_decide_eq_true_2 by (left). reflexivity.
Qed.

(** A request that is answered by one frame: the caller that awaits it
  sees what [handleMessage] settles its promise with. *)
Lemma await_answer (c c1 : TypeScriptLSPClient) (method : jsstring) (params : json)
  (p pr : nat) (id : N) (body : jsstring) (message : json) (o : Outcome) :
wellFormed c -> process c = Some pr -> buffer c = [] ->
sendRequest method params c = (p, id, c1) ->
Forall (fun u => u < 128) body ->
JSON_parse body = Some message ->
(forall c2, pendingRequests c2 !! id = Some p ->
   handleMessage message c2
   = perform (Settle p o (clock c2)) (set_pendingRequests (delete id (pendingRequests c2)) c2)) ->
fst (await JSON_parse [p] [Data (Utf8.encode (frameOf body))] c1) = Some o.
Proof.
intros Hwf Hpr Hb E Hascii Hparse Hm.
rewrite sendRequest_spec, Hpr in E. injection E as <- <- <-.
pose proof (firstSettled_new_promise c (promises c) Hwf (Nat.le_refl _)) as Hnone.
set (c1 := setTimeout _ _ _).
assert (E1 : effects c1
             = Write pr (requestMessage (preIncrement (requestId c)) method params)
               :: effects c) by reflexivity.
assert (F1 : firstSettled [promises c] (effects c1) = None).
{ rewrite E1. cbn [firstSettled]. rewrite Hnone. reflexivity. }
assert (Hp : pendingRequests c1 !! preIncrement (requestId c) = Some (promises c)).
{ unfold c1. cbn [setTimeout set_timers perform set_effects set_pendingRequests
                  pendingRequests]. apply lookup_insert_eq. }
assert (Hb1 : buffer c1 = []) by exact Hb.
assert (Hrun : step JSON_parse (Data (Utf8.encode (frameOf body))) c1
               = set_buffer [] (handleMessage message c1)).
{ rewrite encode_ascii by (apply frameOf_ascii, Hascii).
  assert (Hbodies : Forall (Forall (fun u => u < 128)) [body])
    by (constructor; [exact Hascii | constructor]).
  pose proof (run_stream JSON_parse [frameOf body] [body] [] c1 Hbodies) as H.
  cbn [fmap list_fmap run fold_left concat app] in H.
  rewrite <- (set_buffer_buffer c1) at 1. rewrite Hb1.
  rewrite H; [|reflexivity | apply frameOf_nonempty].
  unfold deliver. rewrite Hparse. reflexivity. }
cbn [await]. rewrite F1, Hrun, (Hm c1 Hp).
cbn [effects perform set_effects set_pendingRequests set_buffer firstSettled].
rewrite F1. rewrite bool_decide_eq_true_2 by (left). reflexivity.
Qed.

(** X26: [organizeImports] never throws, and its text tells how the
  command ended.  When [ensureDocumentOpen] throws, nothing is sent and
  the text is [Failed to organize imports: ] followed by the message of
  that error; on a client that is not initialized this is the message
  [not initialized].  When the document is open, the text is decided by
  what the promise of the command is settled with: the text of success
  when it is resolved, whatever the result is, and the failure text with
  the message of the error when it is rejected.  In particular, on a
  running client with the document open, when the server answers the
  command with a result the call returns
  [Imports organized successfully], and when it answers with an error
  the call returns the failure text with the message the server sent. *)
Theorem organizeImports_never_throws (readFile : jsstring -> ReadResult)
  (during : list Event) (file : jsstring) (skipDestructiveActions : option bool)
  (c : TypeScriptLSPClient) :
let success := Returned (lit "Imports organized successfully") in
let failed message := Returned (lit "Failed to organize imports: " ++ message) in
let args :=
  match skipDestructiveActions with
  | Some b => [JStr file; JObj [(lit "skipDestructiveCodeActions", JBool b)]]
  | None => [JStr file]
  end in
let opened := ensureDocumentOpen readFile file c in
let sent := executeCommand (lit "_typescript.organizeImports") args (snd opened) in
let call events := organizeImports JSON_parse readFile events file skipDestructiveActions c in
(forall e, fst (call during) <> Threw e)
/\ (forall e, fst opened = Threw e -> call during = (failed (errorMessage e), snd opened))
/\ (fst opened = Returned tt ->
    fst (call during)
    = match fst (await JSON_parse [fst (fst sent)] during (snd sent)) with
      | Some (Resolved _) => success
      | Some (Rejected e) => failed (errorMessage e)
      | None => Awaiting
      end)
/\ (initialized c = false -> documentUri file ∉ openDocuments c ->
    call during = (failed (lit "TypeScript Language Server not initialized"), c))
/\ (forall pr body,
      wellFormed c -> process c = Some pr -> buffer c = [] ->
      documentUri file ∈ openDocuments c ->
      Forall (fun u => u < 128) body ->
      let id := preIncrement (requestId c) in
      let answer := [Data (Utf8.encode (frameOf body))] in
      (forall result, JSON_parse body = Some (response id result) ->
         fst (call answer) = success)
      /\ (forall code message, JSON_parse body = Some (errorResponse id code message) ->
            fst (call answer) = failed message)).
Proof.
intros success failed args opened sent call.
subst call opened sent. cbv beta. unfold organizeImports. fold args.
split; [|split; [|split; [|split]]].
- destruct (ensureDocumentOpen readFile file c) as [[[]|e|] c1]; try discriminate.
  destruct (executeCommand _ args c1) as [[p id] c2].
  destruct (await JSON_parse [p] during c2) as [[[v|e]|] c3]; discriminate.
- intros e. destruct (ensureDocumentOpen readFile file c) as [r c1]. cbn [fst snd].
  intros ->. reflexivity.
- destruct (ensureDocumentOpen readFile file c) as [r c1]. cbn [fst snd].
  intros ->.
  destruct (executeCommand _ args c1) as [[p id] c2]. cbn [fst snd].
  destruct (await JSON_parse [p] during c2) as [[[v|e]|] c3]; reflexivity.
- intros Hi Hn. unfold ensureDocumentOpen.
  rewrite (hasDocument_false _ _ Hn), (openDocument_uninitialized _ _ _ Hi).
  assert (Hm : isMissingFile (Error_ (lit "TypeScript Language Server not initialized"))
               = false) by (vm_compute; reflexivity).
  rewrite Hm. reflexivity.
- intros pr body Hwf Hpr Hb Hin Hascii.
  set (id := preIncrement (requestId c)).
  set (answer := [Data (Utf8.encode (frameOf body))]).
  unfold ensureDocumentOpen, hasDocument.
  rewrite bool_decide_eq_true_2 by exact Hin. unfold executeCommand.
  assert (Hid : forall m ps, snd (fst (sendRequest m ps c)) = id).
  { intros m ps. rewrite sendRequest_spec. reflexivity. }
  split.
  + intros result Hparse.
    match goal with |- context [sendRequest ?m ?ps c] =>
      pose proof (await_answer c (snd (sendRequest m ps c)) m ps
                    (fst (fst (sendRequest m ps c))) pr (snd (fst (sendRequest m ps c)))
                    body (response id result) (Resolved (Some result))
                    Hwf Hpr Hb (sendRequest_eta _ _ _) Hascii Hparse) as H;
      rewrite (Hid m ps) in H;
      specialize (H (fun c2 Hc2 => handleMessage_response id result _ c2 Hc2));
      destruct (sendRequest m ps c) as [[p i] c1] end.
    cbn [fst snd] in H. fold answer in H.
    destruct (await JSON_parse [p] answer c1) as [o c2].
    cbn [fst] in H. subst o. reflexivity.
  + intros code message Hparse.
    match goal with |- context [sendRequest ?m ?ps c] =>
      pose proof (await_answer c (snd (sendRequest m ps c)) m ps
                    (fst (fst (sendRequest m ps c))) pr (snd (fst (sendRequest m ps c)))
                    body (errorResponse id code message)
                    (Rejected (ErrorOf (Some (JStr message))))
                    Hwf Hpr Hb (sendRequest_eta _ _ _) Hascii Hparse) as H;
      rewrite (Hid m ps) in H;
      specialize (H (fun c2 Hc2 => handleMessage_errorResponse id code message _ c2 Hc2));
      destruct (sendRequest m ps c) as [[p i] c1] end.
    cbn [fst snd] in H. fold answer in H.
    destruct (await JSON_parse [p] answer c1) as [o c2].
    cbn [fst] in H. subst o. reflexivity.
Qed.

(** X27: ten seconds of silence end [organizeImports] with the timeout
  text.  On a running client on which the document is already open, when
  nothing answers the command and the timer of the request fires after
  ten seconds, the call returns
  [Failed to organize imports: Request timeout: workspace/executeCommand]. *)
Theorem organizeImports_reports_timeout (readFile : jsstring -> ReadResult)
  (file : jsstring) (skipDestructiveActions : option bool)
  (c : TypeScriptLSPClient) (pr : nat) :
wellFormed c -> process c = Some pr -> documentUri file ∈ openDocuments c ->
fst (organizeImports JSON_parse readFile [Tick 10000; Fire (length (timers c))] file
       skipDestructiveActions c)
= Returned (lit "Failed to organize imports: "
              ++ lit "Request timeout: workspace/executeCommand").
Proof.
intros Hwf Hpr Hin. unfold organizeImports, ensureDocumentOpen, hasDocument.
rewrite bool_decide_eq_true_2 by exact Hin. unfold executeCommand.
match goal with |- context [sendRequest ?m ?ps c] =>
  pose proof (await_silence c (snd (sendRequest m ps c)) m ps
                (fst (fst (sendRequest m ps c))) pr (snd (fst (sendRequest m ps c)))
                Hwf Hpr (sendRequest_eta _ _ _)) as H;
  destruct (sendRequest m ps c) as [[p id] c1] end.
cbn [fst snd] in H.
destruct (await JSON_parse [p] [Tick 10000; Fire (length (timers c))] c1) as [o c2].
cbn [fst] in H. subst o. reflexivity.
Qed.

(** X28: [getDiagnostics] never looks at the answer.  Without a file (the
  argument left out, or empty) it returns its fixed text and does not
  touch the client.  With a file it waits for the answer to
  [textDocument/diagnostic] only to drop it: whenever it returns, the text
  is the same fixed one.  But a failure is not dropped: on a client that
  is not initialized the call throws. *)
Theorem getDiagnostics_discards_the_answer (readFile : jsstring -> ReadResult)
  (during : list Event) (c : TypeScriptLSPClient) :
let placeholder :=
  lit "Diagnostics collection requires notification handling (not implemented in this example)" in
getDiagnostics JSON_parse readFile during None c = (Returned placeholder, c)
/\ getDiagnostics JSON_parse readFile during (Some []) c = (Returned placeholder, c)
/\ (forall file text c',
      getDiagnostics JSON_parse readFile during file c = (Returned text, c') ->
      text = placeholder)
/\ (forall file, file <> [] -> initialized c = false ->
      documentUri file ∉ openDocuments c ->
      getDiagnostics JSON_parse readFile during (Some file) c
      = (Threw (Error_ (lit "TypeScript Language Server not initialized")), c)).
Proof.
intros placeholder. split; [reflexivity|]. split; [reflexivity|]. split.
- intros file text c'. unfold getDiagnostics.
  destruct file as [[|u s]|]; try (intros E; injection E as <- _; reflexivity).
  destruct (ensureDocumentOpen readFile (u :: s) c) as [[[]|e|] c1]; try discriminate.
  destruct (sendRequest _ _ c1) as [[p id] c2].
  destruct (await JSON_parse [p] during c2) as [[[v|e]|] c3]; try discriminate.
  intros E; injection E as <- _; reflexivity.
- intros file Hf Hi Hn. destruct file as [|u s]; [congruence|].
  unfold getDiagnostics, ensureDocumentOpen.
  rewrite (hasDocument_false _ _ Hn), (openDocument_uninitialized _ _ _ Hi).
  assert (Hm : isMissingFile (Error_ (lit "TypeScript Language Server not initialized"))
               = false) by (vm_compute; reflexivity).
  rewrite Hm. reflexivity.
Qed.

(** X29: and a placeholder that can fail.  Although its text never depends
  on the server, [getDiagnostics] with a file throws when the request is
  not answered: after ten seconds of silence, on a running client with the
  document open, it throws [Request timeout: textDocument/diagnostic]. *)
Theorem getDiagnostics_throws_on_timeout (readFile : jsstring -> ReadResult)
  (file : jsstring) (c : TypeScriptLSPClient) (pr : nat) :
wellFormed c -> process c = Some pr -> file <> [] ->
documentUri file ∈ openDocuments c ->
fst (getDiagnostics JSON_parse readFile [Tick 10000; Fire (length (timers c))]
       (Some file) c)
= Threw (Error_ (lit "Request timeout: textDocument/diagnostic")).
Proof.
intros Hwf Hpr Hf Hin. destruct file as [|u s]; [congruence|].
unfold getDiagnostics, ensureDocumentOpen, hasDocument.
rewrite bool_decide_eq_true_2 by exact Hin.
match goal with |- context [sendRequest ?m ?ps c] =>
  pose proof (await_silence c (snd (sendRequest m ps c)) m ps
                (fst (fst (sendRequest m ps c))) pr (snd (fst (sendRequest m ps c)))
                Hwf Hpr (sendRequest_eta _ _ _)) as H;
  destruct (sendRequest m ps c) as [[p id] c1] end.
cbn [fst snd] in H.
destruct (await JSON_parse [p] [Tick 10000; Fire (length (timers c))] c1) as [o c2].
cbn [fst] in H. subst o. reflexivity.
Qed.

End Silence.

(** The sample server answers the command with a result, and another one
    refuses it. *)
Lemma organizeImports_never_throws_witness :
  let c := snd (ensureDocumentOpen (Sample.readable "let x = 1") (lit "/ws/a.ts")
                  Sample.ready) in
  let refusal := errorResponse 2 (-32601) (lit "Unknown command") in
  let refusing s :=
    if bool_decide (s = JSON_stringify refusal) then Some refusal else None in
  fst (organizeImports Sample.parse Sample.unreadable
         [Data (Utf8.encode (frameOf (JSON_stringify Sample.secondResult)))]
         (lit "/ws/a.ts") (Some true) c)
  = Returned (lit "Imports organized successfully")
  /\ fst (organizeImports refusing Sample.unreadable
            [Data (Utf8.encode (frameOf (JSON_stringify refusal)))]
            (lit "/ws/a.ts") (Some true) c)
     = Returned (lit "Failed to organize imports: Unknown command").
Proof.
  intros c refusal refusing.
  assert (Hwf : wellFormed c).
  { pose proof (wellFormed_set_openDocuments [lit "file:///ws/a.ts"]
                  _ (wellFormed_perform_other
                       (Write 7%nat (notificationMessage (lit "textDocument/didOpen")
                          (didOpenParams (lit "file:///ws/a.ts") (lit "typescript")
                             (lit "let x = 1"))))
                       Sample.ready ltac:(discriminate) Sample_ready_wellFormed)) as H.
    exact H. }
  assert (H1 : process c = Some 7%nat) by reflexivity.
  assert (H2 : documentUri (lit "/ws/a.ts") ∈ openDocuments c) by (vm_compute; left).
  assert (Hb : buffer c = []) by reflexivity.
  assert (A1 : Forall (fun u => u < 128) (JSON_stringify Sample.secondResult))
    by (vm_compute; repeat constructor).
  assert (A2 : Forall (fun u => u < 128) (JSON_stringify refusal))
    by (vm_compute; repeat constructor).
  assert (P1 : Sample.parse (JSON_stringify Sample.secondResult)
               = Some (response (preIncrement (requestId c)) JNull))
    by (vm_compute; reflexivity).
  assert (P2 : refusing (JSON_stringify refusal)
               = Some (errorResponse (preIncrement (requestId c)) (-32601)
                         (lit "Unknown command")))
    by (vm_compute; reflexivity).
  pose proof (organizeImports_never_throws Sample.parse Sample.unreadable []
                (lit "/ws/a.ts") (Some true) c) as (_ & _ & _ & _ & Hs).
  pose proof (organizeImports_never_throws refusing Sample.unreadable []
                (lit "/ws/a.ts") (Some true) c) as (_ & _ & _ & _ & He).
  destruct (Hs 7%nat _ Hwf H1 Hb H2 A1) as [Hs1 _].
  destruct (He 7%nat _ Hwf H1 Hb H2 A2) as [_ He2].
  split; [exact (Hs1 JNull P1)|].
  etransitivity; [exact (He2 _ _ P2) | vm_compute; reflexivity].
Defined.

Lemma organizeImports_reports_timeout_witness :
  let c := snd (ensureDocumentOpen (Sample.readable "let x = 1") (lit "/ws/a.ts")
                  Sample.ready) in
  process c = Some 7%nat
  /\ documentUri (lit "/ws/a.ts") ∈ openDocuments c
  /\ fst (organizeImports Sample.parse Sample.unreadable [Tick 10000; Fire 2%nat]
            (lit "/ws/a.ts") (Some true) c)
     = Returned (lit "Failed to organize imports: Request timeout: workspace/executeCommand").
Proof.
  intros c.
  assert (Hwf : wellFormed c).
  { pose proof (wellFormed_set_openDocuments [lit "file:///ws/a.ts"]
                  _ (wellFormed_perform_other
                       (Write 7%nat (notificationMessage (lit "textDocument/didOpen")
                          (didOpenParams (lit "file:///ws/a.ts") (lit "typescript")
                             (lit "let x = 1"))))
                       Sample.ready ltac:(discriminate) Sample_ready_wellFormed)) as H.
    exact H. }
  assert (H1 : process c = Some 7%nat) by reflexivity.
  assert (H2 : documentUri (lit "/ws/a.ts") ∈ openDocuments c) by (vm_compute; left).
  split; [exact H1|]. split; [exact H2|].
  exact (organizeImports_reports_timeout Sample.parse Sample.unreadable (lit "/ws/a.ts")
           (Some true) c 7%nat Hwf H1 H2).
Defined.

Lemma getDiagnostics_throws_on_timeout_witness :
  let c := snd (ensureDocumentOpen (Sample.readable "let x = 1") (lit "/ws/a.ts")
                  Sample.ready) in
  process c = Some 7%nat
  /\ lit "/ws/a.ts" <> []
  /\ documentUri (lit "/ws/a.ts") ∈ openDocuments c
  /\ fst (getDiagnostics Sample.parse Sample.unreadable [Tick 10000; Fire 2%nat]
            (Some (lit "/ws/a.ts")) c)
     = Threw (Error_ (lit "Request timeout: textDocument/diagnostic")).
Proof.
  intros c.
  assert (Hwf : wellFormed c).
  { pose proof (wellFormed_set_openDocuments [lit "file:///ws/a.ts"]
                  _ (wellFormed_perform_other
                       (Write 7%nat (notificationMessage (lit "textDocument/didOpen")
                          (didOpenParams (lit "file:///ws/a.ts") (lit "typescript")
                             (lit "let x = 1"))))
                       Sample.ready ltac:(discriminate) Sample_ready_wellFormed)) as H.
    exact H. }
  assert (H1 : process c = Some 7%nat) by reflexivity.
  assert (H0 : lit "/ws/a.ts" <> []) by discriminate.
  assert (H2 : documentUri (lit "/ws/a.ts") ∈ openDocuments c) by (vm_compute; left).
  split; [exact H1|]. split; [exact H0|]. split; [exact H2|].
  exact (getDiagnostics_throws_on_timeout Sample.parse Sample.unreadable (lit "/ws/a.ts")
           c 7%nat Hwf H1 H0 H2).
Defined.
(** ** The handshake *)

Section Handshake.

Variable JSON_parse : jsstring -> option json.

Lemma step_grows (e : Event) (c : TypeScriptLSPClient) :
(exists new, effects (step JSON_parse e c) = new ++ effects c)
/\ (process (step JSON_parse e c) = process c \/ process (step JSON_parse e c) = None)
/\ tempDir (step JSON_parse e c) = tempDir c.
Proof.
destruct (isExit e) eqn:He.
- destruct e; try discriminate He. cbn [step].
  destruct (cleanup_closed c) as (_ & _ & _ & Hp).
  destruct (cleanup_kept c) as (_ & _ & _ & _ & _ & Ht & _).
  split; [|split; [right; exact Hp | exact Ht]].
  rewrite cleanup_spec. cbn [effects]. eauto.
- destruct (undisturbed_step JSON_parse e c He) as [H1 _ _ H4 _ (new & E & _)].
  split; [eauto|]. split; [left; exact H1 | exact H4].
Qed.

Lemma await_grows (ps : list nat) (events : list Event) (c : TypeScriptLSPClient) :
(exists new, effects (snd (await JSON_parse ps events c)) = new ++ effects c)
/\ (process (snd (await JSON_parse ps events c)) = process c
    \/ process (snd (await JSON_parse ps events c)) = None)
/\ tempDir (snd (await JSON_parse ps events c)) = tempDir c.
Proof.
revert c. induction events as [|e events IH]; intros c; cbn [await];
  destruct (firstSettled ps (effects c));
  try (split; [exists []; reflexivity | split; [left|]; reflexivity]).
destruct (IH (step JSON_parse e c)) as ((n1 & E1) & P1 & T1).
destruct (step_grows e c) as ((n2 & E2) & P2 & T2).
split; [|split].
- exists (n1 ++ n2). rewrite E1, E2, app_assoc. reflexivity.
- destruct P1 as [P1 | P1]; [|right; exact P1].
  rewrite P1. exact P2.
- rewrite T1. exact T2.
Qed.

(** X30: the order of the handshake.  When [initialize] returns on a new
  client, the first thing that was written to the subprocess is the
  initialize request, with id 1 and with the workspace root of the
  constructor as [rootPath]; the last thing written is the [initialized]
  notification; the client is initialized, it holds the subprocess that
  was spawned, and it knows its temporary directory. *)
Theorem initialize_handshake_order (env : InitEnv) (key : jsstring)
  (c : TypeScriptLSPClient) :
initialize JSON_parse env (Client.new key) = (Returned tt, c) ->
initialized c = true
/\ process c = Some (child env)
/\ tempDir c = Some (tempPath env)
/\ exists between,
     effects c
     = Write (child env) (notificationMessage (lit "initialized") (JObj []))
       :: between
       ++ [Write (child env)
             (requestMessage 1 (lit "initialize")
                (initializeParams (pid env) (workspaceRoot (Client.new key))))].
Proof.
unfold initialize. cbn [initialized Client.new].
destruct (mkdirError env); [discriminate|].
destruct (childHasStreams env); [|discriminate]. cbn [negb].
destruct (startup env); try discriminate.
cbn [newPromise]. rewrite sendRequest_spec.
cbn [process set_process setTimeout set_timers set_promises set_tempDir promises
     requestId pendingRequests clock timers effects workspaceRoot].
match goal with |- context [await JSON_parse ?ps ?evs ?c1] =>
  pose proof (await_grows ps evs c1) as ((new & E) & P & T);
  destruct (await JSON_parse ps evs c1) as [[[v|e]|] c2] end; try discriminate.
cbn [snd] in E, P, T.
cbn [effects process tempDir setTimeout set_timers perform set_effects
     set_pendingRequests set_promises set_requestId set_process set_tempDir] in E, P, T.
unfold sendNotification, sendMessage.
destruct P as [P | P]; rewrite P; [|discriminate].
intros H. injection H as <-.
cbn [initialized process tempDir effects set_initialized perform set_effects].
split; [reflexivity|]. split; [exact P|]. split; [exact T|].
exists new. rewrite E. reflexivity.
Qed.

End Handshake.

Lemma initialize_handshake_order_witness :
  initialize Sample.parse Sample.env (Client.new Sample.key1) = (Returned tt, Sample.ready)
  /\ initialized Sample.ready = true
  /\ process Sample.ready = Some 7%nat
  /\ tempDir Sample.ready = Some (lit "/tmp/typescript-lsp-0")
  /\ exists between,
       effects Sample.ready
       = Write 7%nat (notificationMessage (lit "initialized") (JObj []))
         :: between
         ++ [Write 7%nat
               (requestMessage 1 (lit "initialize")
                  (initializeParams 4242 (workspaceRoot (Client.new Sample.key1))))].
Proof.
  split; [exact Sample_ready_reached|].
  exact (initialize_handshake_order Sample.parse Sample.env Sample.key1 Sample.ready
           Sample_ready_reached).
Defined.
